(** * Job scheduler: worker nodes, policy queues and first-fit placement

    A shallow embedding of [Project.cpp] and the properties of its
    allocator, its three policy queues and its drain loops.

    Conventions.
    - A C++ [int] is a [Z] in the range [INT_MIN .. INT_MAX]; every
      arithmetic operation the source performs on [int]s is written with
      its 32-bit two's complement wrap-around ([int_add], [int_sub],
      [int_mul]).
    - A C++ [double] is a primitive binary64 float, with the IEEE 754
      operations rounding to nearest, ties to even.
    - A [std::vector] and a [std::queue] are lists; the front of the queue
      is the head of the list.
    - A [std::priority_queue] is its underlying vector, kept as a binary
      heap by the heap functions of libstdc++.
    - The lines the scheduler writes to [std::cout] are a list of
      [Event]s, kept next to the members of the scheduler in its state.
      The section headers that [main] prints and the text format of the
      CSV report are left out. *)

From Stdlib Require Import ZArith Lia Bool Uint63 Floats.
From stdpp Require Import base tactics option list sorting.
From Equations Require Import Equations.
From Equations.Prop Require Import Logic.

Local Open Scope Z_scope.

(** ** Machine integers *)

Definition INT_MIN : Z := - 2 ^ 31.
Definition INT_MAX : Z := 2 ^ 31 - 1.

Definition int_range (z : Z) : Prop := INT_MIN <= z <= INT_MAX.

(** The signed 32-bit representative of [z]. *)
Definition wrap (z : Z) : Z := (z + 2 ^ 31) mod 2 ^ 32 - 2 ^ 31.

Definition int_add (a b : Z) : Z := wrap (a + b).
Definition int_sub (a b : Z) : Z := wrap (a - b).
Definition int_mul (a b : Z) : Z := wrap (a * b).

(** ** Doubles *)

(** The conversion [(double) i] of an [int]: every [int] is a double, so
    no rounding takes place. *)
Definition double_of_int (z : Z) : float :=
  if z <? 0 then PrimFloat.opp (PrimFloat.of_uint63 (Uint63.of_Z (- z)))
  else PrimFloat.of_uint63 (Uint63.of_Z z).

(** ** Job *)

Module Job.

Record t : Type := mk {
  id : Z;
  arrivalTime : Z;
  coresRequired : Z;
  memoryRequired : Z;
  execTime : Z;
  completed : bool
}.

(** The constructor [Job(id, arrival, cores, memory, exec)]. *)
Definition make (id arrival cores memory exec : Z) : t :=
  {| id := id; arrivalTime := arrival; coresRequired := cores;
     memoryRequired := memory; execTime := exec; completed := false |}.

#[global] Instance eq_dec : EqDecision t.
Proof. solve_decision. Defined.

End Job.

(** ** WorkerNode *)

Module WorkerNode.

Record t : Type := mk {
  id : Z;
  totalCores : Z;
  totalMemory : Z;
  availableCores : Z;
  availableMemory : Z
}.

(** [WorkerNode{i}]: the default member initialisers give every node 24
    cores and 64 GB, all of them available. *)
Definition make (i : Z) : t :=
  {| id := i; totalCores := 24; totalMemory := 64;
     availableCores := 24; availableMemory := 64 |}.

Definition allocateJob (n : t) (job : Job.t) : bool * t :=
  if (availableCores n >=? Job.coresRequired job)
     && (availableMemory n >=? Job.memoryRequired job)
  then (true,
        {| id := id n; totalCores := totalCores n; totalMemory := totalMemory n;
           availableCores := int_sub (availableCores n) (Job.coresRequired job);
           availableMemory := int_sub (availableMemory n) (Job.memoryRequired job) |})
  else (false, n).

Definition freeResources (n : t) (job : Job.t) : t :=
  {| id := id n; totalCores := totalCores n; totalMemory := totalMemory n;
     availableCores := int_add (availableCores n) (Job.coresRequired job);
     availableMemory := int_add (availableMemory n) (Job.memoryRequired job) |}.

Definition getCpuUtilization (n : t) : float :=
  PrimFloat.mul 100%float
    (PrimFloat.sub 1%float
       (PrimFloat.div (double_of_int (availableCores n)) (double_of_int (totalCores n)))).

Definition getMemoryUtilization (n : t) : float :=
  PrimFloat.mul 100%float
    (PrimFloat.sub 1%float
       (PrimFloat.div (double_of_int (availableMemory n)) (double_of_int (totalMemory n)))).

#[global] Instance eq_dec : EqDecision t.
Proof. solve_decision. Defined.

End WorkerNode.

(** ** Comparators of the two priority queues *)

(** [SmallestJobFirst]: the key is the product of the three dimensions,
    multiplied left to right in [int] arithmetic. *)
Definition gross_value (j : Job.t) : Z :=
  int_mul (int_mul (Job.execTime j) (Job.coresRequired j)) (Job.memoryRequired j).

Definition SmallestJobFirst (j1 j2 : Job.t) : bool :=
  gross_value j1 >? gross_value j2.

Definition ShortestDurationFirst (j1 j2 : Job.t) : bool :=
  Job.execTime j1 >? Job.execTime j2.

(** ** std::priority_queue

    [std::priority_queue<T, std::vector<T>, Compare>] keeps its elements
    in the underlying vector [c], arranged as a binary heap: [push(x)] is
    [c.push_back(x)] followed by [std::push_heap], [pop()] is
    [std::pop_heap] followed by [c.pop_back()], and [top()] is
    [c.front()].  Which of several elements that [Compare] does not tell
    apart leaves the queue first is decided by these heap algorithms, so
    they are part of the program's behaviour; they are given here as
    libstdc++ has them ([bits/stl_heap.h], [bits/stl_queue.h]), with the
    names of that source.

    The vector is a list, the iterator [first + i] is the position [i],
    and positions and distances are [nat]s.  The only differences
    between [nat] and the signed distances of the source are [0 - 1] and
    [(len - 2) / 2] for [len = 0]: [(holeIndex - 1) / 2] is 0 for
    [holeIndex = 0] in both, and [__adjust_heap] is only ever called
    with [len >= 1].  A read at a position outside the list gives [None];
    the algorithms never read there, and leave the list as it is in that
    case.  [top] of an empty queue is [None]: the loops of the source
    test [empty()] before they call [top()]. *)

Module priority_queue.
Section WithCompare.
Context {T : Type} (comp : T -> T -> bool).

(** [std::__push_heap(first, holeIndex, topIndex, value, comp)]: the hole
    moves up, the parents that [comp] places below [value] move down into
    it, and [value] is stored in the hole where the loop stops. *)
Equations? __push_heap (c : list T) (holeIndex topIndex : nat) (value : T) : list T
  by wf holeIndex lt :=
  __push_heap c holeIndex topIndex value with decide (topIndex < holeIndex)%nat := {
    | right _ => <[holeIndex := value]> c
    | left Hgt with c !! ((holeIndex - 1) / 2)%nat := {
        | None => <[holeIndex := value]> c
        | Some parent with comp parent value := {
            | true =>
                __push_heap (<[holeIndex := parent]> c) ((holeIndex - 1) / 2)%nat
                  topIndex value
            | false => <[holeIndex := value]> c } } }.
Proof.
  change ((holeIndex - 1) / 2 < holeIndex)%nat.
  pose proof (Nat.div_mod_eq (holeIndex - 1) 2). lia.
Qed.

(** [std::push_heap(first, last, comp)]: the value is the last element,
    the hole is its position. *)
Definition push_heap (c : list T) : list T :=
  match last c with
  | Some value => __push_heap c (length c - 1) 0 value
  | None => c
  end.

(** The [while] loop of [std::__adjust_heap]: the hole moves down, each
    time to the second child, or to the first child when [comp] places
    the second below the first; that child moves up into the hole.  The
    result is the vector, [holeIndex] and [secondChild] as the loop
    leaves them. *)
Equations? __adjust_heap_loop (c : list T) (holeIndex secondChild len : nat)
  : list T * nat * nat by wf (len - secondChild)%nat lt :=
  __adjust_heap_loop c holeIndex secondChild len
    with decide (secondChild < (len - 1) / 2)%nat := {
    | right _ => (c, holeIndex, secondChild)
    | left Hlt with c !! (2 * (secondChild + 1))%nat,
                    c !! (2 * (secondChild + 1) - 1)%nat := {
        | Some r, Some l with comp r l := {
            | true =>
                __adjust_heap_loop (<[holeIndex := l]> c)
                  (2 * (secondChild + 1) - 1) (2 * (secondChild + 1) - 1) len
            | false =>
                __adjust_heap_loop (<[holeIndex := r]> c)
                  (2 * (secondChild + 1)) (2 * (secondChild + 1)) len };
        | _, _ => (c, holeIndex, secondChild) } }.
Proof.
  all: change (Nat.divmod (len - 1) 1 0 1).1 with ((len - 1) / 2)%nat in Hlt;
    pose proof (Nat.div_mod_eq (len - 1) 2); lia.
Qed.

(** [std::__adjust_heap(first, holeIndex, len, value, comp)]: after the
    loop, a last node that has one child only gives up that child; then
    [value] is pushed up from the hole, not above where the hole
    started. *)
Definition __adjust_heap (c : list T) (holeIndex len : nat) (value : T) : list T :=
  let '(c1, holeIndex1, secondChild) := __adjust_heap_loop c holeIndex holeIndex len in
  if (len mod 2 =? 0)%nat && (secondChild =? (len - 2) / 2)%nat then
    match c1 !! (2 * (secondChild + 1) - 1)%nat with
    | Some l =>
        __push_heap (<[holeIndex1 := l]> c1) (2 * (secondChild + 1) - 1) holeIndex value
    | None => __push_heap c1 holeIndex1 holeIndex value
    end
  else __push_heap c1 holeIndex1 holeIndex value.

(** [std::__pop_heap(first, last, result, comp)], with [last] given as
    the distance [last - first] and [result] as a position: the first
    element is stored at [result], and the value that was there is put
    into the heap of the [last] elements before it. *)
Definition __pop_heap (c : list T) (last result : nat) : list T :=
  match c !! result, c !! 0%nat with
  | Some value, Some first => __adjust_heap (<[result := first]> c) 0 last value
  | _, _ => c
  end.

(** [std::pop_heap(first, last, comp)] *)
Definition pop_heap (c : list T) : list T :=
  if decide (1 < length c)%nat then __pop_heap c (length c - 1) (length c - 1) else c.

(** The members of [std::priority_queue]. *)
Definition push (x : T) (c : list T) : list T := push_heap (c ++ [x]).

Definition top (c : list T) : option T := head c.

Definition pop (c : list T) : list T := removelast (pop_heap c).

(** The two loops, one iteration at a time. *)
Lemma push_heap_eq c holeIndex topIndex value :
  __push_heap c holeIndex topIndex value
  = if decide (topIndex < holeIndex)%nat then
      match c !! ((holeIndex - 1) / 2)%nat with
      | Some parent =>
          if comp parent value
          then __push_heap (<[holeIndex := parent]> c) ((holeIndex - 1) / 2)%nat
                 topIndex value
          else <[holeIndex := value]> c
      | None => <[holeIndex := value]> c
      end
    else <[holeIndex := value]> c.
Proof.
  match goal with |- _ = ?R => set (rhs := R) end.
  rewrite __push_heap_equation_1.
  destruct (decide _) as [Hgt | Hle] eqn:E1; simp __push_heap; [| done].
  destruct (c !! _) as [parent |] eqn:E2; simp __push_heap; [| done].
  destruct (comp parent value) eqn:E3; simp __push_heap; subst rhs;
    rewrite <- ?__push_heap_equation_1; done.
Qed.

Lemma adjust_loop_eq c holeIndex secondChild len :
  __adjust_heap_loop c holeIndex secondChild len
  = if decide (secondChild < (len - 1) / 2)%nat then
      match c !! (2 * (secondChild + 1))%nat, c !! (2 * (secondChild + 1) - 1)%nat with
      | Some r, Some l =>
          if comp r l
          then __adjust_heap_loop (<[holeIndex := l]> c)
                 (2 * (secondChild + 1) - 1) (2 * (secondChild + 1) - 1) len
          else __adjust_heap_loop (<[holeIndex := r]> c)
                 (2 * (secondChild + 1)) (2 * (secondChild + 1)) len
      | _, _ => (c, holeIndex, secondChild)
      end
    else (c, holeIndex, secondChild).
Proof.
  match goal with |- _ = ?R => set (rhs := R) end.
  rewrite __adjust_heap_loop_equation_1.
  destruct (decide _) as [Hlt | Hge] eqn:E1; simp __adjust_heap_loop; [| done].
  destruct (c !! (2 * (secondChild + 1) - 1)%nat) as [l |] eqn:E3; simp __adjust_heap_loop;
    [| subst rhs; by destruct (c !! (2 * (secondChild + 1))%nat)].
  destruct (c !! (2 * (secondChild + 1))%nat) as [r |] eqn:E2; simp __adjust_heap_loop;
    [| done].
  destruct (comp r l) eqn:E4; simp __adjust_heap_loop; subst rhs;
    rewrite <- ?__adjust_heap_loop_equation_1; done.
Qed.

(** [pop] takes one element away: the loops that pop until the queue is
    empty come to an end. *)
Lemma parent_lt (i : nat) : (0 < i -> (i - 1) / 2 < i)%nat.
Proof. intros. pose proof (Nat.div_mod_eq (i - 1) 2). lia. Qed.

Lemma push_heap_length c h t x : length (__push_heap c h t x) = length c.
Proof.
  revert c. induction h as [h IH] using lt_wf_ind. intros c.
  rewrite push_heap_eq. destruct (decide _) as [Hgt |]; [| by rewrite length_insert].
  destruct (c !! _) as [p |]; [| by rewrite length_insert].
  destruct (comp p x); [| by rewrite length_insert].
  rewrite IH, length_insert; [done |]. apply parent_lt. lia.
Qed.

Lemma adjust_loop_length c h sc len :
  length (__adjust_heap_loop c h sc len).1.1 = length c.
Proof.
  remember (len - sc)%nat as n eqn:Hn. revert c h sc Hn.
  induction n as [n IH] using lt_wf_ind. intros c h sc ->.
  rewrite adjust_loop_eq. destruct (decide _) as [Hlt |]; [| done].
  pose proof (Nat.div_mod_eq (len - 1) 2).
  destruct (c !! (2 * (sc + 1))%nat) as [r |]; [| done].
  destruct (c !! (2 * (sc + 1) - 1)%nat) as [l |]; [| done].
  destruct (comp r l).
  - rewrite (IH (len - (2 * (sc + 1) - 1))%nat), length_insert; [done | lia | done].
  - rewrite (IH (len - (2 * (sc + 1)))%nat), length_insert; [done | lia | done].
Qed.

Lemma adjust_heap_length c h len x : length (__adjust_heap c h len x) = length c.
Proof.
  unfold __adjust_heap. pose proof (adjust_loop_length c h h len) as Hl.
  destruct (__adjust_heap_loop c h h len) as [[c1 h1] sc]. simpl in Hl.
  destruct (_ && _); [destruct (c1 !! _) |];
    by rewrite push_heap_length, ?length_insert.
Qed.

Lemma pop_length x c : top c = Some x -> (length (pop c) < length c)%nat.
Proof.
  intros Htop. destruct c as [| a c]; [done |].
  unfold pop. rewrite removelast_firstn_len, length_take.
  assert (length (pop_heap (a :: c)) = length (a :: c)) as ->; [| simpl; lia].
  unfold pop_heap, __pop_heap. destruct (decide _); [| done].
  destruct (_ !! _); [| done]. simpl.
  by rewrite adjust_heap_length, length_insert.
Qed.

(** [top]/[pop] until the queue is empty: the order in which a queue
    hands out its elements. *)
Equations? pop_all (c : list T) : list T by wf (length c) lt :=
  pop_all c with inspect (top c) := {
    | exist _ None _ => []
    | exist _ (Some x) Htop => x :: pop_all (pop c) }.
Proof. by apply (pop_length x). Qed.

End WithCompare.
End priority_queue.

(** ** Console output *)

Inductive Event : Type :=
| Allocated (job node : Z)      (* "Job <job> allocated to Node <node>" *)
| NotAllocated (job : Z).       (* "Job <job> could not be allocated, re-queueing." *)

#[global] Instance Event_eq_dec : EqDecision Event.
Proof. solve_decision. Defined.

(** ** Scheduler *)

Module Scheduler.

(** The members of the class, and [cout]: the lines written to
    [std::cout] so far, oldest first.  The two priority queues are their
    underlying vectors. *)
Record t : Type := mk {
  nodes : list WorkerNode.t;
  jobQueueFCFS : list Job.t;
  jobQueueSmallest : list Job.t;
  jobQueueShortest : list Job.t;
  pendingJobs : list Job.t;
  cout : list Event
}.

Definition set_nodes (ns : list WorkerNode.t) (s : t) : t :=
  {| nodes := ns; jobQueueFCFS := jobQueueFCFS s;
     jobQueueSmallest := jobQueueSmallest s;
     jobQueueShortest := jobQueueShortest s;
     pendingJobs := pendingJobs s; cout := cout s |}.

Definition set_jobQueueFCFS (q : list Job.t) (s : t) : t :=
  {| nodes := nodes s; jobQueueFCFS := q;
     jobQueueSmallest := jobQueueSmallest s;
     jobQueueShortest := jobQueueShortest s;
     pendingJobs := pendingJobs s; cout := cout s |}.

Definition set_jobQueueSmallest (q : list Job.t) (s : t) : t :=
  {| nodes := nodes s; jobQueueFCFS := jobQueueFCFS s;
     jobQueueSmallest := q;
     jobQueueShortest := jobQueueShortest s;
     pendingJobs := pendingJobs s; cout := cout s |}.

Definition set_jobQueueShortest (q : list Job.t) (s : t) : t :=
  {| nodes := nodes s; jobQueueFCFS := jobQueueFCFS s;
     jobQueueSmallest := jobQueueSmallest s;
     jobQueueShortest := q;
     pendingJobs := pendingJobs s; cout := cout s |}.

Definition set_pendingJobs (p : list Job.t) (s : t) : t :=
  {| nodes := nodes s; jobQueueFCFS := jobQueueFCFS s;
     jobQueueSmallest := jobQueueSmallest s;
     jobQueueShortest := jobQueueShortest s;
     pendingJobs := p; cout := cout s |}.

Definition print (e : Event) (s : t) : t :=
  {| nodes := nodes s; jobQueueFCFS := jobQueueFCFS s;
     jobQueueSmallest := jobQueueSmallest s;
     jobQueueShortest := jobQueueShortest s;
     pendingJobs := pendingJobs s; cout := cout s ++ [e] |}.

(** [Scheduler(numNodes)]: nodes [0 .. numNodes - 1], empty queues. *)
Definition make (numNodes : Z) : t :=
  {| nodes := map (fun i => WorkerNode.make (Z.of_nat i)) (seq 0 (Z.to_nat numNodes));
     jobQueueFCFS := []; jobQueueSmallest := []; jobQueueShortest := [];
     pendingJobs := []; cout := [] |}.

Definition addJobToQueueFCFS (s : t) (job : Job.t) : t :=
  set_jobQueueFCFS (jobQueueFCFS s ++ [job]) s.

Definition addJobToQueueSmallest (s : t) (job : Job.t) : t :=
  set_jobQueueSmallest (priority_queue.push SmallestJobFirst job (jobQueueSmallest s)) s.

Definition addJobToQueueShortest (s : t) (job : Job.t) : t :=
  set_jobQueueShortest (priority_queue.push ShortestDurationFirst job (jobQueueShortest s)) s.

(** The [for (auto &node : nodes)] loop of [allocateJobToNode], from the
    node at the head of [ns] on: the nodes as the loop leaves them, and
    the id of the node that took the job when the loop returns from
    inside, [None] when it runs off the end. *)
Fixpoint allocateJobToNode_from (ns : list WorkerNode.t) (job : Job.t)
  : list WorkerNode.t * option Z :=
  match ns with
  | [] => ([], None)
  | node :: rest =>
      let (ok, node') := WorkerNode.allocateJob node job in
      if ok then (node' :: rest, Some (WorkerNode.id node'))
      else
        let (rest', r) := allocateJobToNode_from rest job in
        (node' :: rest', r)
  end.

(** [allocateJobToNode(Job &job)]: the job is passed by reference, so
    the job as the call leaves it is part of the result. *)
Definition allocateJobToNode (s : t) (job : Job.t) : bool * Job.t * t :=
  let (ns', r) := allocateJobToNode_from (nodes s) job in
  match r with
  | Some i => (true, job, print (Allocated (Job.id job) i) (set_nodes ns' s))
  | None => (false, job, print (NotAllocated (Job.id job)) (set_nodes ns' s))
  end.

(** The statement every drain loop runs on the copy [job] it popped:
    [if (!allocateJobToNode(job)) pendingJobs.push_back(job);] *)
Definition place_or_defer (s : t) (job : Job.t) : t :=
  let '(r, job', s') := allocateJobToNode s job in
  if negb r then set_pendingJobs (pendingJobs s' ++ [job']) s' else s'.

Lemma place_or_defer_queues s job :
  jobQueueFCFS (place_or_defer s job) = jobQueueFCFS s
  /\ jobQueueSmallest (place_or_defer s job) = jobQueueSmallest s
  /\ jobQueueShortest (place_or_defer s job) = jobQueueShortest s.
Proof.
  unfold place_or_defer, allocateJobToNode.
  destruct (allocateJobToNode_from (nodes s) job) as [ns' [i |]]; done.
Qed.

Equations? scheduleJobsFCFS (s : t) : t
  by wf (length (jobQueueFCFS s)) lt :=
  scheduleJobsFCFS s with inspect (head (jobQueueFCFS s)) := {
    | exist _ None _ => s
    | exist _ (Some job) Hfront =>
        scheduleJobsFCFS
          (place_or_defer (set_jobQueueFCFS (tail (jobQueueFCFS s)) s) job) }.
Proof.
  destruct (place_or_defer_queues (set_jobQueueFCFS (tail (jobQueueFCFS s)) s) job)
    as (-> & _ & _).
  simpl. destruct (jobQueueFCFS s); [discriminate | simpl; lia].
Qed.

Equations? scheduleJobsSmallest (s : t) : t
  by wf (length (jobQueueSmallest s)) lt :=
  scheduleJobsSmallest s with inspect (priority_queue.top (jobQueueSmallest s)) := {
    | exist _ None _ => s
    | exist _ (Some job) Htop =>
        scheduleJobsSmallest
          (place_or_defer
             (set_jobQueueSmallest
                (priority_queue.pop SmallestJobFirst (jobQueueSmallest s)) s) job) }.
Proof.
  destruct (place_or_defer_queues
              (set_jobQueueSmallest
                 (priority_queue.pop SmallestJobFirst (jobQueueSmallest s)) s) job)
    as (_ & -> & _).
  simpl. by apply (priority_queue.pop_length _ job).
Qed.

Equations? scheduleJobsShortest (s : t) : t
  by wf (length (jobQueueShortest s)) lt :=
  scheduleJobsShortest s with inspect (priority_queue.top (jobQueueShortest s)) := {
    | exist _ None _ => s
    | exist _ (Some job) Htop =>
        scheduleJobsShortest
          (place_or_defer
             (set_jobQueueShortest
                (priority_queue.pop ShortestDurationFirst (jobQueueShortest s)) s) job) }.
Proof.
  destruct (place_or_defer_queues
              (set_jobQueueShortest
                 (priority_queue.pop ShortestDurationFirst (jobQueueShortest s)) s) job)
    as (_ & _ & ->).
  simpl. by apply (priority_queue.pop_length _ job).
Qed.

(** [generateUtilizationReport]: the rows of the report, one per node in
    node order, before they are formatted to two decimals. *)
Definition generateUtilizationReport (s : t) : list (Z * float * float) :=
  map (fun node => (WorkerNode.id node, WorkerNode.getCpuUtilization node,
                    WorkerNode.getMemoryUtilization node))
      (nodes s).

End Scheduler.

(** ** The sample run of [main] *)

Definition generateSampleJobs (s : Scheduler.t) : Scheduler.t :=
  let s := Scheduler.addJobToQueueFCFS s (Job.make 1 1 10 32 5) in
  let s := Scheduler.addJobToQueueSmallest s (Job.make 2 2 5 16 3) in
  let s := Scheduler.addJobToQueueShortest s (Job.make 3 3 20 48 2) in
  let s := Scheduler.addJobToQueueFCFS s (Job.make 4 4 8 20 6) in
  Scheduler.addJobToQueueSmallest s (Job.make 5 5 12 40 1).

Definition main : Scheduler.t :=
  let scheduler := Scheduler.make 128 in
  let scheduler := generateSampleJobs scheduler in
  let scheduler := Scheduler.scheduleJobsFCFS scheduler in
  let scheduler := Scheduler.scheduleJobsSmallest scheduler in
  Scheduler.scheduleJobsShortest scheduler.

(** * Properties *)

(** ** Machine integers *)

Lemma wrap_range z : int_range (wrap z).
Proof.
  unfold int_range, wrap, INT_MIN, INT_MAX.
  pose proof (Z.mod_pos_bound (z + 2 ^ 31) (2 ^ 32) ltac:(lia)). lia.
Qed.

Lemma wrap_id z : int_range z -> wrap z = z.
Proof.
  unfold int_range, wrap, INT_MIN, INT_MAX. intros H.
  rewrite Z.mod_small; lia.
Qed.

Lemma wrap_shift z k : wrap (z + k * 2 ^ 32) = wrap z.
Proof.
  unfold wrap. replace (z + k * 2 ^ 32 + 2 ^ 31) with (z + 2 ^ 31 + k * 2 ^ 32) by lia.
  now rewrite Z.mod_add by lia.
Qed.

Lemma wrap_eq z : exists k, wrap z = z + k * 2 ^ 32.
Proof.
  exists (- ((z + 2 ^ 31) / 2 ^ 32)). unfold wrap.
  rewrite Z.mod_eq by lia. lia.
Qed.

Lemma wrap_mul_l a b : wrap (wrap a * b) = wrap (a * b).
Proof.
  destruct (wrap_eq a) as [k ->].
  replace ((a + k * 2 ^ 32) * b) with (a * b + (k * b) * 2 ^ 32) by lia.
  apply wrap_shift.
Qed.

(** The key of [SmallestJobFirst] is the signed 32-bit representative of
    the exact product, whatever the intermediate product does. *)
Definition exact_product (j : Job.t) : Z :=
  Job.execTime j * Job.coresRequired j * Job.memoryRequired j.

Lemma gross_value_wrap j : gross_value j = wrap (exact_product j).
Proof. unfold gross_value, int_mul, exact_product. apply wrap_mul_l. Qed.

Lemma gross_value_exact j : int_range (exact_product j) -> gross_value j = exact_product j.
Proof. intros H. rewrite gross_value_wrap. now apply wrap_id. Qed.

(** ** WorkerNode::allocateJob *)

(** Both resource checks hold: what [allocateJob] tests. *)
Definition fits (n : WorkerNode.t) (job : Job.t) : Prop :=
  WorkerNode.availableCores n >= Job.coresRequired job
  /\ WorkerNode.availableMemory n >= Job.memoryRequired job.

#[global] Instance fits_dec n job : Decision (fits n job).
Proof. unfold fits. apply _. Defined.

Lemma allocateJob_true n job :
  fits n job ->
  WorkerNode.allocateJob n job =
    (true,
     {| WorkerNode.id := WorkerNode.id n;
        WorkerNode.totalCores := WorkerNode.totalCores n;
        WorkerNode.totalMemory := WorkerNode.totalMemory n;
        WorkerNode.availableCores :=
          int_sub (WorkerNode.availableCores n) (Job.coresRequired job);
        WorkerNode.availableMemory :=
          int_sub (WorkerNode.availableMemory n) (Job.memoryRequired job) |}).
Proof.
  intros [Hc Hm]. unfold WorkerNode.allocateJob.
  rewrite (proj2 (Z.geb_le _ _)), (proj2 (Z.geb_le _ _)) by lia. reflexivity.
Qed.

Lemma allocateJob_false n job :
  ~ fits n job -> WorkerNode.allocateJob n job = (false, n).
Proof.
  intros H. unfold WorkerNode.allocateJob.
  destruct (_ >=? _) eqn:Hc; [destruct (WorkerNode.availableMemory n >=? _) eqn:Hm |];
    try reflexivity.
  exfalso. apply H. apply Z.geb_le in Hc, Hm. unfold fits. lia.
Qed.


(** ** The node invariant *)

(** The predicate of the data model: the available counters stay between
    zero and the totals. *)
Definition node_inv (n : WorkerNode.t) : Prop :=
  0 <= WorkerNode.availableCores n <= WorkerNode.totalCores n
  /\ 0 <= WorkerNode.availableMemory n <= WorkerNode.totalMemory n.

#[global] Instance node_inv_dec n : Decision (node_inv n).
Proof. unfold node_inv. apply _. Defined.

(** The totals are [int]s. *)
Definition node_typed (n : WorkerNode.t) : Prop :=
  int_range (WorkerNode.totalCores n) /\ int_range (WorkerNode.totalMemory n).

Definition job_nonneg (job : Job.t) : Prop :=
  0 <= Job.coresRequired job /\ 0 <= Job.memoryRequired job.

#[global] Instance node_typed_dec n : Decision (node_typed n).
Proof. unfold node_typed, int_range. apply _. Defined.

#[global] Instance job_nonneg_dec job : Decision (job_nonneg job).
Proof. unfold job_nonneg. apply _. Defined.

(** A call of one of the two mutating operations of a node. *)
Inductive NodeOp : Type :=
| AllocateJob (job : Job.t)
| FreeResources (job : Job.t).

Definition apply_op (n : WorkerNode.t) (op : NodeOp) : WorkerNode.t :=
  match op with
  | AllocateJob job => (WorkerNode.allocateJob n job).2
  | FreeResources job => WorkerNode.freeResources n job
  end.

Definition run_ops (n : WorkerNode.t) (ops : list NodeOp) : WorkerNode.t :=
  fold_left apply_op ops n.

(** A call that respects the data model: requirements are not negative,
    and [freeResources] gives back no more than is in use. *)
Definition op_admissible (n : WorkerNode.t) (op : NodeOp) : Prop :=
  match op with
  | AllocateJob job => job_nonneg job
  | FreeResources job =>
      0 <= Job.coresRequired job <= WorkerNode.totalCores n - WorkerNode.availableCores n
      /\ 0 <= Job.memoryRequired job <= WorkerNode.totalMemory n - WorkerNode.availableMemory n
  end.

Fixpoint trace_admissible (n : WorkerNode.t) (ops : list NodeOp) : Prop :=
  match ops with
  | [] => True
  | op :: ops' => op_admissible n op /\ trace_admissible (apply_op n op) ops'
  end.

Lemma apply_op_totals n op :
  WorkerNode.totalCores (apply_op n op) = WorkerNode.totalCores n
  /\ WorkerNode.totalMemory (apply_op n op) = WorkerNode.totalMemory n
  /\ WorkerNode.id (apply_op n op) = WorkerNode.id n.
Proof.
  destruct op as [job | job]; simpl; [| done].
  unfold WorkerNode.allocateJob. destruct (_ && _); done.
Qed.

Lemma allocateJob_inv n job :
  node_inv n -> node_typed n -> job_nonneg job ->
  node_inv (WorkerNode.allocateJob n job).2.
Proof.
  intros Hinv [Htc Htm] [Hc Hm].
  destruct (decide (fits n job)) as [Hf | Hf].
  - rewrite (allocateJob_true _ _ Hf). destruct Hf as [Hfc Hfm].
    unfold node_inv, int_range, INT_MIN, INT_MAX in *. simpl.
    unfold int_sub. rewrite !wrap_id; unfold int_range, INT_MIN, INT_MAX; lia.
  - now rewrite (allocateJob_false _ _ Hf).
Qed.

Lemma apply_op_inv n op :
  node_inv n -> node_typed n -> op_admissible n op -> node_inv (apply_op n op).
Proof.
  destruct op as [job | job]; simpl.
  - apply allocateJob_inv.
  - intros Hinv [Htc Htm] [Hc Hm].
    unfold node_inv, int_range, INT_MIN, INT_MAX in *. simpl.
    unfold int_add. rewrite !wrap_id; unfold int_range, INT_MIN, INT_MAX; lia.
Qed.

Lemma apply_op_typed n op : node_typed n -> node_typed (apply_op n op).
Proof.
  unfold node_typed. destruct (apply_op_totals n op) as (-> & -> & _). done.
Qed.

Lemma run_ops_inv (n : WorkerNode.t) (ops : list NodeOp) :
  node_inv n -> node_typed n -> trace_admissible n ops ->
  forall k : nat, node_inv (run_ops n (take k ops)).
Proof.
  revert n. induction ops as [| op ops IH]; intros n Hinv Hty Hadm k.
  - now rewrite take_nil.
  - destruct k as [| k]; [done |]. destruct Hadm as [Hop Hadm]. simpl.
    apply IH; auto using apply_op_inv, apply_op_typed.
Qed.

(** C2, as the source has it.  On every run of [allocateJob] and
    [freeResources] calls in which no requirement is negative and every
    [freeResources] gives back no more than is in use at that moment, the
    invariant [0 <= available <= total] holds for both resources after
    every call. *)
Theorem node_inv_admissible (n : WorkerNode.t) (ops : list NodeOp) :
  node_inv n -> node_typed n -> trace_admissible n ops ->
  forall k : nat, node_inv (run_ops n (take k ops)).
Proof.
  revert n. induction ops as [| op ops IH]; intros n Hinv Hty Hadm k.
  - rewrite take_nil. exact Hinv.
  - destruct k as [| k]; [exact Hinv |]. destruct Hadm as [Hop Hadm].
    change (node_inv (run_ops (apply_op n op) (take k ops))).
    apply IH; [by apply apply_op_inv | by apply apply_op_typed | exact Hadm].
Qed.

(** The precondition the specification puts on callers is enough: a run
    in which [freeResources] is only called for a job that was allocated
    on this node and not freed since is admissible.  [held] lists the jobs
    the node holds. *)
Fixpoint disciplined (held : list Job.t) (n : WorkerNode.t) (ops : list NodeOp) : Prop :=
  match ops with
  | [] => True
  | AllocateJob job :: ops' =>
      job_nonneg job
      /\ disciplined (if (WorkerNode.allocateJob n job).1 then job :: held else held)
           (WorkerNode.allocateJob n job).2 ops'
  | FreeResources job :: ops' =>
      exists held', held ≡ₚ job :: held'
                    /\ disciplined held' (WorkerNode.freeResources n job) ops'
  end.

Definition total_of (f : Job.t -> Z) (l : list Job.t) : Z :=
  foldr (fun job acc => f job + acc) 0 l.

Lemma total_of_perm f l l' : l ≡ₚ l' -> total_of f l = total_of f l'.
Proof. induction 1; simpl; lia. Qed.

Lemma total_of_nonneg f l : Forall (fun job => 0 <= f job) l -> 0 <= total_of f l.
Proof. induction 1; simpl; lia. Qed.

(** The books balance: what is available plus what the held jobs took
    is the total. *)
Definition accounts (n : WorkerNode.t) (held : list Job.t) : Prop :=
  WorkerNode.availableCores n + total_of Job.coresRequired held = WorkerNode.totalCores n
  /\ WorkerNode.availableMemory n + total_of Job.memoryRequired held = WorkerNode.totalMemory n
  /\ 0 <= WorkerNode.availableCores n /\ 0 <= WorkerNode.availableMemory n
  /\ Forall job_nonneg held.

Lemma disciplined_admissible held n ops :
  accounts n held -> node_typed n -> disciplined held n ops -> trace_admissible n ops.
Proof.
  revert held n. induction ops as [| [job | job] ops IH]; intros held n Hacc Hty Hd; [done | |].
  - destruct Hd as [Hjob Hd]. split; [done |]. simpl.
    eapply IH; [| exact (apply_op_typed n (AllocateJob job) Hty) | exact Hd].
    destruct Hacc as (Hc & Hm & Hac & Ham & Hheld).
    pose proof (total_of_nonneg Job.coresRequired held
                  ltac:(eapply Forall_impl; [exact Hheld | by intros ? []])) as Hsc.
    pose proof (total_of_nonneg Job.memoryRequired held
                  ltac:(eapply Forall_impl; [exact Hheld | by intros ? []])) as Hsm.
    destruct Hty as [Htc Htm], Hjob as [Hjc Hjm].
    destruct (decide (fits n job)) as [Hf | Hf].
    + rewrite (allocateJob_true _ _ Hf). destruct Hf as [Hfc Hfm]. unfold accounts. simpl.
      unfold int_sub, int_range, INT_MIN, INT_MAX in *.
      rewrite !wrap_id by (unfold int_range, INT_MIN, INT_MAX; lia).
      repeat split; try lia. by constructor.
    + rewrite (allocateJob_false _ _ Hf). by repeat split.
  - destruct Hd as (held' & Hperm & Hd).
    destruct Hacc as (Hc & Hm & Hac & Ham & Hheld).
    rewrite (total_of_perm _ _ _ Hperm) in Hc. rewrite (total_of_perm _ _ _ Hperm) in Hm.
    rewrite Hperm in Hheld.
    apply Forall_cons in Hheld as [[Hjc Hjm] Hheld'].
    pose proof (total_of_nonneg Job.coresRequired held'
                  ltac:(eapply Forall_impl; [exact Hheld' | by intros ? []])) as Hsc.
    pose proof (total_of_nonneg Job.memoryRequired held'
                  ltac:(eapply Forall_impl; [exact Hheld' | by intros ? []])) as Hsm.
    simpl in Hc, Hm. split; [simpl; lia |]. simpl.
    eapply IH; [| exact (apply_op_typed n (FreeResources job) Hty) | exact Hd].
    destruct Hty as [Htc Htm]. unfold accounts. simpl.
    unfold int_add, int_range, INT_MIN, INT_MAX in *.
    rewrite !wrap_id by (unfold int_range, INT_MIN, INT_MAX; lia).
    repeat split; try lia. done.
Qed.

Corollary node_inv_disciplined (n : WorkerNode.t) (ops : list NodeOp) :
  node_inv n -> node_typed n ->
  WorkerNode.availableCores n = WorkerNode.totalCores n ->
  WorkerNode.availableMemory n = WorkerNode.totalMemory n ->
  disciplined [] n ops ->
  forall k : nat, node_inv (run_ops n (take k ops)).
Proof.
  intros Hinv Hty Ec Em Hd. apply run_ops_inv; [done | done |].
  apply (disciplined_admissible [] n ops); [| done | done].
  destruct Hinv as [Hc Hm]. unfold accounts. simpl. repeat split; try lia. constructor.
Qed.

(** C2, as the claim states it, fails: [freeResources] has no check
    against the totals, so freeing a one-core job on a node that holds
    nothing leaves 25 of 24 cores available. *)
Lemma node_inv_freeResources_counterexample :
  node_inv (WorkerNode.make 0)
  /\ ~ node_inv (run_ops (WorkerNode.make 0) [FreeResources (Job.make 1 1 1 1 1)]).
Proof. split; [vm_compute; intuition discriminate |]. vm_compute. intuition. Qed.

(** ** Scheduler::allocateJobToNode: first fit *)

Lemma allocateJobToNode_from_first (ns : list WorkerNode.t) job (i : nat) n :
  ns !! i = Some n -> fits n job ->
  (forall (k : nat) n', (k < i)%nat -> ns !! k = Some n' -> ~ fits n' job) ->
  Scheduler.allocateJobToNode_from ns job =
    (<[i := (WorkerNode.allocateJob n job).2]> ns, Some (WorkerNode.id n)).
Proof.
  revert i. induction ns as [| node rest IH]; intros i Hi Hf Hbefore; [done |].
  destruct i as [| i]; simpl in *.
  - injection Hi as ->. rewrite (allocateJob_true _ _ Hf). reflexivity.
  - rewrite (allocateJob_false node job) by (apply (Hbefore 0%nat); [lia | done]).
    rewrite (IH i Hi Hf); [reflexivity |].
    intros k n' Hk Hn'. apply (Hbefore (S k)); [lia | done].
Qed.

Lemma allocateJobToNode_from_none (ns : list WorkerNode.t) job :
  Forall (fun n => ~ fits n job) ns ->
  Scheduler.allocateJobToNode_from ns job = (ns, None).
Proof.
  induction 1 as [| node rest Hn _ IH]; [done |].
  simpl. rewrite (allocateJob_false _ _ Hn), IH. reflexivity.
Qed.

(** The first node that fits, if any, found the way a reader of the
    claim would: by position. *)
Lemma first_fit_cases (ns : list WorkerNode.t) job :
  (exists (i : nat) n, ns !! i = Some n /\ fits n job
     /\ forall (k : nat) n', (k < i)%nat -> ns !! k = Some n' -> ~ fits n' job)
  \/ Forall (fun n => ~ fits n job) ns.
Proof.
  induction ns as [| node rest IH]; [right; constructor |].
  destruct (decide (fits node job)) as [Hf | Hf].
  - left. exists 0%nat, node. split; [done |]. split; [done | lia].
  - destruct IH as [(i & n & Hi & Hfi & Hb) | Hall]; [left | right; by constructor].
    exists (S i), n. split; [done |]. split; [done |].
    intros [| k] n' Hk Hn'; simpl in Hn'; [by injection Hn' as <- |].
    apply (Hb k); [lia | done].
Qed.

Lemma allocateJobToNode_fit (s : Scheduler.t) (job : Job.t) (i : nat) (n : WorkerNode.t) :
  Scheduler.nodes s !! i = Some n ->
  fits n job ->
  (forall (k : nat) n', (k < i)%nat -> Scheduler.nodes s !! k = Some n' -> ~ fits n' job) ->
  Scheduler.allocateJobToNode s job =
    (true, job,
     Scheduler.print (Allocated (Job.id job) (WorkerNode.id n))
       (Scheduler.set_nodes (<[i := (WorkerNode.allocateJob n job).2]> (Scheduler.nodes s)) s)).
Proof.
  intros Hi Hf Hbefore. unfold Scheduler.allocateJobToNode.
  rewrite (allocateJobToNode_from_first _ _ _ _ Hi Hf Hbefore). reflexivity.
Qed.

(** C4. The nodes are tried in ascending index order and the job goes to
    the first node [i] that fits it: the call returns [true], reports node
    [i], and the node sequence afterwards differs from the one before at
    index [i] only, where the job's requirements were taken off.  With
    [i = 0]: a job that node 0 admits is placed on node 0 and no later node
    changes. *)
Theorem allocateJobToNode_first_fit
    (s : Scheduler.t) (job : Job.t) (i : nat) (n : WorkerNode.t) :
  Scheduler.nodes s !! i = Some n ->
  fits n job ->
  (forall (k : nat) n', (k < i)%nat -> Scheduler.nodes s !! k = Some n' -> ~ fits n' job) ->
  Scheduler.allocateJobToNode s job =
    (true, job,
     Scheduler.print (Allocated (Job.id job) (WorkerNode.id n))
       (Scheduler.set_nodes (<[i := (WorkerNode.allocateJob n job).2]> (Scheduler.nodes s)) s))
  /\ (forall (k : nat), k <> i ->
        Scheduler.nodes (Scheduler.allocateJobToNode s job).2 !! k = Scheduler.nodes s !! k)
  /\ Scheduler.nodes (Scheduler.allocateJobToNode s job).2 !! i
     = Some (WorkerNode.allocateJob n job).2.
Proof.
  intros Hi Hf Hbefore. rewrite (allocateJobToNode_fit s job i n Hi Hf Hbefore). simpl.
  split; [reflexivity |]. split.
  - intros k Hk. by apply list_lookup_insert_ne.
  - apply list_lookup_insert_eq. by eapply lookup_lt_Some.
Qed.

Lemma allocateJobToNode_no_fit (s : Scheduler.t) (job : Job.t) :
  Forall (fun n => ~ fits n job) (Scheduler.nodes s) ->
  Scheduler.allocateJobToNode s job =
    (false, job, Scheduler.print (NotAllocated (Job.id job)) s).
Proof.
  intros H. unfold Scheduler.allocateJobToNode.
  rewrite (allocateJobToNode_from_none _ _ H). by destruct s.
Qed.

(** The two node capacities of the first-fit example of the
    specification. *)
Definition node_with (i cores memory : Z) : WorkerNode.t :=
  {| WorkerNode.id := i; WorkerNode.totalCores := cores; WorkerNode.totalMemory := memory;
     WorkerNode.availableCores := cores; WorkerNode.availableMemory := memory |}.

Definition scheduler_with (ns : list WorkerNode.t) : Scheduler.t :=
  Scheduler.set_nodes ns (Scheduler.make 0).

Example first_fit_example :
  let s := scheduler_with [node_with 0 10 10; node_with 1 100 100] in
  let '(r, _, s') := Scheduler.allocateJobToNode s (Job.make 7 0 5 5 1) in
  r = true
  /\ Scheduler.cout s' = [Allocated 7 0]
  /\ map WorkerNode.availableCores (Scheduler.nodes s') = [5; 100]
  /\ map WorkerNode.availableMemory (Scheduler.nodes s') = [5; 100].
Proof. vm_compute. done. Qed.

(** ** The heap of a priority queue *)

Section Heap.
Context {T : Type} (comp : T -> T -> bool).

Local Abbreviation __push_heap := (priority_queue.__push_heap comp).
Local Abbreviation __adjust_heap_loop := (priority_queue.__adjust_heap_loop comp).
Local Abbreviation __adjust_heap := (priority_queue.__adjust_heap comp).
Local Abbreviation push := (priority_queue.push comp).
Local Abbreviation pop := (priority_queue.pop comp).
Local Abbreviation pop_all := (priority_queue.pop_all comp).
Local Abbreviation top := priority_queue.top.

Lemma parent_le (i : nat) : ((i - 1) / 2 <= i)%nat.
Proof. pose proof (Nat.div_mod_eq (i - 1) 2). lia. Qed.

Lemma parent_children (i h : nat) :
  (0 < i)%nat -> ((i - 1) / 2)%nat = h <-> i = (2 * h + 1)%nat \/ i = (2 * h + 2)%nat.
Proof.
  intros. pose proof (Nat.div_mod_eq (i - 1) 2).
  pose proof (Nat.mod_upper_bound (i - 1) 2 ltac:(lia)). lia.
Qed.

(** Storing [x] where [p] was and [p] elsewhere moves elements around;
    none is lost. *)
Lemma insert_cons_perm (c : list T) (j : nat) p x :
  c !! j = Some p -> p :: <[j := x]> c ≡ₚ x :: c.
Proof.
  revert j. induction c as [| a c IH]; intros [| j] H; simplify_eq/=.
  - apply Permutation_swap.
  - rewrite (Permutation_swap a p), (IH j H). apply Permutation_swap.
Qed.

Lemma insert_swap_perm (c : list T) (i j : nat) q p x :
  i <> j -> c !! i = Some q -> c !! j = Some p ->
  <[j := x]> (<[i := p]> c) ≡ₚ <[i := x]> c.
Proof.
  intros Hne Hi Hj.
  assert (H1 : p :: <[j := x]> (<[i := p]> c) ≡ₚ x :: <[i := p]> c).
  { apply insert_cons_perm. by rewrite list_lookup_insert_ne. }
  pose proof (insert_cons_perm c i q p Hi) as H2.
  pose proof (insert_cons_perm c i q x Hi) as H3.
  apply (Permutation_cons_inv (a := q)), (Permutation_cons_inv (a := p)).
  rewrite (Permutation_swap q p), H1, (Permutation_swap x q), H2.
  rewrite H3. apply Permutation_swap.
Qed.

Lemma push_heap_perm c h t x :
  (h < length c)%nat -> __push_heap c h t x ≡ₚ <[h := x]> c.
Proof.
  revert c. induction h as [h IH] using lt_wf_ind. intros c Hlen.
  rewrite priority_queue.push_heap_eq. destruct (decide _) as [Hgt |]; [| done].
  destruct (c !! _) as [p |] eqn:Hp; [| done].
  destruct (comp p x); [| done].
  assert (Hlt : ((h - 1) / 2 < h)%nat) by (apply priority_queue.parent_lt; lia).
  rewrite IH; [| done | rewrite length_insert; lia].
  destruct (lookup_lt_is_Some_2 c h Hlen) as [q Hq].
  apply (insert_swap_perm c h _ q p x); [lia | done | done].
Qed.

(** The elements behind the heap stay where they are. *)
Lemma push_heap_app c tl h t x :
  (h < length c)%nat -> __push_heap (c ++ tl) h t x = __push_heap c h t x ++ tl.
Proof.
  revert c. induction h as [h IH] using lt_wf_ind. intros c Hlen.
  rewrite (priority_queue.push_heap_eq comp (c ++ tl)), (priority_queue.push_heap_eq comp c).
  pose proof (parent_le h).
  rewrite lookup_app_l by lia.
  destruct (decide _) as [Hgt |]; [| by rewrite insert_app_l].
  destruct (c !! _) as [p |] eqn:Hp; [| by rewrite insert_app_l].
  destruct (comp p x); [| by rewrite insert_app_l].
  rewrite insert_app_l by done. apply IH; [apply priority_queue.parent_lt; lia |].
  rewrite length_insert. lia.
Qed.

(** What every iteration of the loop of [__adjust_heap] keeps, the loop
    keeps; and it stops at a hole that has no two children. *)
Lemma adjust_loop_inv (P : list T -> nat -> Prop) (len : nat) :
  (forall c h, P c h -> (len <= length c)%nat) ->
  (forall c h l r,
      P c h -> (h < (len - 1) / 2)%nat ->
      c !! (2 * h + 1)%nat = Some l -> c !! (2 * h + 2)%nat = Some r ->
      if comp r l then P (<[h := l]> c) (2 * h + 1)%nat
      else P (<[h := r]> c) (2 * h + 2)%nat) ->
  forall c h,
    P c h ->
    exists c1 h1,
      __adjust_heap_loop c h h len = (c1, h1, h1)
      /\ P c1 h1 /\ ~ (h1 < (len - 1) / 2)%nat.
Proof.
  intros Hlen Hstep c h. remember (len - h)%nat as n eqn:Hn.
  revert c h Hn. induction n as [n IH] using lt_wf_ind. intros c h -> HP.
  rewrite priority_queue.adjust_loop_eq.
  destruct (decide _) as [Hlt | Hge]; [| by exists c, h].
  pose proof (Hlen c h HP) as Hc.
  pose proof (Nat.div_mod_eq (len - 1) 2) as Hd.
  replace (2 * (h + 1) - 1)%nat with (2 * h + 1)%nat by lia.
  replace (2 * (h + 1))%nat with (2 * h + 2)%nat by lia.
  destruct (lookup_lt_is_Some_2 c (2 * h + 1)%nat ltac:(lia)) as [l Hl].
  destruct (lookup_lt_is_Some_2 c (2 * h + 2)%nat ltac:(lia)) as [r Hr].
  rewrite Hl, Hr. pose proof (Hstep c h l r HP Hlt Hl Hr) as HP'.
  destruct (comp r l).
  - apply (IH (len - (2 * h + 1))%nat); [lia | done | done].
  - apply (IH (len - (2 * h + 2))%nat); [lia | done | done].
Qed.

Lemma adjust_loop_app c tl h :
  (h < length c)%nat ->
  exists c1 h1,
    __adjust_heap_loop c h h (length c) = (c1, h1, h1)
    /\ __adjust_heap_loop (c ++ tl) h h (length c) = (c1 ++ tl, h1, h1)
    /\ length c1 = length c /\ (h1 < length c)%nat.
Proof.
  intros Hh.
  destruct (adjust_loop_inv
              (fun c' h' =>
                 length c' = length c /\ (h' < length c)%nat
                 /\ __adjust_heap_loop (c' ++ tl) h' h' (length c)
                    = __adjust_heap_loop (c ++ tl) h h (length c))
              (length c)) with (c := c) (h := h)
    as (c1 & h1 & E & (Hl & Hh1 & Happ) & Hend).
  - intros c' h' (H & _). lia.
  - intros c' h' l r (Hl & Hh' & Happ) Hlt Hl' Hr'.
    rewrite <- Happ, (priority_queue.adjust_loop_eq comp (c' ++ tl) h' h').
    destruct (decide _) as [_ | ?]; [| done].
    replace (2 * (h' + 1) - 1)%nat with (2 * h' + 1)%nat by lia.
    replace (2 * (h' + 1))%nat with (2 * h' + 2)%nat by lia.
    pose proof (lookup_lt_Some _ _ _ Hl'). pose proof (lookup_lt_Some _ _ _ Hr').
    rewrite !lookup_app_l, Hl', Hr' by lia.
    destruct (comp r l); rewrite length_insert, insert_app_l by lia;
      (split; [done |]); (split; [lia | done]).
  - done.
  - exists c1, h1. split; [done |]. split; [| done].
    rewrite <- Happ, priority_queue.adjust_loop_eq. by destruct (decide _).
Qed.

(** [__adjust_heap] on a whole vector moves the hole down to a position
    without children, each time taking up a child that [comp] does not
    place below its sibling, and ends with the [__push_heap] of the value
    from there. *)
Lemma adjust_heap_inv (P : list T -> nat -> Prop) (x : T) (n : nat) :
  (forall c h, P c h -> length c = n) ->
  (forall c h m y,
      P c h -> c !! m = Some y ->
      (m = (2 * h + 1)%nat /\ forall r, c !! (2 * h + 2)%nat = Some r -> comp r y = true)
      \/ (m = (2 * h + 2)%nat /\ forall l, c !! (2 * h + 1)%nat = Some l -> comp y l = false) ->
      P (<[h := y]> c) m) ->
  forall c h,
    P c h -> (h < n)%nat ->
    exists c2 h2,
      __adjust_heap c h n x = __push_heap c2 h2 h x
      /\ P c2 h2 /\ (n <= 2 * h2 + 1)%nat /\ (h2 < n)%nat.
Proof.
  intros Hlen Hstep c h HP Hh.
  destruct (adjust_loop_inv (fun c' h' => P c' h' /\ (h' < n)%nat) n)
    with (c := c) (h := h) as (c1 & h1 & E & (HP1 & Hh1) & Hend).
  - intros c' h' [H _]. rewrite (Hlen _ _ H). lia.
  - intros c' h' l r [HP' Hh'] Hlt Hl Hr.
    pose proof (lookup_lt_Some _ _ _ Hl) as Hl1. pose proof (lookup_lt_Some _ _ _ Hr) as Hr1.
    rewrite (Hlen _ _ HP') in Hl1, Hr1.
    destruct (comp r l) eqn:Hc; (split; [| lia]).
    + apply Hstep; [done | done |]. left. split; [done |]. intros r' Hr'. congruence.
    + apply Hstep; [done | done |]. right. split; [done |]. intros l' Hl'. congruence.
  - done.
  - unfold priority_queue.__adjust_heap. rewrite E.
    pose proof (Hlen _ _ HP1) as Hn.
    pose proof (Nat.div_mod_eq (n - 1) 2). pose proof (Nat.div_mod_eq (n - 2) 2).
    pose proof (Nat.div_mod_eq n 2).
    pose proof (Nat.mod_upper_bound (n - 1) 2 ltac:(lia)).
    pose proof (Nat.mod_upper_bound (n - 2) 2 ltac:(lia)).
    pose proof (Nat.mod_upper_bound n 2 ltac:(lia)).
    destruct ((n mod 2 =? 0)%nat && (h1 =? (n - 2) / 2)%nat) eqn:Hif.
    + apply andb_true_iff in Hif as [He Hq].
      apply Nat.eqb_eq in He, Hq.
      replace (2 * (h1 + 1) - 1)%nat with (2 * h1 + 1)%nat by lia.
      destruct (lookup_lt_is_Some_2 c1 (2 * h1 + 1)%nat ltac:(lia)) as [l Hl].
      rewrite Hl. exists (<[h1 := l]> c1), (2 * h1 + 1)%nat.
      split; [done |]. split; [| lia].
      apply Hstep; [done | done |]. left. split; [done |].
      intros r Hr. apply lookup_lt_Some in Hr. lia.
    + exists c1, h1. split; [done |]. split; [done |]. split; [| done].
      apply andb_false_iff in Hif as [He | Hq].
      * apply Nat.eqb_neq in He. lia.
      * apply Nat.eqb_neq in Hq. lia.
Qed.

Lemma adjust_heap_perm c h x :
  (h < length c)%nat -> __adjust_heap c h (length c) x ≡ₚ <[h := x]> c.
Proof.
  intros Hh.
  destruct (adjust_heap_inv
              (fun c' h' =>
                 length c' = length c /\ (h' < length c)%nat
                 /\ forall x, <[h' := x]> c' ≡ₚ <[h := x]> c) x (length c))
    with (c := c) (h := h) as (c2 & h2 & -> & (Hl & Hh2 & Hperm) & _).
  - by intros c' h' (? & _).
  - intros c' h' m y (Hl & Hh' & Hperm) Hy Hm.
    pose proof (lookup_lt_Some _ _ _ Hy).
    rewrite length_insert. split; [done |]. split; [lia |]. intros x'.
    destruct (lookup_lt_is_Some_2 c' h' ltac:(lia)) as [q Hq].
    rewrite (insert_swap_perm c' h' m q y x'); [done | | done | done].
    destruct Hm as [[-> _] | [-> _]]; lia.
  - done.
  - done.
  - rewrite push_heap_perm by lia. apply Hperm.
Qed.

Lemma adjust_heap_app c tl h x :
  (h < length c)%nat ->
  __adjust_heap (c ++ tl) h (length c) x = __adjust_heap c h (length c) x ++ tl.
Proof.
  intros Hh. destruct (adjust_loop_app c tl h Hh) as (c1 & h1 & E1 & E2 & Hl & Hh1).
  unfold priority_queue.__adjust_heap. rewrite E1, E2.
  pose proof (Nat.div_mod_eq (length c - 2) 2). pose proof (Nat.div_mod_eq (length c) 2).
  destruct ((length c mod 2 =? 0)%nat && (h1 =? (length c - 2) / 2)%nat) eqn:Hif.
  - apply andb_true_iff in Hif as [He Hq]. apply Nat.eqb_eq in He, Hq.
    rewrite lookup_app_l by lia.
    destruct (c1 !! _) as [l |].
    + rewrite insert_app_l by lia. apply push_heap_app. rewrite length_insert. lia.
    + apply push_heap_app. lia.
  - apply push_heap_app. lia.
Qed.

(** [push] and [pop] in terms of the two heap functions. *)
Lemma push_eq x c : push x c = __push_heap (c ++ [x]) (length c) 0 x.
Proof.
  unfold priority_queue.push, priority_queue.push_heap.
  rewrite last_snoc, length_app. simpl.
  by replace (length c + 1 - 1)%nat with (length c) by lia.
Qed.

Lemma pop_snoc c z : c <> [] -> pop (c ++ [z]) = __adjust_heap c 0 (length c) z.
Proof.
  intros Hc.
  assert (Hlen : (0 < length c)%nat) by (destruct c; [done | simpl; lia]).
  destruct (lookup_lt_is_Some_2 c 0%nat Hlen) as [a Ha].
  unfold priority_queue.pop, priority_queue.pop_heap. rewrite length_app. simpl length.
  destruct (decide _) as [_ | ?]; [| lia].
  unfold priority_queue.__pop_heap.
  replace (length c + 1 - 1)%nat with (length c) by lia.
  rewrite lookup_app_r by done. rewrite Nat.sub_diag. simpl lookup.
  rewrite lookup_app_l, Ha by done.
  rewrite insert_app_r_alt by done. rewrite Nat.sub_diag. simpl insert.
  rewrite adjust_heap_app by done. apply removelast_last.
Qed.

(** [push] adds its argument and nothing else; [pop] removes what [top]
    returns and nothing else. *)
Lemma push_perm x c : push x c ≡ₚ x :: c.
Proof.
  rewrite push_eq, push_heap_perm by (rewrite length_app; simpl; lia).
  rewrite insert_app_r_alt by lia. rewrite Nat.sub_diag. simpl.
  by rewrite Permutation_app_comm.
Qed.

Lemma pop_perm x c : top c = Some x -> x :: pop c ≡ₚ c.
Proof.
  intros Htop. destruct c as [| a c]; [done |]. injection Htop as ->.
  destruct c as [| b c]; [done |].
  destruct (exists_last (l := b :: c) ltac:(done)) as (c' & z & E).
  rewrite E, app_comm_cons, pop_snoc by done.
  rewrite adjust_heap_perm by (simpl; lia). simpl.
  by rewrite Permutation_app_comm.
Qed.

Lemma pop_all_top x c : top c = Some x -> pop_all c = x :: pop_all (pop c).
Proof.
  intros H. rewrite priority_queue.pop_all_equation_1.
  destruct (inspect (top c)) as [[y |] Hy]; simp pop_all; [| congruence].
  rewrite <- ?priority_queue.pop_all_equation_1. congruence.
Qed.

Lemma pop_all_nil : pop_all [] = [].
Proof. by rewrite priority_queue.pop_all_equation_1. Qed.

(** A queue hands out exactly the elements it holds. *)
Lemma pop_all_perm c : pop_all c ≡ₚ c.
Proof.
  remember (length c) as n eqn:Hn. revert c Hn.
  induction n as [n IH] using lt_wf_ind. intros c ->.
  destruct (top c) as [x |] eqn:Htop.
  - rewrite (pop_all_top x c Htop).
    rewrite (IH _ (priority_queue.pop_length comp x c Htop) (pop c) eq_refl).
    by apply pop_perm.
  - destruct c; [| done]. by rewrite pop_all_nil.
Qed.

End Heap.

(** ** The drain loops *)

Lemma place_or_defer_set_FCFS q s job :
  Scheduler.place_or_defer (Scheduler.set_jobQueueFCFS q s) job =
  Scheduler.set_jobQueueFCFS q (Scheduler.place_or_defer s job).
Proof.
  unfold Scheduler.place_or_defer, Scheduler.allocateJobToNode. simpl.
  destruct (Scheduler.allocateJobToNode_from _ _) as [ns' [i |]]; reflexivity.
Qed.

Lemma place_or_defer_set_Smallest q s job :
  Scheduler.place_or_defer (Scheduler.set_jobQueueSmallest q s) job =
  Scheduler.set_jobQueueSmallest q (Scheduler.place_or_defer s job).
Proof.
  unfold Scheduler.place_or_defer, Scheduler.allocateJobToNode. simpl.
  destruct (Scheduler.allocateJobToNode_from _ _) as [ns' [i |]]; reflexivity.
Qed.

Lemma place_or_defer_set_Shortest q s job :
  Scheduler.place_or_defer (Scheduler.set_jobQueueShortest q s) job =
  Scheduler.set_jobQueueShortest q (Scheduler.place_or_defer s job).
Proof.
  unfold Scheduler.place_or_defer, Scheduler.allocateJobToNode. simpl.
  destruct (Scheduler.allocateJobToNode_from _ _) as [ns' [i |]]; reflexivity.
Qed.

(** Offering the jobs of [q] one after the other, front first. *)
Definition settle (q : list Job.t) (s : Scheduler.t) : Scheduler.t :=
  fold_left Scheduler.place_or_defer q s.

Lemma settle_set_FCFS q0 q s :
  settle q (Scheduler.set_jobQueueFCFS q0 s) = Scheduler.set_jobQueueFCFS q0 (settle q s).
Proof.
  unfold settle. revert s. induction q as [| job q IH]; intros s; [done |].
  simpl. by rewrite place_or_defer_set_FCFS, IH.
Qed.

Lemma settle_set_Smallest q0 q s :
  settle q (Scheduler.set_jobQueueSmallest q0 s) = Scheduler.set_jobQueueSmallest q0 (settle q s).
Proof.
  unfold settle. revert s. induction q as [| job q IH]; intros s; [done |].
  simpl. by rewrite place_or_defer_set_Smallest, IH.
Qed.

Lemma settle_set_Shortest q0 q s :
  settle q (Scheduler.set_jobQueueShortest q0 s) = Scheduler.set_jobQueueShortest q0 (settle q s).
Proof.
  unfold settle. revert s. induction q as [| job q IH]; intros s; [done |].
  simpl. by rewrite place_or_defer_set_Shortest, IH.
Qed.

(** Each drain loop offers the jobs of its queue in the order the queue
    hands them out, and leaves the queue empty. *)
Lemma scheduleJobsFCFS_settle s :
  Scheduler.scheduleJobsFCFS s =
  Scheduler.set_jobQueueFCFS [] (settle (Scheduler.jobQueueFCFS s) s).
Proof.
  funelim (Scheduler.scheduleJobsFCFS s).
  - rewrite H. clear H Heqcall H0.
    rewrite place_or_defer_set_FCFS. simpl.
    destruct (Scheduler.jobQueueFCFS s) as [| j q]; [discriminate |].
    injection Hfront as ->. simpl.
    fold (settle q (Scheduler.set_jobQueueFCFS q (Scheduler.place_or_defer s job))).
    rewrite settle_set_FCFS. reflexivity.
  - destruct s as [ns [| j q] qs qd p out]; [reflexivity | discriminate].
Qed.

Lemma scheduleJobsSmallest_settle s :
  Scheduler.scheduleJobsSmallest s =
  Scheduler.set_jobQueueSmallest []
    (settle (priority_queue.pop_all SmallestJobFirst (Scheduler.jobQueueSmallest s)) s).
Proof.
  funelim (Scheduler.scheduleJobsSmallest s).
  - rewrite H. clear H Heqcall H0.
    rewrite place_or_defer_set_Smallest. simpl.
    rewrite (pop_all_top SmallestJobFirst job _ Htop). simpl.
    by rewrite settle_set_Smallest.
  - destruct s as [ns qf [| j q] qd p out]; [| discriminate].
    simpl. by rewrite pop_all_nil.
Qed.

Lemma scheduleJobsShortest_settle s :
  Scheduler.scheduleJobsShortest s =
  Scheduler.set_jobQueueShortest []
    (settle (priority_queue.pop_all ShortestDurationFirst (Scheduler.jobQueueShortest s)) s).
Proof.
  funelim (Scheduler.scheduleJobsShortest s).
  - rewrite H. clear H Heqcall H0.
    rewrite place_or_defer_set_Shortest. simpl.
    rewrite (pop_all_top ShortestDurationFirst job _ Htop). simpl.
    by rewrite settle_set_Shortest.
  - destruct s as [ns qf qs [| j q] p out]; [| discriminate].
    simpl. by rewrite pop_all_nil.
Qed.

(** What a drain can change besides its queue: the nodes, the pending
    sequence and the console. *)
Definition pool : Type := list WorkerNode.t * list Job.t * list Event.

Definition pool_of (s : Scheduler.t) : pool :=
  (Scheduler.nodes s, Scheduler.pendingJobs s, Scheduler.cout s).

(** [settles p q p']: offering the jobs of [q] front first takes the pool
    from [p] to [p'], each job either placed on the first node that fits
    it (that node alone changes) or appended as it is to the pending
    sequence when no node fits. *)
Inductive settles : pool -> list Job.t -> pool -> Prop :=
| settles_nil p : settles p [] p
| settles_placed ns pend out job q (i : nat) n p' :
    ns !! i = Some n ->
    fits n job ->
    (forall (k : nat) n', (k < i)%nat -> ns !! k = Some n' -> ~ fits n' job) ->
    settles (<[i := (WorkerNode.allocateJob n job).2]> ns, pend,
             out ++ [Allocated (Job.id job) (WorkerNode.id n)]) q p' ->
    settles (ns, pend, out) (job :: q) p'
| settles_deferred ns pend out job q p' :
    Forall (fun n => ~ fits n job) ns ->
    settles (ns, pend ++ [job], out ++ [NotAllocated (Job.id job)]) q p' ->
    settles (ns, pend, out) (job :: q) p'.

(** A drain that never looks at the pending sequence: with another
    pending sequence it places the same jobs on the same nodes, prints the
    same lines and appends the same jobs. *)
Definition ignores_pending (drain : Scheduler.t -> Scheduler.t) : Prop :=
  forall s p,
    Scheduler.nodes (drain (Scheduler.set_pendingJobs p s)) = Scheduler.nodes (drain s)
    /\ Scheduler.cout (drain (Scheduler.set_pendingJobs p s)) = Scheduler.cout (drain s)
    /\ exists d,
         Scheduler.pendingJobs (drain s) = Scheduler.pendingJobs s ++ d
         /\ Scheduler.pendingJobs (drain (Scheduler.set_pendingJobs p s)) = p ++ d.

Lemma place_or_defer_cases s job :
  (exists (i : nat) n,
      Scheduler.nodes s !! i = Some n /\ fits n job
      /\ (forall (k : nat) n', (k < i)%nat -> Scheduler.nodes s !! k = Some n' -> ~ fits n' job)
      /\ Scheduler.place_or_defer s job =
           Scheduler.print (Allocated (Job.id job) (WorkerNode.id n))
             (Scheduler.set_nodes
                (<[i := (WorkerNode.allocateJob n job).2]> (Scheduler.nodes s)) s))
  \/ (Forall (fun n => ~ fits n job) (Scheduler.nodes s)
      /\ Scheduler.place_or_defer s job =
           Scheduler.set_pendingJobs (Scheduler.pendingJobs s ++ [job])
             (Scheduler.print (NotAllocated (Job.id job)) s)).
Proof.
  unfold Scheduler.place_or_defer.
  destruct (first_fit_cases (Scheduler.nodes s) job) as [(i & n & Hi & Hf & Hb) | Hnone].
  - left. exists i, n. rewrite (allocateJobToNode_fit _ _ _ _ Hi Hf Hb). done.
  - right. rewrite (allocateJobToNode_no_fit _ _ Hnone). done.
Qed.

Lemma settle_settles q s : settles (pool_of s) q (pool_of (settle q s)).
Proof.
  revert s. induction q as [| job q IH]; intros s; [constructor |].
  unfold settle. simpl. fold (settle q (Scheduler.place_or_defer s job)).
  specialize (IH (Scheduler.place_or_defer s job)).
  destruct (place_or_defer_cases s job) as [(i & n & Hi & Hf & Hb & Heq) | [Hnone Heq]];
    rewrite Heq in IH |- *.
  - eapply settles_placed; eauto.
  - eapply settles_deferred; eauto.
Qed.

Lemma place_or_defer_set_pending p s job :
  Scheduler.nodes (Scheduler.place_or_defer (Scheduler.set_pendingJobs p s) job)
    = Scheduler.nodes (Scheduler.place_or_defer s job)
  /\ Scheduler.cout (Scheduler.place_or_defer (Scheduler.set_pendingJobs p s) job)
    = Scheduler.cout (Scheduler.place_or_defer s job)
  /\ exists d,
       Scheduler.pendingJobs (Scheduler.place_or_defer s job) = Scheduler.pendingJobs s ++ d
       /\ Scheduler.place_or_defer (Scheduler.set_pendingJobs p s) job
          = Scheduler.set_pendingJobs (p ++ d) (Scheduler.place_or_defer s job).
Proof.
  unfold Scheduler.place_or_defer, Scheduler.allocateJobToNode. simpl.
  destruct (Scheduler.allocateJobToNode_from _ _) as [ns' [i |]]; simpl.
  - do 2 (split; [done |]). exists []. by rewrite !app_nil_r.
  - do 2 (split; [done |]). by exists [job].
Qed.

Lemma settle_set_pending q p s :
  exists d,
    Scheduler.pendingJobs (settle q s) = Scheduler.pendingJobs s ++ d
    /\ settle q (Scheduler.set_pendingJobs p s)
       = Scheduler.set_pendingJobs (p ++ d) (settle q s).
Proof.
  revert p s. induction q as [| job q IH]; intros p s.
  - exists []. rewrite !app_nil_r. split; [done |]. by destruct s.
  - unfold settle. simpl. fold (settle q (Scheduler.place_or_defer s job)).
    fold (settle q (Scheduler.place_or_defer (Scheduler.set_pendingJobs p s) job)).
    destruct (place_or_defer_set_pending p s job) as (_ & _ & d1 & Hd1 & ->).
    set (s1 := Scheduler.place_or_defer s job) in *.
    destruct (IH (p ++ d1) s1) as (d2 & Hd2 & Hs).
    exists (d1 ++ d2). rewrite Hs, Hd2, Hd1, <- !app_assoc. done.
Qed.

Lemma settle_queues q s :
  Scheduler.jobQueueFCFS (settle q s) = Scheduler.jobQueueFCFS s
  /\ Scheduler.jobQueueSmallest (settle q s) = Scheduler.jobQueueSmallest s
  /\ Scheduler.jobQueueShortest (settle q s) = Scheduler.jobQueueShortest s.
Proof.
  revert s. induction q as [| job q IH]; intros s; [done |].
  unfold settle. simpl. fold (settle q (Scheduler.place_or_defer s job)).
  destruct (IH (Scheduler.place_or_defer s job)) as (-> & -> & ->).
  apply Scheduler.place_or_defer_queues.
Qed.

Lemma ignores_pending_drain (queue : Scheduler.t -> list Job.t)
    (set_queue : list Job.t -> Scheduler.t -> Scheduler.t) (drain : Scheduler.t -> Scheduler.t) :
  (forall s, drain s = set_queue [] (settle (queue s) s)) ->
  (forall p s, queue (Scheduler.set_pendingJobs p s) = queue s) ->
  (forall q s, Scheduler.nodes (set_queue q s) = Scheduler.nodes s
               /\ Scheduler.cout (set_queue q s) = Scheduler.cout s
               /\ Scheduler.pendingJobs (set_queue q s) = Scheduler.pendingJobs s) ->
  ignores_pending drain.
Proof.
  intros Hdrain Hqueue Hset s p. rewrite !Hdrain, Hqueue.
  destruct (settle_set_pending (queue s) p s) as (d & Hd & ->).
  destruct (Hset [] (settle (queue s) s)) as (-> & -> & ->).
  destruct (Hset [] (Scheduler.set_pendingJobs (p ++ d) (settle (queue s) s)))
    as (-> & -> & ->).
  simpl. eauto.
Qed.

(** C5. Every drain is a total function that leaves its own queue empty
    and the two other queues as they were; it offers exactly the jobs of
    its queue, in the order the queue hands them out, each one either
    placed on one node or appended unchanged to the pending sequence; and
    it never reads the pending sequence, so no pending job is offered
    again. *)
Theorem drains_settle_every_job :
  (forall s,
      Scheduler.jobQueueFCFS (Scheduler.scheduleJobsFCFS s) = []
      /\ Scheduler.jobQueueSmallest (Scheduler.scheduleJobsFCFS s) = Scheduler.jobQueueSmallest s
      /\ Scheduler.jobQueueShortest (Scheduler.scheduleJobsFCFS s) = Scheduler.jobQueueShortest s
      /\ settles (pool_of s) (Scheduler.jobQueueFCFS s)
           (pool_of (Scheduler.scheduleJobsFCFS s)))
  /\ (forall s,
      Scheduler.jobQueueSmallest (Scheduler.scheduleJobsSmallest s) = []
      /\ Scheduler.jobQueueFCFS (Scheduler.scheduleJobsSmallest s) = Scheduler.jobQueueFCFS s
      /\ Scheduler.jobQueueShortest (Scheduler.scheduleJobsSmallest s) = Scheduler.jobQueueShortest s
      /\ settles (pool_of s)
           (priority_queue.pop_all SmallestJobFirst (Scheduler.jobQueueSmallest s))
           (pool_of (Scheduler.scheduleJobsSmallest s)))
  /\ (forall s,
      Scheduler.jobQueueShortest (Scheduler.scheduleJobsShortest s) = []
      /\ Scheduler.jobQueueFCFS (Scheduler.scheduleJobsShortest s) = Scheduler.jobQueueFCFS s
      /\ Scheduler.jobQueueSmallest (Scheduler.scheduleJobsShortest s) = Scheduler.jobQueueSmallest s
      /\ settles (pool_of s)
           (priority_queue.pop_all ShortestDurationFirst (Scheduler.jobQueueShortest s))
           (pool_of (Scheduler.scheduleJobsShortest s)))
  /\ ignores_pending Scheduler.scheduleJobsFCFS
  /\ ignores_pending Scheduler.scheduleJobsSmallest
  /\ ignores_pending Scheduler.scheduleJobsShortest.
Proof.
  repeat apply conj.
  - intros s. rewrite scheduleJobsFCFS_settle.
    destruct (settle_queues (Scheduler.jobQueueFCFS s) s) as (_ & E2 & E3).
    simpl. rewrite E2, E3. do 3 (split; [done |]). apply settle_settles.
  - intros s. rewrite scheduleJobsSmallest_settle.
    destruct (settle_queues
                (priority_queue.pop_all SmallestJobFirst (Scheduler.jobQueueSmallest s)) s)
      as (E1 & _ & E3).
    simpl. rewrite E1, E3. do 3 (split; [done |]). apply settle_settles.
  - intros s. rewrite scheduleJobsShortest_settle.
    destruct (settle_queues
                (priority_queue.pop_all ShortestDurationFirst (Scheduler.jobQueueShortest s)) s)
      as (E1 & E2 & _).
    simpl. rewrite E1, E2. do 3 (split; [done |]). apply settle_settles.
  - apply (ignores_pending_drain Scheduler.jobQueueFCFS Scheduler.set_jobQueueFCFS);
      auto using scheduleJobsFCFS_settle.
  - apply (ignores_pending_drain
             (fun s => priority_queue.pop_all SmallestJobFirst (Scheduler.jobQueueSmallest s))
             Scheduler.set_jobQueueSmallest);
      auto using scheduleJobsSmallest_settle.
  - apply (ignores_pending_drain
             (fun s => priority_queue.pop_all ShortestDurationFirst
                         (Scheduler.jobQueueShortest s))
             Scheduler.set_jobQueueShortest);
      auto using scheduleJobsShortest_settle.
Qed.

(** ** The completed flag *)

(** Every job the scheduler holds: in a queue or pending. *)
Definition jobs_of (s : Scheduler.t) : list Job.t :=
  Scheduler.jobQueueFCFS s ++ Scheduler.jobQueueSmallest s
  ++ Scheduler.jobQueueShortest s ++ Scheduler.pendingJobs s.

Lemma settle_pending_sublist q s :
  exists d, Scheduler.pendingJobs (settle q s) = Scheduler.pendingJobs s ++ d
            /\ sublist d q.
Proof.
  revert s. induction q as [| job q IH]; intros s.
  - exists []. by rewrite app_nil_r.
  - unfold settle. simpl. fold (settle q (Scheduler.place_or_defer s job)).
    destruct (IH (Scheduler.place_or_defer s job)) as (d & -> & Hd).
    destruct (place_or_defer_cases s job) as [(i & n & _ & _ & _ & ->) | [_ ->]]; simpl.
    + exists d. split; [done | by apply sublist_cons].
    + exists (job :: d). rewrite <- app_assoc. split; [done | by apply sublist_skip].
Qed.

Lemma drain_keeps_jobs (queue : Scheduler.t -> list Job.t)
    (set_queue : list Job.t -> Scheduler.t -> Scheduler.t) (drain : Scheduler.t -> Scheduler.t) :
  (forall s, drain s = set_queue [] (settle (queue s) s)) ->
  (forall q s j, j ∈ jobs_of (set_queue q s) -> j ∈ q \/ j ∈ jobs_of s) ->
  (forall s, forall j, j ∈ queue s -> j ∈ jobs_of s) ->
  forall s j, j ∈ jobs_of (drain s) -> j ∈ jobs_of s.
Proof.
  intros Hdrain Hset Hq s j. rewrite Hdrain. intros [Hin | Hin] %Hset; [by inversion Hin |].
  unfold jobs_of in Hin |- *.
  destruct (settle_queues (queue s) s) as (E1 & E2 & E3). rewrite E1, E2, E3 in Hin.
  destruct (settle_pending_sublist (queue s) s) as (d & Ed & Hd). rewrite Ed in Hin.
  rewrite !elem_of_app in Hin. rewrite !elem_of_app.
  destruct Hin as [? | [? | [? | [? | Hin]]]]; auto.
  apply (fun H => elem_of_sublist _ _ _ H Hd), Hq in Hin. unfold jobs_of in Hin.
  by rewrite !elem_of_app in Hin.
Qed.

(** C3, as the source has it.  Nothing writes the [completed] flag: the
    constructor sets it to [false], [allocateJobToNode] leaves the job it
    was given as it was whether it places it or not, and every job the
    scheduler holds after a drain is one it held before, unchanged.  So the
    flag of a placed job stays [false]; it is never set and never reset. *)
Theorem completed_flag_never_written :
  (forall s job, (Scheduler.allocateJobToNode s job).1.2 = job)
  /\ (forall i a c m e, Job.completed (Job.make i a c m e) = false)
  /\ (forall s j,
        j ∈ jobs_of (Scheduler.scheduleJobsFCFS s)
        \/ j ∈ jobs_of (Scheduler.scheduleJobsSmallest s)
        \/ j ∈ jobs_of (Scheduler.scheduleJobsShortest s) ->
        j ∈ jobs_of s).
Proof.
  split; [| split].
  - intros s job. unfold Scheduler.allocateJobToNode.
    by destruct (Scheduler.allocateJobToNode_from _ _) as [ns' [i |]].
  - done.
  - intros s j [H | [H | H]]; revert H.
    + apply (drain_keeps_jobs Scheduler.jobQueueFCFS Scheduler.set_jobQueueFCFS);
        [apply scheduleJobsFCFS_settle | |]; clear; unfold jobs_of; simpl.
      * intros q s j. rewrite !elem_of_app. tauto.
      * intros s j. rewrite !elem_of_app. tauto.
    + apply (drain_keeps_jobs
               (fun s => priority_queue.pop_all SmallestJobFirst (Scheduler.jobQueueSmallest s))
               Scheduler.set_jobQueueSmallest);
        [apply scheduleJobsSmallest_settle | |]; clear; unfold jobs_of; simpl.
      * intros q s j. rewrite !elem_of_app. tauto.
      * intros s j. rewrite pop_all_perm, !elem_of_app. tauto.
    + apply (drain_keeps_jobs
               (fun s => priority_queue.pop_all ShortestDurationFirst
                           (Scheduler.jobQueueShortest s))
               Scheduler.set_jobQueueShortest);
        [apply scheduleJobsShortest_settle | |]; clear; unfold jobs_of; simpl.
      * intros q s j. rewrite !elem_of_app. tauto.
      * intros s j. rewrite pop_all_perm, !elem_of_app. tauto.
Qed.

(** C3, as the claim states it, fails: the one node of this scheduler
    takes the job, and the job's flag is still [false] after the call. *)
Lemma completed_flag_counterexample :
  let r := Scheduler.allocateJobToNode (Scheduler.make 1) (Job.make 1 1 10 32 5) in
  r.1.1 = true
  /\ Scheduler.cout r.2 = [Allocated 1 0]
  /\ Job.completed r.1.2 = false.
Proof. vm_compute. done. Qed.

(** ** Jobs that no node can ever hold *)

Inductive Policy : Type := FCFS | Smallest | Shortest.

#[global] Instance Policy_eq_dec : EqDecision Policy.
Proof. solve_decision. Defined.

Definition schedule (p : Policy) : Scheduler.t -> Scheduler.t :=
  match p with
  | FCFS => Scheduler.scheduleJobsFCFS
  | Smallest => Scheduler.scheduleJobsSmallest
  | Shortest => Scheduler.scheduleJobsShortest
  end.

Definition queue_of (p : Policy) : Scheduler.t -> list Job.t :=
  match p with
  | FCFS => Scheduler.jobQueueFCFS
  | Smallest => Scheduler.jobQueueSmallest
  | Shortest => Scheduler.jobQueueShortest
  end.

(** The drains of [order], invoked one after the other. *)
Definition run_drains (order : list Policy) (s : Scheduler.t) : Scheduler.t :=
  fold_left (fun s p => schedule p s) order s.

(** The job asks for more cores than any node has in total, or for more
    memory than any node has in total. *)
Definition infeasible (ns : list WorkerNode.t) (job : Job.t) : Prop :=
  Forall (fun n => WorkerNode.totalCores n < Job.coresRequired job) ns
  \/ Forall (fun n => WorkerNode.totalMemory n < Job.memoryRequired job) ns.

#[global] Instance infeasible_dec ns job : Decision (infeasible ns job).
Proof. unfold infeasible. apply _. Defined.

(** How often [job] occurs in [l]. *)
Definition copies (job : Job.t) (l : list Job.t) : nat := count_occ Job.eq_dec l job.

Definition nodes_ok (ns : list WorkerNode.t) : Prop :=
  Forall node_inv ns /\ Forall node_typed ns.

Definition same_totals (ns ns' : list WorkerNode.t) : Prop :=
  WorkerNode.totalCores <$> ns' = WorkerNode.totalCores <$> ns
  /\ WorkerNode.totalMemory <$> ns' = WorkerNode.totalMemory <$> ns.

Lemma infeasible_same_totals ns ns' job :
  same_totals ns ns' -> infeasible ns job -> infeasible ns' job.
Proof.
  intros [Hc Hm] [H | H]; [left | right].
  - apply (Forall_fmap WorkerNode.totalCores (fun t => t < Job.coresRequired job)).
    rewrite Hc. by apply Forall_fmap.
  - apply (Forall_fmap WorkerNode.totalMemory (fun t => t < Job.memoryRequired job)).
    rewrite Hm. by apply Forall_fmap.
Qed.

Lemma infeasible_no_fit ns job :
  Forall node_inv ns -> infeasible ns job -> Forall (fun n => ~ fits n job) ns.
Proof.
  intros Hinv [H | H]; rewrite Forall_forall in *; intros n Hn [Hc Hm];
    specialize (Hinv n Hn); specialize (H n Hn); unfold node_inv in Hinv; lia.
Qed.

Lemma place_or_defer_nodes_ok s job :
  nodes_ok (Scheduler.nodes s) -> job_nonneg job ->
  nodes_ok (Scheduler.nodes (Scheduler.place_or_defer s job))
  /\ same_totals (Scheduler.nodes s) (Scheduler.nodes (Scheduler.place_or_defer s job)).
Proof.
  intros [Hinv Hty] Hjob.
  destruct (place_or_defer_cases s job) as [(i & n & Hi & _ & _ & ->) | [_ ->]]; simpl;
    [| done].
  pose proof (Forall_lookup_1 _ _ _ _ Hinv Hi) as Hn.
  pose proof (Forall_lookup_1 _ _ _ _ Hty Hi) as Hnt.
  destruct (apply_op_totals n (AllocateJob job)) as (Ec & Em & _). simpl in Ec, Em.
  split; [split |].
  - apply Forall_insert; [done |]. by apply allocateJob_inv.
  - apply Forall_insert; [done |]. by apply (apply_op_typed n (AllocateJob job)).
  - split; rewrite list_fmap_insert; apply list_insert_id; rewrite list_lookup_fmap, Hi;
      simpl; congruence.
Qed.

Lemma settle_copies q s job :
  nodes_ok (Scheduler.nodes s) -> Forall job_nonneg q -> infeasible (Scheduler.nodes s) job ->
  nodes_ok (Scheduler.nodes (settle q s))
  /\ same_totals (Scheduler.nodes s) (Scheduler.nodes (settle q s))
  /\ copies job (Scheduler.pendingJobs (settle q s))
     = (copies job (Scheduler.pendingJobs s) + copies job q)%nat.
Proof.
  revert s. induction q as [| j q IH]; intros s Hok Hq Hinf.
  - unfold same_totals, copies. simpl. split; [done |]. split; [done | lia].
  - apply Forall_cons in Hq as [Hj Hq].
    unfold settle. simpl. fold (settle q (Scheduler.place_or_defer s j)).
    destruct (place_or_defer_nodes_ok s j Hok Hj) as [Hok1 Hsame1].
    destruct (IH (Scheduler.place_or_defer s j) Hok1 Hq
                (infeasible_same_totals _ _ _ Hsame1 Hinf)) as (Hok2 & Hsame2 & Hcount).
    split; [done |]. split.
    + destruct Hsame1 as [E1 E2], Hsame2 as [E3 E4]. split; congruence.
    + rewrite Hcount. unfold copies.
      destruct (place_or_defer_cases s j) as [(i & n & Hi & Hf & _ & ->) | [_ ->]]; simpl.
      * (* placed: then [j] is not the infeasible job *)
        destruct (Job.eq_dec j job) as [-> | Hne]; [| lia].
        exfalso. destruct Hok as [Hinv _].
        pose proof (infeasible_no_fit _ _ Hinv Hinf) as Hno.
        by apply (Forall_lookup_1 _ _ _ _ Hno Hi).
      * rewrite count_occ_app. simpl. destruct (Job.eq_dec j job); lia.
Qed.

Definition set_queue (p : Policy) : list Job.t -> Scheduler.t -> Scheduler.t :=
  match p with
  | FCFS => Scheduler.set_jobQueueFCFS
  | Smallest => Scheduler.set_jobQueueSmallest
  | Shortest => Scheduler.set_jobQueueShortest
  end.

(** The jobs in the queue of [p], in the order in which the queue hands
    them out: front first for the FCFS queue, [top] after [top] for the
    two priority queues. *)
Definition served (p : Policy) (s : Scheduler.t) : list Job.t :=
  match p with
  | FCFS => Scheduler.jobQueueFCFS s
  | Smallest => priority_queue.pop_all SmallestJobFirst (Scheduler.jobQueueSmallest s)
  | Shortest => priority_queue.pop_all ShortestDurationFirst (Scheduler.jobQueueShortest s)
  end.

Lemma served_perm p s : served p s ≡ₚ queue_of p s.
Proof. destruct p; simpl; [done | apply pop_all_perm | apply pop_all_perm]. Qed.

Lemma schedule_settle p s :
  schedule p s = set_queue p [] (settle (served p s) s).
Proof.
  destruct p; simpl;
    auto using scheduleJobsFCFS_settle, scheduleJobsSmallest_settle, scheduleJobsShortest_settle.
Qed.

Lemma set_queue_pool p q s : pool_of (set_queue p q s) = pool_of s.
Proof. by destruct p. Qed.

Lemma queue_of_set_queue p q s : queue_of p (set_queue p q s) = q.
Proof. by destruct p. Qed.

Lemma queue_of_set_queue_ne p p' q s :
  p' <> p -> queue_of p' (set_queue p q s) = queue_of p' s.
Proof. by destruct p, p'. Qed.

Lemma queue_of_settle p q s : queue_of p (settle q s) = queue_of p s.
Proof. destruct (settle_queues q s) as (? & ? & ?). by destruct p. Qed.

Lemma copies_perm job l l' : l ≡ₚ l' -> copies job l = copies job l'.
Proof. intros H. unfold copies. by apply Permutation_count_occ. Qed.

Lemma schedule_facts p s job :
  nodes_ok (Scheduler.nodes s) -> Forall job_nonneg (queue_of p s) ->
  infeasible (Scheduler.nodes s) job ->
  nodes_ok (Scheduler.nodes (schedule p s))
  /\ same_totals (Scheduler.nodes s) (Scheduler.nodes (schedule p s))
  /\ copies job (Scheduler.pendingJobs (schedule p s))
     = (copies job (Scheduler.pendingJobs s) + copies job (queue_of p s))%nat
  /\ (forall p', p' <> p -> queue_of p' (schedule p s) = queue_of p' s).
Proof.
  intros Hok Hq Hinf. rewrite schedule_settle.
  rewrite <- (served_perm p s) in Hq.
  destruct (settle_copies (served p s) s job Hok Hq Hinf) as (H1 & H2 & H3).
  rewrite (copies_perm job _ _ (served_perm p s)) in H3.
  pose proof (set_queue_pool p [] (settle (served p s) s)) as Hpool.
  injection Hpool as -> -> _.
  do 3 (split; [done |]).
  intros p' Hne. by rewrite queue_of_set_queue_ne, queue_of_settle.
Qed.

Lemma sum_list_with_ext_in {A} (f g : A -> nat) (l : list A) :
  (forall x, x ∈ l -> f x = g x) -> sum_list_with f l = sum_list_with g l.
Proof.
  induction l as [| x l IH]; intros H; [done |]. simpl.
  rewrite (H x), IH; [done | | by left]. intros y Hy. apply H. by right.
Qed.

Lemma run_drains_copies order s job :
  NoDup order ->
  nodes_ok (Scheduler.nodes s) ->
  (forall p, p ∈ order -> Forall job_nonneg (queue_of p s)) ->
  infeasible (Scheduler.nodes s) job ->
  nodes_ok (Scheduler.nodes (run_drains order s))
  /\ same_totals (Scheduler.nodes s) (Scheduler.nodes (run_drains order s))
  /\ copies job (Scheduler.pendingJobs (run_drains order s))
     = (copies job (Scheduler.pendingJobs s)
        + sum_list_with (fun p => copies job (queue_of p s)) order)%nat.
Proof.
  revert s. induction order as [| p order IH]; intros s Hnd Hok Hq Hinf.
  - unfold same_totals. simpl. split; [done |]. split; [done | lia].
  - apply NoDup_cons in Hnd as [Hp Hnd]. simpl.
    fold (run_drains order (schedule p s)).
    destruct (schedule_facts p s job Hok (Hq p ltac:(by left)) Hinf)
      as (Hok1 & Hsame1 & Hcount1 & Hother).
    assert (Hq1 : forall p', p' ∈ order -> queue_of p' (schedule p s) = queue_of p' s).
    { intros p' Hp'. apply Hother. intros ->. done. }
    destruct (IH (schedule p s) Hnd Hok1) as (Hok2 & Hsame2 & Hcount2).
    { intros p' Hp'. rewrite (Hq1 p' Hp'). apply Hq. by right. }
    { by apply (infeasible_same_totals _ _ _ Hsame1). }
    split; [done |]. split.
    + destruct Hsame1 as [E1 E2], Hsame2 as [E3 E4]. split; congruence.
    + rewrite Hcount2, Hcount1.
      rewrite (sum_list_with_ext_in _ (fun p => copies job (queue_of p s)) order); [lia |].
      intros p' Hp'. by rewrite (Hq1 p' Hp').
Qed.

(** C6, as the source has it.  Take a scheduler whose nodes satisfy the
    invariant of the data model and whose queued jobs ask for no negative
    amount, and a job that asks for more cores than every node has in
    total or for more memory than every node has in total.  Whatever the
    order in which the three drains are invoked: every copy of the job
    that was queued is in the pending sequence afterwards (none was lost,
    hence none was placed), the job is pending if it was queued anywhere,
    and between any two drains no node fits it. *)
Theorem infeasible_job_ends_pending
    (s : Scheduler.t) (order : list Policy) (job : Job.t) :
  Forall node_inv (Scheduler.nodes s) ->
  Forall node_typed (Scheduler.nodes s) ->
  Forall job_nonneg
    (Scheduler.jobQueueFCFS s ++ Scheduler.jobQueueSmallest s ++ Scheduler.jobQueueShortest s) ->
  infeasible (Scheduler.nodes s) job ->
  order ≡ₚ [FCFS; Smallest; Shortest] ->
  let s' := run_drains order s in
  copies job (Scheduler.pendingJobs s')
    = (copies job (Scheduler.pendingJobs s)
       + copies job (Scheduler.jobQueueFCFS s)
       + copies job (Scheduler.jobQueueSmallest s)
       + copies job (Scheduler.jobQueueShortest s))%nat
  /\ (job ∈ Scheduler.jobQueueFCFS s ++ Scheduler.jobQueueSmallest s
            ++ Scheduler.jobQueueShortest s ->
      job ∈ Scheduler.pendingJobs s')
  /\ forall k : nat,
       Forall (fun n => ~ fits n job) (Scheduler.nodes (run_drains (take k order) s)).
Proof.
  intros Hinv Hty Hjobs Hinf Hperm s'.
  assert (Hnd : NoDup order).
  { rewrite Hperm. rewrite !NoDup_cons, !not_elem_of_cons.
    repeat split; try discriminate; try apply not_elem_of_nil. apply NoDup_nil_2. }
  assert (Hq : forall p, Forall job_nonneg (queue_of p s)).
  { rewrite !Forall_app in Hjobs. destruct Hjobs as (? & ? & ?). by intros []. }
  assert (Hcount : copies job (Scheduler.pendingJobs s')
    = (copies job (Scheduler.pendingJobs s)
       + copies job (Scheduler.jobQueueFCFS s)
       + copies job (Scheduler.jobQueueSmallest s)
       + copies job (Scheduler.jobQueueShortest s))%nat).
  { subst s'.
    destruct (run_drains_copies order s job Hnd (conj Hinv Hty) (fun p _ => Hq p) Hinf)
      as (_ & _ & ->).
    rewrite Hperm. simpl. lia. }
  split; [done |]. split.
  - intros Hin. apply list_elem_of_In, (count_occ_In Job.eq_dec).
    fold (copies job (Scheduler.pendingJobs s')). rewrite Hcount.
    rewrite !elem_of_app in Hin.
    destruct Hin as [Hin | [Hin | Hin]];
      apply list_elem_of_In, (count_occ_In Job.eq_dec) in Hin; unfold copies; lia.
  - intros k.
    destruct (run_drains_copies (take k order) s job) as ((Hinv' & _) & Hsame & _); auto.
    + eapply sublist_NoDup; [done | apply sublist_take].
    + by split.
    + apply infeasible_no_fit; [done |]. by apply (infeasible_same_totals _ _ _ Hsame).
Qed.

(** C6, as the claim states it, fails: nothing keeps a requirement from
    being negative.  The one node of this scheduler satisfies the
    invariant.  The job that asks for -10 cores is placed on it and leaves
    34 of its 24 cores available; the job that asks for 30 cores, more
    than the node has in total, is then placed on it as well and never
    reaches the pending sequence. *)
Lemma infeasible_job_placed_counterexample :
  let negative := Job.make 1 0 (-10) 1 1 in
  let big := Job.make 2 0 30 1 1 in
  let s :=
    Scheduler.addJobToQueueFCFS
      (Scheduler.addJobToQueueFCFS (Scheduler.make 1) negative) big in
  let s' := run_drains [FCFS; Smallest; Shortest] s in
  infeasible (Scheduler.nodes s) big
  /\ Forall node_inv (Scheduler.nodes s)
  /\ big ∈ Scheduler.jobQueueFCFS s
  /\ Scheduler.cout s' = [Allocated 1 0; Allocated 2 0]
  /\ Scheduler.pendingJobs s' = []
  /\ WorkerNode.availableCores <$> Scheduler.nodes s' = [4].
Proof.
  split; [| split; [| split; [| split; [| split]]]].
  - apply (bool_decide_unpack _). by vm_compute.
  - apply (bool_decide_unpack _). by vm_compute.
  - apply (bool_decide_unpack _). by vm_compute.
  - by vm_compute.
  - by vm_compute.
  - by vm_compute.
Qed.

(** ** The order in which the priority queues hand out jobs *)

Section KeyOrder.
Context {T : Type} (key : T -> Z).

(** A comparator of the shape both comparators of the source have:
    [a] is placed below [b] when its key is greater. *)
Let comp (a b : T) : bool := key a >? key b.

Local Abbreviation parent i := ((i - 1) / 2)%nat.

(** The vector is a heap: no element has a smaller key than its parent. *)
Definition is_heap (c : list T) : Prop :=
  forall (i : nat) a b,
    (0 < i)%nat -> c !! parent i = Some a -> c !! i = Some b -> key a <= key b.

(** A heap but for the hole at [h]: the element in the hole does not
    count, and the elements around it are in order across it. *)
Definition hole_heap (c : list T) (h : nat) : Prop :=
  (forall (i : nat) a b,
      (0 < i)%nat -> i <> h -> parent i <> h ->
      c !! parent i = Some a -> c !! i = Some b -> key a <= key b)
  /\ (forall (i : nat) a b,
        (0 < h)%nat -> (0 < i)%nat -> parent i = h ->
        c !! parent h = Some a -> c !! i = Some b -> key a <= key b).

(** Moving a child with the least key of the children into the hole
    leaves a heap with the hole where the child was. *)
Lemma hole_heap_down c h m y :
  hole_heap c h -> (0 < m)%nat -> parent m = h -> c !! m = Some y ->
  (forall (i : nat) b, (0 < i)%nat -> parent i = h -> c !! i = Some b -> key y <= key b) ->
  hole_heap (<[h := y]> c) m.
Proof.
  intros [HA HB] Hm Hpm Hy Hmin.
  pose proof (lookup_lt_Some _ _ _ Hy) as Hlen.
  pose proof (priority_queue.parent_lt m Hm) as Hhm. rewrite Hpm in Hhm.
  split.
  - intros i a b Hi Him Hpim Ha Hb.
    destruct (decide (i = h)) as [-> | Hih].
    + rewrite list_lookup_insert_eq in Hb by lia. injection Hb as <-.
      pose proof (priority_queue.parent_lt h Hi).
      rewrite list_lookup_insert_ne in Ha by lia.
      by apply (HB m a y).
    + rewrite list_lookup_insert_ne in Hb by done.
      destruct (decide (parent i = h)) as [Hpi | Hpi].
      * rewrite Hpi, list_lookup_insert_eq in Ha by lia. injection Ha as <-.
        by apply (Hmin i).
      * rewrite list_lookup_insert_ne in Ha by done. by apply (HA i).
  - intros i a b _ Hi Hpi Ha Hb.
    pose proof (priority_queue.parent_lt i Hi).
    rewrite Hpm, list_lookup_insert_eq in Ha by lia. injection Ha as <-.
    rewrite list_lookup_insert_ne in Hb by lia.
    apply (HA i); [done | lia | lia | by rewrite Hpi | done].
Qed.

(** [__push_heap] from a hole whose children have keys not below the
    key of the value gives a heap. *)
Lemma push_heap_heap c h x :
  (h < length c)%nat ->
  hole_heap c h ->
  (forall (i : nat) b, (0 < i)%nat -> parent i = h -> c !! i = Some b -> key x <= key b) ->
  is_heap (priority_queue.__push_heap comp c h 0 x).
Proof.
  revert c. induction h as [h IH] using lt_wf_ind. intros c Hlen [HA HB] HC.
  rewrite priority_queue.push_heap_eq.
  assert (Hend : (h = 0%nat \/ exists p, c !! parent h = Some p /\ key p <= key x) ->
                 is_heap (<[h := x]> c)).
  { intros Hp i a b Hi Ha Hb.
    destruct (decide (i = h)) as [-> | Hih].
    - rewrite list_lookup_insert_eq in Hb by lia. injection Hb as <-.
      pose proof (priority_queue.parent_lt h Hi).
      rewrite list_lookup_insert_ne in Ha by lia.
      destruct Hp as [-> | (p & Hp & Hle)]; [lia |]. congruence.
    - rewrite list_lookup_insert_ne in Hb by done.
      destruct (decide (parent i = h)) as [Hpi | Hpi].
      + rewrite Hpi, list_lookup_insert_eq in Ha by lia. injection Ha as <-.
        by apply (HC i).
      + rewrite list_lookup_insert_ne in Ha by done. by apply (HA i). }
  destruct (decide _) as [Hgt | Hz]; [| apply Hend; left; lia].
  pose proof (priority_queue.parent_lt h Hgt) as Hph.
  destruct (lookup_lt_is_Some_2 c (parent h) ltac:(lia)) as [p Hp]. rewrite Hp.
  unfold comp at 1. destruct (key p >? key x) eqn:Hcmp.
  2: { apply Hend. right. exists p. split; [done |]. lia. }
  assert (Hpx : key x < key p) by lia.
  assert (Hsib : forall (i : nat) b,
             (0 < i)%nat -> i <> h -> parent i = parent h -> c !! i = Some b ->
             key p <= key b).
  { intros i b Hi Hih Hpi Hb. apply (HA i); [done | done | lia | by rewrite Hpi | done]. }
  apply IH; [done | rewrite length_insert; lia | split |].
  - intros i a b Hi Hi1 Hi2 Ha Hb.
    destruct (decide (i = h)) as [-> | Hih]; [done |].
    rewrite list_lookup_insert_ne in Hb by done.
    destruct (decide (parent i = h)) as [Hpi | Hpi].
    + rewrite Hpi, list_lookup_insert_eq in Ha by lia. injection Ha as <-.
      by apply (HB i).
    + rewrite list_lookup_insert_ne in Ha by done. by apply (HA i).
  - intros i a b Hh' Hi Hpi Ha Hb.
    pose proof (priority_queue.parent_lt (parent h) Hh').
    rewrite list_lookup_insert_ne in Ha by lia.
    assert (Hap : key a <= key p).
    { apply (HA (parent h)); [done | lia | lia | done | done]. }
    destruct (decide (i = h)) as [-> | Hih].
    + rewrite list_lookup_insert_eq in Hb by lia. by injection Hb as <-.
    + rewrite list_lookup_insert_ne in Hb by done.
      pose proof (Hsib i b Hi Hih Hpi Hb). lia.
  - intros i b Hi Hpi Hb.
    destruct (decide (i = h)) as [-> | Hih].
    + rewrite list_lookup_insert_eq in Hb by lia. injection Hb as <-. lia.
    + rewrite list_lookup_insert_ne in Hb by done.
      pose proof (Hsib i b Hi Hih Hpi Hb). lia.
Qed.


Lemma is_heap_nil : is_heap [].
Proof. intros i a b _ H. done. Qed.

Lemma is_heap_app c tl : is_heap (c ++ tl) -> is_heap c.
Proof.
  intros H i a b Hi Ha Hb. apply (H i); [done | |].
  - rewrite lookup_app_l; [done |]. by apply lookup_lt_Some in Ha.
  - rewrite lookup_app_l; [done |]. by apply lookup_lt_Some in Hb.
Qed.

Lemma is_heap_hole c : is_heap c -> hole_heap c 0.
Proof. intros H. split; [| lia]. intros i a b Hi _ _. by apply H. Qed.

Lemma push_is_heap x c : is_heap c -> is_heap (priority_queue.push comp x c).
Proof.
  intros Hc. rewrite push_eq.
  assert (Hin : forall (i : nat) b,
             (c ++ [x]) !! i = Some b -> i <> length c -> c !! i = Some b).
  { intros i b Hb Hi. apply lookup_lt_Some in Hb as Hlt.
    rewrite length_app in Hlt. simpl in Hlt. rewrite lookup_app_l in Hb by lia. done. }
  assert (Hout : forall (i : nat) b,
             (0 < i)%nat -> parent i = length c -> (c ++ [x]) !! i = Some b -> False).
  { intros i b Hi Hpi Hb. apply lookup_lt_Some in Hb.
    rewrite length_app in Hb. simpl in Hb.
    pose proof (priority_queue.parent_lt i Hi). lia. }
  apply push_heap_heap.
  - rewrite length_app. simpl. lia.
  - split.
    + intros i a b Hi Hne Hpne Ha Hb. apply (Hc i); auto.
    + intros i a b _ Hi Hpi _ Hb. destruct (Hout i b Hi Hpi Hb).
  - intros i b Hi Hpi Hb. destruct (Hout i b Hi Hpi Hb).
Qed.

Lemma adjust_heap_heap c z :
  c <> [] -> is_heap c -> is_heap (priority_queue.__adjust_heap comp c 0 (length c) z).
Proof.
  intros Hne Hc.
  assert (Hlen : (0 < length c)%nat) by (destruct c; [done | simpl; lia]).
  destruct (adjust_heap_inv comp
              (fun c' h' => length c' = length c /\ hole_heap c' h') z (length c))
    with (c := c) (h := 0%nat) as (c2 & h2 & -> & (Hl & Hh) & Hleaf & Hh2).
  - by intros c' h' [? _].
  - intros c' h' m y [Hl Hh] Hy Hm. rewrite length_insert. split; [done |].
    apply hole_heap_down; [done | | | done |].
    + destruct Hm as [[-> _] | [-> _]]; lia.
    + apply parent_children; [| tauto].
      destruct Hm as [[-> _] | [-> _]]; lia.
    + intros i b Hi Hpi Hb. apply parent_children in Hpi; [| done].
      destruct Hm as [[-> Hr] | [-> Hlft]], Hpi as [-> | ->].
      * assert (b = y) as -> by congruence. lia.
      * specialize (Hr b Hb). unfold comp in Hr. lia.
      * specialize (Hlft b Hb). unfold comp in Hlft. lia.
      * assert (b = y) as -> by congruence. lia.
  - split; [done |]. by apply is_heap_hole.
  - done.
  - assert (Hnone : forall (i : nat) b,
               (0 < i)%nat -> parent i = h2 -> c2 !! i = Some b -> False).
    { intros i b Hi Hpi Hb. apply lookup_lt_Some in Hb.
      apply parent_children in Hpi; [| done]. lia. }
    apply push_heap_heap; [lia | done |].
    intros i b Hi Hpi Hb. destruct (Hnone i b Hi Hpi Hb).
Qed.

Lemma pop_is_heap c : is_heap c -> is_heap (priority_queue.pop comp c).
Proof.
  intros Hc. destruct c as [| a c] using rev_ind; [apply is_heap_nil |]. clear IHc.
  destruct c as [| b c]; [apply is_heap_nil |].
  rewrite pop_snoc by done.
  apply adjust_heap_heap; [done |]. by apply is_heap_app in Hc.
Qed.

(** The top of a heap has a least key. *)
Lemma top_min c a :
  is_heap c -> priority_queue.top c = Some a -> Forall (fun b => key a <= key b) c.
Proof.
  intros Hc Ha. apply Forall_lookup. intros i.
  induction i as [i IH] using lt_wf_ind. intros b Hb.
  destruct (decide (i = 0%nat)) as [-> | Hi].
  - unfold priority_queue.top in Ha. rewrite head_lookup in Ha.
    assert (b = a) as -> by congruence. lia.
  - pose proof (priority_queue.parent_lt i ltac:(lia)) as Hlt.
    pose proof (lookup_lt_Some _ _ _ Hb).
    destruct (lookup_lt_is_Some_2 c (parent i) ltac:(lia)) as [p Hp].
    pose proof (IH _ Hlt p Hp). pose proof (Hc i p b ltac:(lia) Hp Hb). lia.
Qed.

Lemma pop_all_sorted c :
  is_heap c -> StronglySorted (fun a b => key a <= key b) (priority_queue.pop_all comp c).
Proof.
  remember (length c) as n eqn:Hn. revert c Hn.
  induction n as [n IH] using lt_wf_ind. intros c -> Hc.
  destruct (priority_queue.top c) as [x |] eqn:Htop.
  - rewrite (pop_all_top comp x c Htop). constructor.
    + apply (IH _ (priority_queue.pop_length comp x c Htop)); [done |].
      by apply pop_is_heap.
    + rewrite pop_all_perm.
      pose proof (top_min c x Hc Htop) as Hmin.
      rewrite <- (pop_perm comp x c Htop) in Hmin.
      by apply Forall_cons in Hmin as [_ ?].
  - destruct c; [| done]. rewrite pop_all_nil. constructor.
Qed.

(** Pushing the elements of [l], first to last, into the queue [c]. *)
Definition push_all (comp : T -> T -> bool) (l : list T) (c : list T) : list T :=
  foldl (fun c x => priority_queue.push comp x c) c l.

Lemma push_all_perm l c : push_all comp l c ≡ₚ l ++ c.
Proof.
  revert c. induction l as [| x l IH]; intros c; simpl; [done |].
  rewrite IH, push_perm. by rewrite Permutation_middle.
Qed.

Lemma push_all_heap l c : is_heap c -> is_heap (push_all comp l c).
Proof.
  revert c. induction l as [| x l IH]; intros c Hc; simpl; [done |].
  by apply IH, push_is_heap.
Qed.

Lemma sorted_strict l :
  StronglySorted (fun a b => key a <= key b) l -> NoDup (key <$> l) ->
  StronglySorted (fun a b => key a < key b) l.
Proof.
  induction 1 as [| x l Hl IH Hx]; intros Hnd; [constructor |].
  rewrite fmap_cons in Hnd. apply NoDup_cons in Hnd as [Hnotin Hnd].
  constructor; [by apply IH |].
  rewrite Forall_forall in Hx |- *. intros y Hy.
  assert (key x <> key y).
  { intros E. apply Hnotin. rewrite E. by apply list_elem_of_fmap_2. }
  specialize (Hx y Hy). lia.
Qed.

(** A queue filled from empty hands its elements out in ascending order
    of the key. *)
Lemma pop_sorted l :
  priority_queue.pop_all comp (push_all comp l []) ≡ₚ l
  /\ StronglySorted (fun a b => key a <= key b)
       (priority_queue.pop_all comp (push_all comp l [])).
Proof.
  split.
  - by rewrite pop_all_perm, push_all_perm, app_nil_r.
  - apply pop_all_sorted, push_all_heap, is_heap_nil.
Qed.

(** Distinct keys: strictly ascending. *)
Lemma pop_order l :
  NoDup (key <$> l) ->
  priority_queue.pop_all comp (push_all comp l []) ≡ₚ l
  /\ StronglySorted (fun a b => key a < key b)
       (priority_queue.pop_all comp (push_all comp l [])).
Proof.
  intros Hnd. destruct (pop_sorted l) as [Hperm Hsorted].
  split; [done |]. apply sorted_strict; [done |]. by rewrite Hperm.
Qed.

End KeyOrder.

Lemma StronglySorted_ext_in {A} (R R' : relation A) (l : list A) :
  (forall a b, a ∈ l -> b ∈ l -> R a b -> R' a b) ->
  StronglySorted R l -> StronglySorted R' l.
Proof.
  intros H. induction 1 as [| x l Hl IH Hx]; [constructor |].
  constructor.
  - apply IH. intros a b Ha Hb. apply H; by right.
  - rewrite Forall_forall in Hx |- *. intros y Hy. apply H; [by left | by right | auto].
Qed.

(** The job an output line is about. *)
Definition event_job (e : Event) : Z :=
  match e with Allocated job _ => job | NotAllocated job => job end.

Lemma settle_cout q s :
  event_job <$> Scheduler.cout (settle q s)
  = (event_job <$> Scheduler.cout s) ++ (Job.id <$> q).
Proof.
  revert s. induction q as [| job q IH]; intros s; [by rewrite app_nil_r |].
  unfold settle. simpl. fold (settle q (Scheduler.place_or_defer s job)). rewrite IH.
  destruct (place_or_defer_cases s job) as [(i & n & _ & _ & _ & ->) | [_ ->]]; simpl;
    by rewrite fmap_app, <- app_assoc.
Qed.

Lemma enqueue_smallest jobs s :
  Scheduler.jobQueueSmallest (foldl Scheduler.addJobToQueueSmallest s jobs)
    = push_all SmallestJobFirst jobs (Scheduler.jobQueueSmallest s)
  /\ Scheduler.cout (foldl Scheduler.addJobToQueueSmallest s jobs) = Scheduler.cout s.
Proof.
  revert s. induction jobs as [| job jobs IH]; intros s; [done |].
  simpl. destruct (IH (Scheduler.addJobToQueueSmallest s job)) as [-> ->]. done.
Qed.

Lemma enqueue_shortest jobs s :
  Scheduler.jobQueueShortest (foldl Scheduler.addJobToQueueShortest s jobs)
    = push_all ShortestDurationFirst jobs (Scheduler.jobQueueShortest s)
  /\ Scheduler.cout (foldl Scheduler.addJobToQueueShortest s jobs) = Scheduler.cout s.
Proof.
  revert s. induction jobs as [| job jobs IH]; intros s; [done |].
  simpl. destruct (IH (Scheduler.addJobToQueueShortest s job)) as [-> ->]. done.
Qed.

(** C10. The key of [SmallestJobFirst] is computed in [int] arithmetic:
    it is the signed 32-bit representative of the exact product.  For two
    jobs whose exact products are both in the [int] range the comparator
    agrees with the comparison of the exact products; outside that range
    it can disagree (a product of 2^32 has key 0, which is not greater
    than 1). *)
Theorem SmallestJobFirst_exact_in_range :
  (forall j, gross_value j = wrap (exact_product j))
  /\ (forall j1 j2,
        int_range (exact_product j1) -> int_range (exact_product j2) ->
        SmallestJobFirst j1 j2 = (exact_product j1 >? exact_product j2))
  /\ (exists j1 j2,
        SmallestJobFirst j1 j2 = false /\ (exact_product j1 >? exact_product j2) = true).
Proof.
  split; [exact gross_value_wrap |]. split.
  - intros j1 j2 H1 H2. unfold SmallestJobFirst. by rewrite !gross_value_exact.
  - exists (Job.make 1 0 65536 1 65536), (Job.make 2 0 1 1 1). by vm_compute.
Qed.

(** C7, as the source has it.  Jobs whose exact products are pairwise
    distinct and all in the [int] range, pushed into the empty
    smallest-first queue in any order, are handed out in strictly
    ascending order of the product, and that is the order in which
    [scheduleJobsSmallest] offers them. *)
Theorem smallest_first_pop_order (s0 : Scheduler.t) (jobs : list Job.t) :
  Scheduler.jobQueueSmallest s0 = [] ->
  Forall (fun j => int_range (exact_product j)) jobs ->
  NoDup (exact_product <$> jobs) ->
  let s := foldl Scheduler.addJobToQueueSmallest s0 jobs in
  let popped := priority_queue.pop_all SmallestJobFirst (Scheduler.jobQueueSmallest s) in
  popped ≡ₚ jobs
  /\ StronglySorted (fun a b => exact_product a < exact_product b) popped
  /\ event_job <$> Scheduler.cout (Scheduler.scheduleJobsSmallest s)
     = (event_job <$> Scheduler.cout s0) ++ (Job.id <$> popped).
Proof.
  intros Hempty Hrange Hnd s popped. subst s popped.
  destruct (enqueue_smallest jobs s0) as [Hq Hout]. rewrite Hq, Hempty.
  assert (Hkey : gross_value <$> jobs = exact_product <$> jobs).
  { apply Forall_fmap_ext_1. eapply Forall_impl; [exact Hrange |].
    intros j Hj. by apply gross_value_exact. }
  destruct (pop_order gross_value jobs) as [Hperm Hsorted]; [by rewrite Hkey |].
  split; [exact Hperm |]. split.
  - eapply StronglySorted_ext_in; [| exact Hsorted]. simpl.
    intros a b Ha Hb. rewrite Hperm in Ha, Hb. rewrite Forall_forall in Hrange.
    by rewrite !gross_value_exact by auto.
  - rewrite scheduleJobsSmallest_settle. simpl. by rewrite settle_cout, Hout, Hq, Hempty.
Qed.

(** C7, as the claim states it, fails: the product 65536 * 65536 * 1 is
    2^32, whose key is 0, so that job is handed out before the job whose
    product is 1. *)
Lemma smallest_first_overflow_counterexample :
  let big := Job.make 1 0 65536 1 65536 in
  let small := Job.make 2 0 1 1 1 in
  let s := foldl Scheduler.addJobToQueueSmallest (Scheduler.make 1) [big; small] in
  NoDup (exact_product <$> [big; small])
  /\ priority_queue.pop_all SmallestJobFirst (Scheduler.jobQueueSmallest s) = [big; small]
  /\ Scheduler.cout (Scheduler.scheduleJobsSmallest s) = [NotAllocated 1; Allocated 2 0]
  /\ ~ StronglySorted (fun a b => exact_product a < exact_product b)
         (priority_queue.pop_all SmallestJobFirst (Scheduler.jobQueueSmallest s)).
Proof.
  split; [| split; [| split]].
  - apply (bool_decide_unpack _). by vm_compute.
  - by vm_compute.
  - by vm_compute.
  - intros H. apply (bool_decide_pack _) in H. by vm_compute in H.
Qed.

(** C8. Jobs with pairwise distinct execution times, pushed into the
    empty shortest-first queue in any order, are handed out in strictly
    ascending order of the execution time, and that is the order in which
    [scheduleJobsShortest] offers them. *)
Theorem shortest_first_pop_order (s0 : Scheduler.t) (jobs : list Job.t) :
  Scheduler.jobQueueShortest s0 = [] ->
  NoDup (Job.execTime <$> jobs) ->
  let s := foldl Scheduler.addJobToQueueShortest s0 jobs in
  let popped := priority_queue.pop_all ShortestDurationFirst (Scheduler.jobQueueShortest s) in
  popped ≡ₚ jobs
  /\ StronglySorted (fun a b => Job.execTime a < Job.execTime b) popped
  /\ event_job <$> Scheduler.cout (Scheduler.scheduleJobsShortest s)
     = (event_job <$> Scheduler.cout s0) ++ (Job.id <$> popped).
Proof.
  intros Hempty Hnd s popped. subst s popped.
  destruct (enqueue_shortest jobs s0) as [Hq Hout]. rewrite Hq, Hempty.
  destruct (pop_order Job.execTime jobs Hnd) as [Hperm Hsorted].
  split; [exact Hperm |]. split; [exact Hsorted |].
  rewrite scheduleJobsShortest_settle. simpl. by rewrite settle_cout, Hout, Hq, Hempty.
Qed.

(** The two ordering examples of the specification. *)
Example smallest_first_example :
  let j100 := Job.make 1 0 5 4 5 in
  let j10 := Job.make 2 0 1 5 2 in
  let j1000 := Job.make 3 0 10 10 10 in
  let s := foldl Scheduler.addJobToQueueSmallest (Scheduler.make 4) [j100; j10; j1000] in
  exact_product <$> [j100; j10; j1000] = [100; 10; 1000]
  /\ priority_queue.pop_all SmallestJobFirst (Scheduler.jobQueueSmallest s) = [j10; j100; j1000]
  /\ event_job <$> Scheduler.cout (Scheduler.scheduleJobsSmallest s) = [2; 1; 3].
Proof. by vm_compute. Qed.

Example shortest_first_example :
  let j5 := Job.make 1 0 1 1 5 in
  let j2 := Job.make 2 0 1 1 2 in
  let j8 := Job.make 3 0 1 1 8 in
  let s := foldl Scheduler.addJobToQueueShortest (Scheduler.make 4) [j5; j2; j8] in
  priority_queue.pop_all ShortestDurationFirst (Scheduler.jobQueueShortest s) = [j2; j5; j8]
  /\ event_job <$> Scheduler.cout (Scheduler.scheduleJobsShortest s) = [2; 1; 3].
Proof. by vm_compute. Qed.

(** Equal keys: the heap decides.  Five jobs with the execution times
    3, 1, 3, 1, 3, pushed in the order of their ids, leave the
    shortest-first queue in the order 2, 4, 3, 1, 5. *)
Example equal_keys_example :
  let jobs :=
    [Job.make 1 0 1 1 3; Job.make 2 0 1 1 1; Job.make 3 0 1 1 3;
     Job.make 4 0 1 1 1; Job.make 5 0 1 1 3] in
  let s := foldl Scheduler.addJobToQueueShortest (Scheduler.make 4) jobs in
  Job.id <$> Scheduler.jobQueueShortest s = [2; 4; 3; 1; 5]
  /\ Job.id <$> priority_queue.pop_all ShortestDurationFirst (Scheduler.jobQueueShortest s)
     = [2; 4; 3; 1; 5].
Proof. by vm_compute. Qed.

(** ** Utilization *)

(** A double between 0 and 100 (which no NaN is). *)
Definition percent (x : float) : Prop :=
  PrimFloat.leb 0%float x = true /\ PrimFloat.leb x 100%float = true.

(** What both utilization functions compute from their two counters. *)
Definition used_percent (available total : Z) : float :=
  PrimFloat.mul 100%float
    (PrimFloat.sub 1%float (PrimFloat.div (double_of_int available) (double_of_int total))).

(** *** Rounding to nearest in binary64

    The primitive operations are specified by the functions of
    [SpecFloat]; what follows reads off those functions that a value
    below a double rounds to a double that is not above it.  Values are
    compared as integers, scaled by a common power of two [2^(-c)]. *)

Ltac pow_atoms :=
  repeat match goal with
    | |- context [2 ^ ?e] => let p := fresh "p" in set (p := 2 ^ e) in *; clearbody p
    | H : context [2 ^ ?e] |- _ => let p := fresh "p" in set (p := 2 ^ e) in *; clearbody p
    end.

(** A mantissa of [d] bits lies in [2^(d-1) .. 2^d - 1]. *)
Lemma digits2_pos_bounds m :
  2 ^ (Zpos (digits2_pos m) - 1) <= Zpos m < 2 ^ Zpos (digits2_pos m).
Proof.
  induction m as [m IH | m IH |]; simpl digits2_pos.
  - rewrite Pos2Z.inj_succ, (Pos2Z.inj_xI m).
    replace (Z.succ (Zpos (digits2_pos m)) - 1) with (Z.succ (Zpos (digits2_pos m) - 1)) by lia.
    rewrite !Z.pow_succ_r by lia. pow_atoms. lia.
  - rewrite Pos2Z.inj_succ, (Pos2Z.inj_xO m).
    replace (Z.succ (Zpos (digits2_pos m)) - 1) with (Z.succ (Zpos (digits2_pos m) - 1)) by lia.
    rewrite !Z.pow_succ_r by lia. pow_atoms. lia.
  - simpl. lia.
Qed.

Lemma digits2_pos_unique m d :
  2 ^ (d - 1) <= Zpos m < 2 ^ d -> Zpos (digits2_pos m) = d.
Proof.
  intros [Hlo Hhi]. pose proof (digits2_pos_bounds m) as [Hlo' Hhi'].
  assert (0 < d).
  { destruct (Z_lt_le_dec 0 d); [done |].
    assert (2 ^ d <= 2 ^ 0) by (apply Z.pow_le_mono_r; lia). simpl in *. lia. }
  destruct (Z_lt_le_dec (Zpos (digits2_pos m)) d) as [Hlt | Hge].
  - assert (2 ^ Zpos (digits2_pos m) <= 2 ^ (d - 1)) by (apply Z.pow_le_mono_r; lia). lia.
  - destruct (Z_lt_le_dec d (Zpos (digits2_pos m))) as [Hlt | Hge']; [| lia].
    assert (2 ^ d <= 2 ^ (Zpos (digits2_pos m) - 1)) by (apply Z.pow_le_mono_r; lia). lia.
Qed.

Lemma iter_pos_inv {A} (f : A -> A) (Q : Z -> A -> Prop) :
  (forall k x, 0 <= k -> Q k x -> Q (k + 1) (f x)) ->
  forall n k x, 0 <= k -> Q k x -> Q (k + Zpos n) (SpecFloat.iter_pos f n x).
Proof.
  intros Hstep. induction n as [n IH | n IH |]; intros k x Hk HQ; simpl.
  - replace (k + Zpos n~1) with (k + 1 + Zpos n + Zpos n) by lia.
    apply IH; [lia |]. apply IH; [lia |]. by apply Hstep.
  - replace (k + Zpos n~0) with (k + Zpos n + Zpos n) by lia.
    apply IH; [lia |]. by apply IH.
  - by apply Hstep.
Qed.

(** Bits were lost in the shifts recorded by [r]. *)
Definition inexact (r : shr_record) : bool := shr_r r || shr_s r.

(** One shift to the right halves the mantissa and remembers whether a
    one was shifted out. *)
Lemma shr_1_spec r :
  0 <= shr_m r ->
  shr_m (shr_1 r) = shr_m r / 2
  /\ inexact (shr_1 r) = Z.odd (shr_m r) || inexact r.
Proof.
  destruct r as [m r s]. unfold inexact. simpl. intros Hm.
  destruct m as [| p | p]; [done | | lia].
  destruct p as [p | p |]; simpl.
  - split; [| done]. rewrite (Pos2Z.inj_xI p). apply (Z.div_unique _ _ _ 1); lia.
  - split; [| done]. rewrite (Pos2Z.inj_xO p). apply (Z.div_unique _ _ _ 0); lia.
  - done.
Qed.

Definition is_exact (l : location) : bool :=
  match l with loc_Exact => true | loc_Inexact _ => false end.

Lemma inexact_of_loc m l : inexact (shr_record_of_loc m l) = negb (is_exact l).
Proof. by destruct l as [| []]. Qed.

Lemma shr_m_of_loc m l : shr_m (shr_record_of_loc m l) = m.
Proof. by destruct l as [| []]. Qed.

Lemma is_exact_of_shr r : is_exact (loc_of_shr_record r) = negb (inexact r).
Proof. by destruct r as [m [] []]. Qed.

Lemma round_nearest_even_bounds m l :
  m <= round_nearest_even m l <= m + (if is_exact l then 0 else 1).
Proof.
  destruct l as [| []]; simpl; try lia. destruct (Z.even m); lia.
Qed.

Lemma mod_pow2_succ m k :
  0 <= k ->
  negb (m mod 2 ^ (k + 1) =? 0) = Z.odd (m / 2 ^ k) || negb (m mod 2 ^ k =? 0).
Proof.
  intros Hk. rewrite Z.pow_add_r, Z.pow_1_r by lia.
  assert (0 < 2 ^ k) by (by apply Z.pow_pos_nonneg).
  rewrite Z.rem_mul_r by lia.
  rewrite (Zmod_odd (m / 2 ^ k)).
  pose proof (Z.mod_pos_bound m (2 ^ k) ltac:(lia)).
  destruct (Z.odd (m / 2 ^ k)); simpl.
  - apply negb_true_iff, Z.eqb_neq. lia.
  - by rewrite Z.mul_0_r, Z.add_0_r.
Qed.

Lemma shr_spec m l e n :
  0 <= m -> 0 <= n ->
  (shr (shr_record_of_loc m l) e n).2 = e + n
  /\ shr_m (shr (shr_record_of_loc m l) e n).1 = m / 2 ^ n
  /\ inexact (shr (shr_record_of_loc m l) e n).1
     = negb (is_exact l) || negb (m mod 2 ^ n =? 0).
Proof.
  intros Hm Hn. destruct n as [| p | p]; [| | lia]; simpl.
  - rewrite Z.div_1_r, Z.mod_1_r, shr_m_of_loc, inexact_of_loc, orb_false_r. split; [lia | done].
  - split; [done |].
    assert (Hstep : forall k r, 0 <= k ->
      (0 <= shr_m r /\ shr_m r = m / 2 ^ k
       /\ inexact r = negb (is_exact l) || negb (m mod 2 ^ k =? 0)) ->
      (0 <= shr_m (shr_1 r) /\ shr_m (shr_1 r) = m / 2 ^ (k + 1)
       /\ inexact (shr_1 r) = negb (is_exact l) || negb (m mod 2 ^ (k + 1) =? 0))).
    { intros k r Hk (Hr & Em & Ei). destruct (shr_1_spec r Hr) as [E1 E2].
      assert (0 < 2 ^ k) by (by apply Z.pow_pos_nonneg).
      rewrite E1, E2, Em, Ei. split; [apply Z.div_pos; [apply Z.div_pos |]; lia |].
      split.
      - rewrite Z.pow_add_r, Z.pow_1_r by lia. rewrite Z.div_div; lia.
      - rewrite mod_pow2_succ by lia. generalize (Z.odd (m / 2 ^ k)), (is_exact l), (m mod 2 ^ k =? 0). by intros [] [] []. }
    destruct (iter_pos_inv shr_1 _ Hstep p 0 (shr_record_of_loc m l)) as (_ & H1 & H2);
      [lia | | done].
    rewrite Z.pow_0_r, Z.div_1_r, Z.mod_1_r, shr_m_of_loc, inexact_of_loc, orb_false_r. done.
Qed.

Lemma fexp_normal e : -1021 <= e -> fexp prec emax e = e - 53.
Proof. unfold fexp, SpecFloat.emin, prec, emax. lia. Qed.

Lemma div_pow2_bounds m d n :
  0 <= n -> 0 < d -> 2 ^ (d + n - 1) <= m < 2 ^ (d + n) ->
  2 ^ (d - 1) <= m / 2 ^ n < 2 ^ d.
Proof.
  intros Hn Hd [Hlo Hhi].
  assert (0 < 2 ^ n) by (by apply Z.pow_pos_nonneg).
  replace (d + n - 1) with ((d - 1) + n) in Hlo by lia.
  rewrite Z.pow_add_r in Hlo, Hhi by lia. split.
  - apply Z.div_le_lower_bound; lia.
  - apply Z.div_lt_upper_bound; lia.
Qed.

(** The value of what [binary_round_aux] returns, for a mantissa of at
    least 53 bits in the normal range. *)
Lemma binary_round_aux_spec (m : positive) (e : Z) (l : location) :
  let d := Zpos (digits2_pos m) in
  let n := d - 53 in
  53 <= d -> -1021 <= d + e -> d + e <= 1023 ->
  exists m'' e'',
    binary_round_aux prec emax false (Zpos m) e l = S754_finite false m'' e''
    /\ 2 ^ 52 <= Zpos m'' < 2 ^ 53
    /\ e + n <= e'' <= e + n + 1
    /\ Zpos m / 2 ^ n * 2 ^ n <= Zpos m'' * 2 ^ (e'' - e)
       <= (Zpos m / 2 ^ n
           + (if is_exact l && (Zpos m mod 2 ^ n =? 0) then 0 else 1)) * 2 ^ n.
Proof.
  intros d n Hd Hlo Hhi.
  pose proof (digits2_pos_bounds m) as Hm. fold d in Hm.
  assert (Hn : 0 <= n) by (unfold n; lia).
  assert (H2n : 0 < 2 ^ n) by (by apply Z.pow_pos_nonneg).
  unfold binary_round_aux, shr_fexp. simpl Zdigits2. fold d.
  rewrite fexp_normal by lia. replace (d + e - 53 - e) with n by (unfold n; lia).
  destruct (shr_spec (Zpos m) l e n ltac:(lia) Hn) as (Ee & Em & Ei).
  destruct (shr (shr_record_of_loc (Zpos m) l) e n) as [rec1 e1]. simpl in Ee, Em, Ei.
  set (m1 := Zpos m / 2 ^ n) in *.
  assert (Hm1 : 2 ^ 52 <= m1 < 2 ^ 53).
  { apply (div_pow2_bounds (Zpos m) 53 n); [lia | lia |].
    replace (53 + n - 1) with (d - 1) by (unfold n; lia).
    replace (53 + n) with d by (unfold n; lia). done. }
  pose proof (round_nearest_even_bounds (shr_m rec1) (loc_of_shr_record rec1)) as Hr.
  remember (round_nearest_even (shr_m rec1) (loc_of_shr_record rec1)) as mr eqn:Emr.
  clear Emr. rewrite is_exact_of_shr, Ei, Em in Hr.
  set (ie := if is_exact l && (Zpos m mod 2 ^ n =? 0) then 0 else 1).
  assert (Hie : mr <= m1 + ie).
  { unfold ie. destruct (is_exact l), (Zpos m mod 2 ^ n =? 0); simpl in Hr |- *; lia. }
  assert (Hie01 : 0 <= ie <= 1) by (unfold ie; destruct (_ && _); lia).
  clearbody ie.
  assert (Hmr : 2 ^ 52 <= mr <= 2 ^ 53) by lia.
  destruct mr as [| pr | pr]; [simpl in Hmr; lia | | lia].
  destruct (Z_lt_le_dec (Zpos pr) (2 ^ 53)) as [Hlt | Hge].
  - (* no carry out of the rounding *)
    assert (Edr : Zpos (digits2_pos pr) = 53) by (apply digits2_pos_unique; simpl; lia).
    simpl Zdigits2. rewrite Edr, fexp_normal by lia.
    replace (53 + e1 - 53 - e1) with 0 by lia. cbn [shr shr_record_of_loc shr_m].
    replace (e1 <=? emax - prec) with true
      by (symmetry; apply Z.leb_le; unfold emax, prec; lia).
    exists pr, e1. split; [done |]. split; [lia |]. split; [lia |].
    replace (e1 - e) with n by lia. nia.
  - (* the rounding carried: the mantissa is 2^53 *)
    assert (Epr : Zpos pr = 2 ^ 53) by lia.
    assert (Edr : Zpos (digits2_pos pr) = 54) by (apply digits2_pos_unique; simpl; lia).
    simpl Zdigits2. rewrite Edr, fexp_normal by lia.
    replace (54 + e1 - 53 - e1) with 1 by lia.
    destruct (shr_spec (Zpos pr) loc_Exact e1 1 ltac:(lia) ltac:(lia)) as (Ee2 & Em2 & _).
    destruct (shr (shr_record_of_loc (Zpos pr) loc_Exact) e1 1) as [rec2 e2].
    simpl in Ee2, Em2. rewrite Em2, Epr.
    change (2 ^ 53 / 2 ^ 1) with (Zpos 4503599627370496).
    replace (e2 <=? emax - prec) with true
      by (symmetry; apply Z.leb_le; unfold emax, prec; lia).
    exists 4503599627370496%positive, e2. split; [done |]. split; [simpl; lia |].
    split; [lia |]. replace (e2 - e) with (n + 1) by lia.
    rewrite Z.pow_add_r, Z.pow_1_r by lia.
    change (Zpos 4503599627370496) with (2 ^ 52).
    assert (2 ^ 52 * 2 = 2 ^ 53) by done. nia.
Qed.

(** Rounding does not cross a representable bound: a value at most
    [mb * 2^eb] rounds to a double at most [mb * 2^eb].  All values are
    written as integers, scaled by [2^(-c)]. *)
Lemma binary_round_aux_le (m : positive) (e : Z) (l : location) (mb : positive) (eb c : Z) :
  let d := Zpos (digits2_pos m) in
  53 <= d -> -1021 <= d + e -> d + e <= 1023 ->
  2 ^ 52 <= Zpos mb < 2 ^ 53 -> c <= e -> c <= eb ->
  (Zpos m + (if is_exact l then 0 else 1)) * 2 ^ (e - c) <= Zpos mb * 2 ^ (eb - c) ->
  exists m'' e'',
    binary_round_aux prec emax false (Zpos m) e l = S754_finite false m'' e''
    /\ 2 ^ 52 <= Zpos m'' < 2 ^ 53
    /\ e + (d - 53) <= e'' <= e + (d - 53) + 1
    /\ Zpos m'' * 2 ^ (e'' - c) <= Zpos mb * 2 ^ (eb - c).
Proof.
  intros d Hd Hlo Hhi Hmb Hce Hceb Hup.
  destruct (binary_round_aux_spec m e l Hd Hlo Hhi) as (m'' & e'' & E & Hm'' & He'' & _ & HV).
  fold d in He'', HV. set (n := d - 53) in *.
  exists m'', e''. do 3 (split; [done |]).
  assert (Hn : 0 <= n) by (unfold n; lia).
  pose proof (Z.pow_pos_nonneg 2 n ltac:(lia) Hn) as HN.
  pose proof (Z.pow_pos_nonneg 2 (e - c) ltac:(lia) ltac:(lia)) as Ha.
  pose proof (Z.div_mod (Zpos m) (2 ^ n) ltac:(lia)) as Hdiv.
  pose proof (Z.mod_pos_bound (Zpos m) (2 ^ n) HN) as Hrem.
  set (m1 := Zpos m / 2 ^ n) in *. set (rem := Zpos m mod 2 ^ n) in *.
  replace (e'' - c) with ((e'' - e) + (e - c)) by lia.
  rewrite Z.pow_add_r by lia.
  set (ie := if is_exact l && (rem =? 0) then 0 else 1) in *.
  set (il := if is_exact l then 0 else 1) in *.
  assert (Hcase : (ie = 0 /\ il = 0 /\ rem = 0) \/ (ie = 1 /\ (il = 1 \/ 0 < rem))).
  { unfold ie, il. destruct (is_exact l); simpl.
    - destruct (Z.eqb_spec rem 0); [left | right]; lia.
    - right. lia. }
  assert (0 <= il <= 1) by (unfold il; destruct (is_exact l); lia).
  clearbody ie il.
  destruct (Z_lt_le_dec eb (e + n)) as [Hlt | Hge].
  - (* the bound lies below the binade of the result: impossible *)
    exfalso.
    assert (2 ^ (eb - c) <= 2 ^ (e + n - 1 - c)) by (apply Z.pow_le_mono_r; lia).
    assert (E2 : 2 ^ n * 2 ^ (e - c) = 2 * 2 ^ (e + n - 1 - c)).
    { rewrite <- Z.pow_add_r, <- Z.pow_succ_r by lia. f_equal. lia. }
    assert (2 ^ 52 <= m1).
    { apply (div_pow2_bounds (Zpos m) 53 n); [lia | lia |].
      pose proof (digits2_pos_bounds m) as Hm. fold d in Hm.
      replace (53 + n - 1) with (d - 1) by (unfold n; lia).
      replace (53 + n) with d by (unfold n; lia). done. }
    pose proof (Z.pow_pos_nonneg 2 (eb - c) ltac:(lia) ltac:(lia)).
    assert (Zpos mb * 2 ^ (eb - c) < 2 ^ 53 * 2 ^ (eb - c)) by nia.
    assert (2 ^ 53 * 2 ^ (eb - c) <= 2 ^ 52 * (2 ^ n * 2 ^ (e - c))).
    { rewrite E2. change (2 ^ 53) with (2 ^ 52 * 2). nia. }
    assert (2 ^ 52 * (2 ^ n * 2 ^ (e - c)) <= Zpos m * 2 ^ (e - c)) by nia.
    nia.
  - (* the bound is a multiple of the unit of the result *)
    replace (eb - c) with ((eb - (e + n)) + n + (e - c)) in * by lia.
    rewrite !Z.pow_add_r in * by lia.
    pose proof (Z.pow_pos_nonneg 2 (eb - (e + n)) ltac:(lia) ltac:(lia)) as Hk.
    set (K := Zpos mb * 2 ^ (eb - (e + n))) in *.
    assert (HupK : Zpos m + il <= K * 2 ^ n).
    { apply (Z.mul_le_mono_pos_r _ _ (2 ^ (e - c))); [done |]. unfold K. lia. }
    assert (HU : m1 + ie <= K) by nia.
    assert (Zpos m'' * 2 ^ (e'' - e) <= K * 2 ^ n) by nia.
    replace (Zpos mb * (2 ^ (eb - (e + n)) * 2 ^ n * 2 ^ (e - c)))
      with (K * 2 ^ n * 2 ^ (e - c)) by (unfold K; lia).
    nia.
Qed.

Lemma SFleb_normal m1 e1 m2 e2 c :
  2 ^ 52 <= Zpos m1 < 2 ^ 53 -> 2 ^ 52 <= Zpos m2 < 2 ^ 53 ->
  c <= e1 -> c <= e2 ->
  Zpos m1 * 2 ^ (e1 - c) <= Zpos m2 * 2 ^ (e2 - c) ->
  SFleb (S754_finite false m1 e1) (S754_finite false m2 e2) = true.
Proof.
  intros H1 H2 Hc1 Hc2 Hle. unfold SFleb, SFcompare.
  pose proof (Z.pow_pos_nonneg 2 (e2 - c) ltac:(lia) ltac:(lia)) as Hp2.
  destruct (Z.compare_spec e1 e2) as [-> | Hlt | Hgt]; [| done |].
  - fold (Pos.compare m1 m2). destruct (Pos.compare_spec m1 m2) as [| |Hgt]; try done.
    exfalso. apply Pos2Z.pos_lt_pos in Hgt. nia.
  - exfalso.
    replace (e1 - c) with ((e1 - e2 - 1) + 1 + (e2 - c)) in Hle by lia.
    rewrite !Z.pow_add_r, Z.pow_1_r in Hle by lia.
    pose proof (Z.pow_pos_nonneg 2 (e1 - e2 - 1) ltac:(lia) ltac:(lia)).
    change (2 ^ 53) with (2 ^ 52 * 2) in *.
    assert (0 < 2 ^ 52) by done.
    set (T := 2 ^ 52) in *. set (Q := 2 ^ (e2 - c)) in *. set (P := 2 ^ (e1 - e2 - 1)) in *.
    clearbody T Q P.
    assert (Zpos m2 * Q < T * 2 * Q) by nia.
    assert (T * 2 * Q <= Zpos m1 * (P * 2 * Q)).
    { assert (T * (2 * Q) <= Zpos m1 * (2 * Q)) by (apply Z.mul_le_mono_nonneg_r; lia).
      assert (Zpos m1 * (1 * (2 * Q)) <= Zpos m1 * (P * (2 * Q))).
      { apply Z.mul_le_mono_nonneg_l; [lia |]. apply Z.mul_le_mono_nonneg_r; lia. }
      lia. }
    lia.
Qed.

Lemma iter_xO a k : Zpos (Pos.iter xO a k) = Zpos a * 2 ^ Zpos k.
Proof.
  induction k as [| k IH] using Pos.peano_ind.
  - simpl. lia.
  - rewrite Pos.iter_succ, (Pos2Z.inj_xO (Pos.iter xO a k)), IH, Pos2Z.inj_succ.
    rewrite Z.pow_succ_r by lia. lia.
Qed.

(** [binary_round]: the mantissa is first brought to at least 53 bits,
    which does not change the value, and then rounded. *)
Lemma binary_round_le (m : positive) (e : Z) (mb : positive) (eb c : Z) :
  -900 <= e <= 900 -> Zpos m < 2 ^ 120 ->
  2 ^ 52 <= Zpos mb < 2 ^ 53 -> c <= e - 53 -> c <= eb ->
  Zpos m * 2 ^ (e - c) <= Zpos mb * 2 ^ (eb - c) ->
  exists m'' e'',
    binary_round prec emax false m e = S754_finite false m'' e''
    /\ 2 ^ 52 <= Zpos m'' < 2 ^ 53
    /\ e - 53 <= e'' <= e + 68
    /\ Zpos m'' * 2 ^ (e'' - c) <= Zpos mb * 2 ^ (eb - c).
Proof.
  intros He Hm Hmb Hc Hcb Hle. unfold binary_round.
  pose proof (digits2_pos_bounds m) as Hd. set (d := Zpos (digits2_pos m)) in *.
  assert (Hd1 : 1 <= d) by (unfold d; lia).
  assert (Hd2 : d <= 120).
  { destruct (Z_lt_le_dec 120 d); [| done].
    assert (2 ^ 120 <= 2 ^ (d - 1)) by (apply Z.pow_le_mono_r; lia). lia. }
  rewrite fexp_normal by lia. unfold shl_align.
  destruct (d + e - 53 - e) as [| k | k] eqn:Ek.
  - (* exactly 53 bits *)
    destruct (binary_round_aux_le m e loc_Exact mb eb c) as (m'' & e'' & E & H1 & H2 & H3);
      fold d; try lia.
    + simpl. by rewrite Z.add_0_r.
    + exists m'', e''. fold d in H2. split; [done |]. split; [done |]. split; [lia | done].
  - (* more than 53 bits *)
    destruct (binary_round_aux_le m e loc_Exact mb eb c) as (m'' & e'' & E & H1 & H2 & H3);
      fold d; try lia.
    + simpl. by rewrite Z.add_0_r.
    + exists m'', e''. fold d in H2. split; [done |]. split; [done |]. split; [lia | done].
  - (* fewer than 53 bits: shift left *)
    assert (Hk : Zpos k = 53 - d) by lia.
    pose proof (iter_xO m k) as Hmz. set (mz := Pos.iter xO m k) in *.
    assert (Hdz : Zpos (digits2_pos mz) = 53).
    { apply digits2_pos_unique. rewrite Hmz, Hk.
      assert (E1 : 2 ^ (53 - 1) = 2 ^ (d - 1) * 2 ^ (53 - d))
        by (rewrite <- Z.pow_add_r by lia; f_equal; lia).
      assert (E2 : 2 ^ 53 = 2 ^ d * 2 ^ (53 - d))
        by (rewrite <- Z.pow_add_r by lia; f_equal; lia).
      rewrite E1, E2.
      pose proof (Z.pow_pos_nonneg 2 (53 - d) ltac:(lia) ltac:(lia)). nia. }
    destruct (binary_round_aux_le mz (d + e - 53) loc_Exact mb eb c)
      as (m'' & e'' & E & H1 & H2 & H3); rewrite ?Hdz; try lia.
    + simpl. rewrite Z.add_0_r, Hmz, Hk, <- Z.mul_assoc, <- Z.pow_add_r by lia.
      by replace (53 - d + (d + e - 53 - c)) with (e - c) by lia.
    + exists m'', e''. split; [done |]. split; [done |]. split; [lia | done].
Qed.

Lemma binary_round_aux_exact (m : positive) (e c : Z) :
  Zpos (digits2_pos m) = 53 -> -1021 <= 53 + e -> 53 + e <= 1023 -> c <= e ->
  exists m'' e'',
    binary_round_aux prec emax false (Zpos m) e loc_Exact = S754_finite false m'' e''
    /\ 2 ^ 52 <= Zpos m'' < 2 ^ 53
    /\ e <= e'' <= e + 1
    /\ Zpos m'' * 2 ^ (e'' - c) = Zpos m * 2 ^ (e - c).
Proof.
  intros Hd Hlo Hhi Hc.
  destruct (binary_round_aux_spec m e loc_Exact) as (m'' & e'' & E & H1 & H2 & H3);
    rewrite ?Hd; try lia.
  rewrite Hd in H2, H3. simpl in H3. rewrite Z.div_1_r, Z.mod_1_r in H3. simpl in H3.
  exists m'', e''. split; [done |]. split; [done |]. split; [lia |].
  replace (e'' - c) with ((e'' - e) + (e - c)) by lia.
  rewrite Z.pow_add_r by lia. nia.
Qed.

Lemma binary_round_exact (m : positive) (e c : Z) :
  -900 <= e <= 900 -> Zpos m < 2 ^ 53 -> c <= e - 53 ->
  exists m'' e'',
    binary_round prec emax false m e = S754_finite false m'' e''
    /\ 2 ^ 52 <= Zpos m'' < 2 ^ 53
    /\ e - 53 <= e'' <= e + 1
    /\ Zpos m'' * 2 ^ (e'' - c) = Zpos m * 2 ^ (e - c).
Proof.
  intros He Hm Hc. unfold binary_round.
  pose proof (digits2_pos_bounds m) as Hd. set (d := Zpos (digits2_pos m)) in *.
  assert (Hd1 : 1 <= d) by (unfold d; lia).
  assert (Hd2 : d <= 53).
  { destruct (Z_lt_le_dec 53 d); [| done].
    assert (2 ^ 53 <= 2 ^ (d - 1)) by (apply Z.pow_le_mono_r; lia). lia. }
  rewrite fexp_normal by lia. unfold shl_align.
  destruct (d + e - 53 - e) as [| k | k] eqn:Ek; [| lia |].
  - destruct (binary_round_aux_exact m e c) as (m'' & e'' & E & H1 & H2 & H3);
      fold d; try lia.
    exists m'', e''. split; [done |]. split; [done |]. split; [lia | done].
  - assert (Hk : Zpos k = 53 - d) by lia.
    pose proof (iter_xO m k) as Hmz. set (mz := Pos.iter xO m k) in *.
    assert (Hdz : Zpos (digits2_pos mz) = 53).
    { apply digits2_pos_unique. rewrite Hmz, Hk.
      assert (E1 : 2 ^ (53 - 1) = 2 ^ (d - 1) * 2 ^ (53 - d))
        by (rewrite <- Z.pow_add_r by lia; f_equal; lia).
      assert (E2 : 2 ^ 53 = 2 ^ d * 2 ^ (53 - d))
        by (rewrite <- Z.pow_add_r by lia; f_equal; lia).
      rewrite E1, E2.
      pose proof (Z.pow_pos_nonneg 2 (53 - d) ltac:(lia) ltac:(lia)). nia. }
    destruct (binary_round_aux_exact mz (d + e - 53) c)
      as (m'' & e'' & E & H1 & H2 & H3); try lia.
    exists m'', e''. split; [done |]. split; [done |]. split; [lia |].
    rewrite H3, Hmz, Hk, <- Z.mul_assoc, <- Z.pow_add_r by lia.
    by replace (53 - d + (d + e - 53 - c)) with (e - c) by lia.
Qed.

Lemma is_exact_new_location nb r :
  is_exact (new_location nb r) = (r =? 0).
Proof.
  unfold new_location, new_location_even, new_location_odd.
  by destruct (Z.even nb), (r =? 0).
Qed.

(** 1.0 is [one_m * 2^-52], and 100.0 is [hundred_m * 2^-46]. *)
Definition one_m : positive := 4503599627370496.

Lemma one_m_eq : Zpos one_m = 2 ^ 52.
Proof. reflexivity. Qed.

(** A quotient of two normal doubles [x <= y] is a double at most 1. *)
Lemma SFdiv_le_one (m1 : positive) (e1 : Z) (m2 : positive) (e2 c : Z) :
  2 ^ 52 <= Zpos m1 < 2 ^ 53 -> 2 ^ 52 <= Zpos m2 < 2 ^ 53 ->
  -100 <= e1 <= 0 -> -100 <= e2 <= 0 -> -53 <= e1 - e2 <= 53 -> c <= -300 ->
  Zpos m1 * 2 ^ (e1 - c) <= Zpos m2 * 2 ^ (e2 - c) ->
  exists mq eq,
    SFdiv prec emax (S754_finite false m1 e1) (S754_finite false m2 e2)
      = S754_finite false mq eq
    /\ 2 ^ 52 <= Zpos mq < 2 ^ 53
    /\ e1 - e2 - 53 <= eq <= e1 - e2 - 51
    /\ Zpos mq * 2 ^ (eq - c) <= Zpos one_m * 2 ^ (-52 - c).
Proof.
  intros H1 H2 He1 He2 Hd Hc Hle.
  assert (Hd1 : Zpos (digits2_pos m1) = 53) by (apply digits2_pos_unique; simpl; lia).
  assert (Hd2 : Zpos (digits2_pos m2) = 53) by (apply digits2_pos_unique; simpl; lia).
  unfold SFdiv, SFdiv_core_binary. simpl Zdigits2. rewrite Hd1, Hd2.
  rewrite fexp_normal by lia.
  replace (Z.min (53 + e1 - (53 + e2) - 53) (e1 - e2)) with (e1 - e2 - 53) by lia.
  replace (e1 - e2 - (e1 - e2 - 53)) with 53 by lia. cbv beta iota.
  rewrite Z.shiftl_mul_pow2 by lia.
  pose proof (Z_div_mod (Zpos m1 * 2 ^ 53) (Zpos m2) ltac:(lia)) as Hdm.
  destruct (Z.div_eucl (Zpos m1 * 2 ^ 53) (Zpos m2)) as [q r]. destruct Hdm as [Eq Hr].
  simpl xorb.
  set (P53 := 2 ^ 53) in *. set (P52 := 2 ^ 52) in *.
  assert (HP : P53 = 2 * P52) by done. assert (HP52 : 0 < P52) by done.
  assert (Hq : P52 <= q < 4 * P52).
  { clearbody P53 P52. split.
    - destruct (Z_lt_le_dec q P52); [| done]. exfalso.
      assert (Zpos m2 * (q + 1) <= Zpos m2 * P52) by (apply Z.mul_le_mono_nonneg_l; lia).
      assert (P52 * P53 <= Zpos m1 * P53) by (apply Z.mul_le_mono_nonneg_r; lia).
      assert (Zpos m2 * P52 < P53 * P52) by (apply Z.mul_lt_mono_pos_r; lia).
      lia.
    - destruct (Z_lt_le_dec q (4 * P52)); [done |]. exfalso.
      assert (Zpos m2 * (4 * P52) <= Zpos m2 * q) by (apply Z.mul_le_mono_nonneg_l; lia).
      assert (P52 * (4 * P52) <= Zpos m2 * (4 * P52)) by (apply Z.mul_le_mono_nonneg_r; lia).
      assert (Zpos m1 * P53 < P53 * P53) by (apply Z.mul_lt_mono_pos_r; lia).
      nia. }
  destruct q as [| pq | pq]; [lia | | lia].
  pose proof (digits2_pos_bounds pq) as Hdq. set (dq := Zpos (digits2_pos pq)) in *.
  assert (Hdq' : 53 <= dq <= 54).
  { split.
    - destruct (Z_lt_le_dec dq 53); [| done]. exfalso.
      assert (2 ^ dq <= 2 ^ 52) by (apply Z.pow_le_mono_r; lia). fold P52 in H. lia.
    - destruct (Z_lt_le_dec 54 dq); [| lia]. exfalso.
      assert (2 ^ 54 <= 2 ^ (dq - 1)) by (apply Z.pow_le_mono_r; lia).
      change (2 ^ 54) with (4 * P52) in H. lia. }
  destruct (binary_round_aux_le pq (e1 - e2 - 53) (new_location (Zpos m2) r) one_m (-52) c)
    as (mq & eq & E & Hmq & Heq & Hv); fold dq; try lia.
  - rewrite one_m_eq. fold P52 P53. lia.
  - rewrite is_exact_new_location, one_m_eq. fold P52.
    set (K := 2 ^ (53 + e2 - e1)).
    assert (HK : 0 < K) by (apply Z.pow_pos_nonneg; lia).
    set (A := 2 ^ (e1 - c)) in *.
    assert (HA : 0 < A) by (apply Z.pow_pos_nonneg; lia).
    assert (EK : P53 * 2 ^ (e2 - c) = K * A).
    { unfold P53, K, A. rewrite <- !Z.pow_add_r by lia. f_equal. lia. }
    assert (HmK : Zpos m1 * P53 <= Zpos m2 * K).
    { apply (Z.mul_le_mono_pos_r _ _ A); [done |].
      assert (Zpos m1 * A * P53 <= Zpos m2 * 2 ^ (e2 - c) * P53)
        by (apply Z.mul_le_mono_nonneg_r; lia).
      replace (Zpos m2 * K * A) with (Zpos m2 * (K * A)) by lia. rewrite <- EK. lia. }
    assert (HqK : Zpos pq + (if r =? 0 then 0 else 1) <= K).
    { destruct (Z.eqb_spec r 0) as [-> | Hne].
      - assert (Zpos m2 * Zpos pq <= Zpos m2 * K) by lia.
        apply Z.mul_le_mono_pos_l in H; lia.
      - assert (Zpos m2 * Zpos pq < Zpos m2 * K) by lia.
        apply Z.mul_lt_mono_pos_l in H; lia. }
    assert (EKc : K * 2 ^ (e1 - e2 - 53 - c) = P52 * 2 ^ (-52 - c)).
    { unfold K, P52. rewrite <- !Z.pow_add_r by lia. f_equal. lia. }
    rewrite <- EKc. apply Z.mul_le_mono_nonneg_r; [| done].
    apply Z.pow_nonneg. lia.
  - exists mq, eq. split; [done |]. split; [done |]. split; [lia | done].
Qed.

Lemma shl_align_value m e e' :
  e' <= e -> (shl_align m e e').2 = e' /\ Zpos (shl_align m e e').1 = Zpos m * 2 ^ (e - e').
Proof.
  intros He. unfold shl_align. destruct (e' - e) as [| k | k] eqn:Ek; [| lia |]; simpl.
  - assert (e' = e) as -> by lia. rewrite Z.sub_diag. simpl. split; [done | lia].
  - rewrite iter_xO. split; [done |]. f_equal. f_equal. lia.
Qed.

Lemma pow2_le_inv a b : 2 ^ a <= 2 ^ b -> 0 <= a -> a <= b.
Proof.
  intros H Ha. destruct (Z_lt_le_dec b a) as [Hlt |]; [| done]. exfalso.
  destruct (Z_lt_le_dec b 0).
  - rewrite (Z.pow_neg_r 2 b) in H by done.
    pose proof (Z.pow_pos_nonneg 2 a ltac:(lia) Ha). lia.
  - assert (2 ^ b < 2 ^ a) by (apply Z.pow_lt_mono_r; lia). lia.
Qed.

(** [1 - q] for a normal double [q <= 1] is zero or a double at most 1. *)
Lemma SFsub_one_le (mq : positive) (eq c : Z) :
  2 ^ 52 <= Zpos mq < 2 ^ 53 -> -100 <= eq <= 10 -> c <= -300 ->
  Zpos mq * 2 ^ (eq - c) <= Zpos one_m * 2 ^ (-52 - c) ->
  SFsub prec emax (S754_finite false one_m (-52)) (S754_finite false mq eq) = S754_zero false
  \/ exists ms es,
       SFsub prec emax (S754_finite false one_m (-52)) (S754_finite false mq eq)
         = S754_finite false ms es
       /\ 2 ^ 52 <= Zpos ms < 2 ^ 53
       /\ -153 <= es <= 78
       /\ Zpos ms * 2 ^ (es - c) <= Zpos one_m * 2 ^ (-52 - c).
Proof.
  intros Hmq Heq Hc Hle.
  set (A := 2 ^ (eq - c)) in *.
  assert (HA : 0 < A) by (apply Z.pow_pos_nonneg; lia).
  assert (Heq52 : eq <= -52).
  { assert (Zpos one_m * A <= Zpos mq * A) by (apply Z.mul_le_mono_nonneg_r; rewrite ?one_m_eq; lia).
    assert (2 ^ (eq - c) <= 2 ^ (-52 - c)).
    { fold A. apply (Z.mul_le_mono_pos_l _ _ (Zpos one_m)); lia. }
    apply pow2_le_inv in H0; lia. }
  unfold SFsub. replace (Z.min (-52) eq) with eq by lia.
  destruct (shl_align_value one_m (-52) eq ltac:(lia)) as [_ E1].
  destruct (shl_align_value mq eq eq ltac:(lia)) as [_ E2].
  rewrite Z.sub_diag, Z.pow_0_r, Z.mul_1_r in E2.
  unfold cond_Zopp. rewrite E1, E2.
  set (K := 2 ^ (-52 - eq)) in *.
  assert (HK : 0 < K) by (apply Z.pow_pos_nonneg; lia).
  assert (EK : 2 ^ (-52 - c) = K * A).
  { unfold K, A. rewrite <- Z.pow_add_r by lia. f_equal. lia. }
  assert (HD : Zpos mq <= Zpos one_m * K).
  { apply (Z.mul_le_mono_pos_r _ _ A); [done |]. rewrite EK in Hle. lia. }
  assert (HKb : Zpos one_m * K < 2 ^ 120).
  { rewrite one_m_eq. unfold K. rewrite <- Z.pow_add_r by lia.
    apply Z.pow_lt_mono_r; lia. }
  destruct (Zpos one_m * K - Zpos mq) as [| pd | pd] eqn:ED; [by left | | lia].
  right. simpl binary_normalize.
  assert (Hpd : Zpos pd * 2 ^ (eq - c) <= Zpos one_m * 2 ^ (-52 - c)).
  { rewrite EK. fold A.
    assert (Zpos pd * A <= Zpos one_m * K * A) by (apply Z.mul_le_mono_nonneg_r; lia).
    lia. }
  assert (Hone : 2 ^ 52 <= Zpos one_m < 2 ^ 53) by done.
  destruct (binary_round_le pd eq one_m (-52) c) as (ms & es & E & Hms & Hes & Hv);
    try done; try lia.
  exists ms, es. split; [done |]. split; [done |]. split; [lia | done].
Qed.

Definition hundred_m : positive := 7036874417766400.

(** [100 * s] for a normal double [s <= 1] lies between 0 and 100. *)
Lemma SFmul_hundred_le (ms : positive) (es c : Z) :
  2 ^ 52 <= Zpos ms < 2 ^ 53 -> -200 <= es <= 100 -> c <= -300 ->
  Zpos ms * 2 ^ (es - c) <= Zpos one_m * 2 ^ (-52 - c) ->
  SFleb (SFmul prec emax (S754_finite false hundred_m (-46)) (S754_finite false ms es))
        (S754_finite false hundred_m (-46)) = true
  /\ SFleb (S754_zero false)
        (SFmul prec emax (S754_finite false hundred_m (-46)) (S754_finite false ms es)) = true.
Proof.
  intros Hms Hes Hc Hle. unfold SFmul. simpl xorb.
  assert (Hh : 2 ^ 52 <= Zpos hundred_m < 2 ^ 53) by done.
  set (P52 := 2 ^ 52) in *. set (P53 := 2 ^ 53) in *.
  assert (HP : P53 = 2 * P52) by done. assert (HP52 : 0 < P52) by done.
  assert (HP104 : 2 ^ 104 = P52 * P52) by done.
  assert (HP106 : 2 ^ 106 = P53 * P53) by done.
  pose proof (digits2_pos_bounds (hundred_m * ms)) as Hd.
  set (d := Zpos (digits2_pos (hundred_m * ms))) in *.
  rewrite Pos2Z.inj_mul in Hd.
  assert (Hprod : 2 ^ 104 <= Zpos hundred_m * Zpos ms < 2 ^ 106).
  { rewrite HP104, HP106. clearbody P52 P53. split.
    - assert (P52 * P52 <= Zpos hundred_m * P52) by (apply Z.mul_le_mono_nonneg_r; lia).
      assert (Zpos hundred_m * P52 <= Zpos hundred_m * Zpos ms)
        by (apply Z.mul_le_mono_nonneg_l; lia). lia.
    - assert (Zpos hundred_m * Zpos ms < Zpos hundred_m * P53)
        by (apply Z.mul_lt_mono_pos_l; lia).
      assert (Zpos hundred_m * P53 <= P53 * P53) by (apply Z.mul_le_mono_nonneg_r; lia).
      lia. }
  assert (Hd' : 105 <= d <= 106).
  { split.
    - destruct (Z_lt_le_dec d 105); [| done]. exfalso.
      assert (2 ^ d <= 2 ^ 104) by (apply Z.pow_le_mono_r; lia). lia.
    - destruct (Z_lt_le_dec 106 d); [| lia]. exfalso.
      assert (2 ^ 106 <= 2 ^ (d - 1)) by (apply Z.pow_le_mono_r; lia). lia. }
  destruct (binary_round_aux_le (hundred_m * ms) (-46 + es) loc_Exact hundred_m (-46) (c - 46))
    as (mr & er & E & Hmr & Her & Hv); fold d; try lia.
  - simpl is_exact. rewrite Z.add_0_r, Pos2Z.inj_mul.
    replace (-46 + es - (c - 46)) with (es - c) by lia.
    replace (-46 - (c - 46)) with (52 + (-52 - c)) by lia.
    rewrite (Z.pow_add_r 2 52) by lia. fold P52. rewrite one_m_eq in Hle. fold P52 in Hle.
    set (X := 2 ^ (es - c)) in *. set (Y := 2 ^ (-52 - c)) in *. clearbody X Y P52 P53.
    assert (Zpos hundred_m * (Zpos ms * X) <= Zpos hundred_m * (P52 * Y))
      by (apply Z.mul_le_mono_nonneg_l; lia).
    lia.
  - rewrite E. split; [| done].
    apply (SFleb_normal mr er hundred_m (-46) (c - 46)); try done; lia.
Qed.

(** A positive [int] converts to the normal double of the same value. *)
Lemma Prim2SF_double_of_int (a : Z) :
  0 < a < 2 ^ 31 ->
  exists m e,
    Prim2SF (double_of_int a) = S754_finite false m e
    /\ 2 ^ 52 <= Zpos m < 2 ^ 53
    /\ -52 <= e <= -22
    /\ forall c, c <= -53 -> Zpos m * 2 ^ (e - c) = a * 2 ^ (0 - c).
Proof.
  intros Ha. unfold double_of_int.
  replace (a <? 0) with false by (symmetry; apply Z.ltb_ge; lia).
  rewrite of_uint63_spec, Uint63.of_Z_spec.
  rewrite Z.mod_small by (change wB with (2 ^ 63); change (2 ^ 31) with 2147483648 in Ha;
                          change (2 ^ 63) with 9223372036854775808; lia).
  destruct a as [| pa | pa]; [lia | | lia]. simpl binary_normalize.
  destruct (binary_round_exact pa 0 (-53)) as (m & e & E & Hm & He & Hv); try lia.
  exists m, e. split; [done |]. split; [done |].
  replace (e - -53) with (e + 53) in Hv by lia. change (0 - -53) with 53 in Hv.
  assert (Hpe : 0 < 2 ^ (e + 53)) by (apply Z.pow_pos_nonneg; lia).
  assert (He' : -52 <= e <= -22).
  { split.
    - destruct (Z.eq_dec e (-53)) as [-> |]; [| lia]. exfalso.
      change (2 ^ (-53 + 53)) with 1 in Hv.
      change (2 ^ 53) with 9007199254740992 in *. lia.
    - destruct (Z_lt_le_dec e (-21)); [lia |]. exfalso.
      assert (2 ^ 32 <= 2 ^ (e + 53)) by (apply Z.pow_le_mono_r; lia).
      assert (2 ^ 52 * 2 ^ 32 <= Zpos m * 2 ^ (e + 53)).
      { transitivity (2 ^ 52 * 2 ^ (e + 53)).
        - apply Z.mul_le_mono_nonneg_l; [done | lia].
        - apply Z.mul_le_mono_nonneg_r; lia. }
      change (2 ^ 52 * 2 ^ 32) with (2 ^ 31 * 2 ^ 53) in *.
      assert (Zpos pa * 2 ^ 53 < 2 ^ 31 * 2 ^ 53) by (apply Z.mul_lt_mono_pos_r; [done | lia]).
      lia. }
  split; [done |]. intros c Hc.
  replace (e - c) with ((e + 53) + (-53 - c)) by lia.
  replace (0 - c) with (53 + (-53 - c)) by lia.
  rewrite (Z.pow_add_r 2 (e + 53)), (Z.pow_add_r 2 53) by lia. rewrite !Z.mul_assoc, Hv. done.
Qed.

Lemma used_percent_range (a t : Z) :
  0 <= a <= t -> 0 < t < 2 ^ 31 -> percent (used_percent a t).
Proof.
  intros Ha Ht. unfold percent, used_percent.
  rewrite !leb_spec, mul_spec, sub_spec, div_spec.
  unfold SF64mul, SF64sub, SF64div.
  change (Prim2SF 100%float) with (S754_finite false hundred_m (-46)).
  change (Prim2SF 1%float) with (S754_finite false one_m (-52)).
  change (Prim2SF 0%float) with (S754_zero false).
  destruct (Prim2SF_double_of_int t Ht) as (m2 & e2 & -> & Hm2 & He2 & Hv2).
  destruct (Z.eq_dec a 0) as [-> | Hne].
  - change (Prim2SF (double_of_int 0)) with (S754_zero false). by vm_compute.
  - destruct (Prim2SF_double_of_int a ltac:(lia)) as (m1 & e1 & -> & Hm1 & He1 & Hv1).
    destruct (SFdiv_le_one m1 e1 m2 e2 (-300)) as (mq & eq & -> & Hmq & Heq & Hvq);
      try done; try lia.
    { rewrite Hv1, Hv2 by lia. apply Z.mul_le_mono_nonneg_r; [| lia].
      apply Z.pow_nonneg. lia. }
    destruct (SFsub_one_le mq eq (-300) Hmq ltac:(lia) ltac:(lia) Hvq)
      as [-> | (ms & es & -> & Hms & Hes & Hvs)].
    + split; reflexivity.
    + destruct (SFmul_hundred_le ms es (-300) Hms ltac:(lia) ltac:(lia) Hvs) as [H1 H2].
      by split.
Qed.

Lemma SFdiv_self (m : positive) (e : Z) :
  2 ^ 52 <= Zpos m < 2 ^ 53 -> -100 <= e <= 0 ->
  SFdiv prec emax (S754_finite false m e) (S754_finite false m e)
    = S754_finite false one_m (-52).
Proof.
  intros Hm He.
  assert (Hd : Zpos (digits2_pos m) = 53) by (apply digits2_pos_unique; simpl; lia).
  unfold SFdiv, SFdiv_core_binary. simpl Zdigits2. rewrite Hd.
  rewrite fexp_normal by lia.
  replace (Z.min (53 + e - (53 + e) - 53) (e - e)) with (-53) by lia.
  replace (e - e - -53) with 53 by lia. cbv beta iota.
  rewrite Z.shiftl_mul_pow2 by lia.
  pose proof (Z_div_mod (Zpos m * 2 ^ 53) (Zpos m) ltac:(lia)) as Hdm.
  destruct (Z.div_eucl (Zpos m * 2 ^ 53) (Zpos m)) as [q r]. destruct Hdm as [Eq Hr].
  assert (q = 2 ^ 53 /\ r = 0) as [-> ->].
  { set (P := 2 ^ 53) in *. clearbody P.
    assert (Zpos m * (P - q) = r) by lia.
    destruct (Z.eq_dec q P) as [-> |]; [lia |]. exfalso.
    destruct (Z_lt_le_dec q P).
    - assert (Zpos m * 1 <= Zpos m * (P - q)) by (apply Z.mul_le_mono_nonneg_l; lia). lia.
    - assert (Zpos m * (P - q) <= Zpos m * (-1)) by (apply Z.mul_le_mono_nonneg_l; lia). lia. }
  replace (new_location (Zpos m) 0) with loc_Exact
    by (unfold new_location; by destruct (Z.even (Zpos m))).
  by vm_compute.
Qed.

Lemma used_percent_full (t : Z) : 0 < t < 2 ^ 31 -> used_percent t t = 0%float.
Proof.
  intros Ht. apply Prim2SF_inj. unfold used_percent.
  rewrite mul_spec, sub_spec, div_spec. unfold SF64mul, SF64sub, SF64div.
  destruct (Prim2SF_double_of_int t Ht) as (m & e & -> & Hm & He & _).
  rewrite SFdiv_self by (try done; lia). by vm_compute.
Qed.

(** C9, as the claim states it, fails: utilization is a percentage only
    while the node invariant holds.  After [freeResources] has pushed the
    available cores to 25 of 24, the CPU utilization is negative. *)
Lemma utilization_negative_counterexample :
  let n := WorkerNode.freeResources (WorkerNode.make 0) (Job.make 1 1 1 1 1) in
  PrimFloat.ltb (WorkerNode.getCpuUtilization n) 0%float = true
  /\ ~ percent (WorkerNode.getCpuUtilization n).
Proof.
  split; [by vm_compute |]. intros [H _]. by vm_compute in H.
Qed.

(** C9, as the source has it.  Both utilization functions compute
    [100 * (1 - available / total)] in double arithmetic from the two
    counters of their resource.  On a node that satisfies the invariant
    [0 <= available <= total], with a positive total, the result is a
    double between 0 and 100; on a node with everything available it is 0;
    and after a job of 12 cores and 32 GB was allocated on a fresh node of
    24 cores and 64 GB both are 50. *)
Theorem utilization_percent :
  (forall n,
      WorkerNode.getCpuUtilization n
        = used_percent (WorkerNode.availableCores n) (WorkerNode.totalCores n)
      /\ WorkerNode.getMemoryUtilization n
        = used_percent (WorkerNode.availableMemory n) (WorkerNode.totalMemory n))
  /\ (forall n,
        node_inv n -> node_typed n ->
        0 < WorkerNode.totalCores n -> 0 < WorkerNode.totalMemory n ->
        percent (WorkerNode.getCpuUtilization n)
        /\ percent (WorkerNode.getMemoryUtilization n))
  /\ (forall n,
        node_typed n ->
        0 < WorkerNode.totalCores n -> 0 < WorkerNode.totalMemory n ->
        WorkerNode.availableCores n = WorkerNode.totalCores n ->
        WorkerNode.availableMemory n = WorkerNode.totalMemory n ->
        WorkerNode.getCpuUtilization n = 0%float
        /\ WorkerNode.getMemoryUtilization n = 0%float)
  /\ (forall i job,
        Job.coresRequired job = 12 -> Job.memoryRequired job = 32 ->
        let n := (WorkerNode.allocateJob (WorkerNode.make i) job).2 in
        WorkerNode.getCpuUtilization n = 50%float
        /\ WorkerNode.getMemoryUtilization n = 50%float).
Proof.
  assert (Hint : forall z, int_range z -> z < 2 ^ 31).
  { unfold int_range, INT_MAX. intros z [_ H]. lia. }
  split; [done |]. split; [| split].
  - intros n [Hc Hm] [Htc Htm] Hpc Hpm. split; apply used_percent_range; auto.
  - intros n [Htc Htm] Hpc Hpm Ec Em.
    unfold WorkerNode.getCpuUtilization, WorkerNode.getMemoryUtilization.
    rewrite Ec, Em. split; apply used_percent_full; auto.
  - intros i job Ec Em. unfold WorkerNode.allocateJob. simpl. rewrite Ec, Em. done.
Qed.

(** ** The sample run *)

Example main_output :
  Scheduler.cout main
    = [Allocated 1 0; Allocated 4 0; Allocated 2 1; Allocated 5 1; Allocated 3 2]
  /\ Scheduler.pendingJobs main = []
  /\ Scheduler.jobQueueFCFS main = []
  /\ Scheduler.jobQueueSmallest main = []
  /\ Scheduler.jobQueueShortest main = [].
Proof. by vm_compute. Qed.

(** ** The theorems at concrete inputs *)


Lemma node_inv_admissible_witness :
  node_inv
    (run_ops (WorkerNode.make 0)
       [AllocateJob (Job.make 1 1 10 32 5); FreeResources (Job.make 1 1 10 32 5)]).
Proof.
  apply (node_inv_admissible (WorkerNode.make 0)
           [AllocateJob (Job.make 1 1 10 32 5); FreeResources (Job.make 1 1 10 32 5)]
           ltac:(unfold node_inv; simpl; lia)
           ltac:(unfold node_typed, int_range, INT_MIN, INT_MAX; simpl; lia)
           ltac:(vm_compute; intuition discriminate) 2%nat).
Defined.

Lemma allocateJobToNode_first_fit_witness :
  let s := scheduler_with [node_with 0 2 2; node_with 1 100 100] in
  let job := Job.make 7 0 5 5 1 in
  Scheduler.allocateJobToNode s job
  = (true, job,
     Scheduler.print (Allocated 7 1)
       (Scheduler.set_nodes
          (<[1%nat := (WorkerNode.allocateJob (node_with 1 100 100) job).2]>
             (Scheduler.nodes s)) s)).
Proof.
  refine (proj1 (allocateJobToNode_first_fit
                   (scheduler_with [node_with 0 2 2; node_with 1 100 100])
                   (Job.make 7 0 5 5 1) 1%nat (node_with 1 100 100) _ _ _)).
  - reflexivity.
  - unfold fits. simpl. lia.
  - intros [| k] n' Hk Hn'; [| lia]. injection Hn' as <-. unfold fits. simpl. lia.
Defined.

Lemma infeasible_job_ends_pending_witness :
  let wide := Job.make 1 0 30 10 1 in
  let s :=
    Scheduler.addJobToQueueShortest
      (Scheduler.addJobToQueueFCFS
         (Scheduler.addJobToQueueSmallest (Scheduler.make 2) (Job.make 2 0 4 4 1)) wide)
      (Job.make 3 0 20 60 2) in
  wide ∈ Scheduler.pendingJobs (run_drains [Shortest; FCFS; Smallest] s).
Proof.
  intros wide s.
  refine (proj1 (proj2 (infeasible_job_ends_pending s [Shortest; FCFS; Smallest] wide
                          _ _ _ _ _)) _).
  - apply (bool_decide_unpack _). by vm_compute.
  - apply (bool_decide_unpack _). by vm_compute.
  - apply (bool_decide_unpack _). by vm_compute.
  - apply (bool_decide_unpack _). by vm_compute.
  - apply (bool_decide_unpack _). by vm_compute.
  - apply (bool_decide_unpack _). by vm_compute.
Defined.

Lemma smallest_first_pop_order_witness :
  let j100 := Job.make 1 0 5 4 5 in
  let j10 := Job.make 2 0 1 5 2 in
  let j1000 := Job.make 3 0 10 10 10 in
  let s := foldl Scheduler.addJobToQueueSmallest (Scheduler.make 4) [j100; j10; j1000] in
  StronglySorted (fun a b => exact_product a < exact_product b)
    (priority_queue.pop_all SmallestJobFirst (Scheduler.jobQueueSmallest s)).
Proof.
  intros j100 j10 j1000 s.
  refine (proj1 (proj2 (smallest_first_pop_order (Scheduler.make 4) [j100; j10; j1000]
                          _ _ _))).
  - reflexivity.
  - apply (bool_decide_unpack _). by vm_compute.
  - apply (bool_decide_unpack _). by vm_compute.
Defined.

Lemma shortest_first_pop_order_witness :
  let j5 := Job.make 1 0 1 1 5 in
  let j2 := Job.make 2 0 1 1 2 in
  let j8 := Job.make 3 0 1 1 8 in
  let s := foldl Scheduler.addJobToQueueShortest (Scheduler.make 4) [j5; j2; j8] in
  StronglySorted (fun a b => Job.execTime a < Job.execTime b)
    (priority_queue.pop_all ShortestDurationFirst (Scheduler.jobQueueShortest s)).
Proof.
  intros j5 j2 j8 s.
  refine (proj1 (proj2 (shortest_first_pop_order (Scheduler.make 4) [j5; j2; j8] _ _))).
  - reflexivity.
  - apply (bool_decide_unpack _). by vm_compute.
Defined.

Lemma utilization_percent_witness :
  percent (WorkerNode.getCpuUtilization (node_with 0 10 10))
  /\ percent (WorkerNode.getMemoryUtilization (node_with 0 10 10)).
Proof.
  apply (proj1 (proj2 utilization_percent) (node_with 0 10 10)).
  - unfold node_inv. simpl. lia.
  - unfold node_typed, int_range, INT_MIN, INT_MAX. simpl. lia.
  - simpl. lia.
  - simpl. lia.
Defined.

Lemma SmallestJobFirst_exact_in_range_witness :
  SmallestJobFirst (Job.make 1 0 5 4 5) (Job.make 2 0 1 5 2) = true.
Proof.
  rewrite (proj1 (proj2 SmallestJobFirst_exact_in_range)
             (Job.make 1 0 5 4 5) (Job.make 2 0 1 5 2)).
  - reflexivity.
  - unfold int_range, INT_MIN, INT_MAX. vm_compute. intuition discriminate.
  - unfold int_range, INT_MIN, INT_MAX. vm_compute. intuition discriminate.
Defined.

(** * Further properties of the scheduler *)

(** ** Runs of the public interface *)

Definition addJobToQueue (p : Policy) : Scheduler.t -> Job.t -> Scheduler.t :=
  match p with
  | FCFS => Scheduler.addJobToQueueFCFS
  | Smallest => Scheduler.addJobToQueueSmallest
  | Shortest => Scheduler.addJobToQueueShortest
  end.

(** A call of one of the public methods that change a scheduler. *)
Inductive Action : Type :=
| Enqueue (p : Policy) (job : Job.t)
| Drain (p : Policy).

Definition act (s : Scheduler.t) (a : Action) : Scheduler.t :=
  match a with
  | Enqueue p job => addJobToQueue p s job
  | Drain p => schedule p s
  end.

Definition run_actions (acts : list Action) (s : Scheduler.t) : Scheduler.t :=
  fold_left act acts s.

(** The jobs a run enqueues. *)
Definition enqueued (acts : list Action) : list Job.t :=
  omap (fun a => match a with Enqueue _ job => Some job | Drain _ => None end) acts.

(** ** WorkerNode: freeing what was allocated *)

Lemma wrap_add_sub a c : wrap (wrap (a - c) + c) = wrap a.
Proof.
  destruct (wrap_eq (a - c)) as [k ->].
  replace (a - c + k * 2 ^ 32 + c) with (a + k * 2 ^ 32) by lia.
  apply wrap_shift.
Qed.

(** X1. [freeResources] undoes a successful [allocateJob]: on a node
    whose two counters are [int]s, allocating a job and then freeing the
    same job gives the node back as it was, whatever the job asks for. *)
Theorem freeResources_allocateJob (n : WorkerNode.t) (job : Job.t) :
  int_range (WorkerNode.availableCores n) ->
  int_range (WorkerNode.availableMemory n) ->
  (WorkerNode.allocateJob n job).1 = true ->
  WorkerNode.freeResources (WorkerNode.allocateJob n job).2 job = n.
Proof.
  intros Hc Hm Hok.
  destruct (decide (fits n job)) as [Hf | Hf].
  - rewrite (allocateJob_true _ _ Hf). unfold WorkerNode.freeResources. simpl.
    unfold int_add, int_sub. rewrite !wrap_add_sub, !wrap_id by done. by destruct n.
  - rewrite (allocateJob_false _ _ Hf) in Hok. discriminate.
Qed.

Lemma freeResources_allocateJob_witness :
  WorkerNode.freeResources
    (WorkerNode.allocateJob (WorkerNode.make 3) (Job.make 1 1 10 32 5)).2
    (Job.make 1 1 10 32 5)
  = WorkerNode.make 3.
Proof.
  apply (freeResources_allocateJob (WorkerNode.make 3) (Job.make 1 1 10 32 5)).
  - unfold int_range, INT_MIN, INT_MAX. simpl. lia.
  - unfold int_range, INT_MIN, INT_MAX. simpl. lia.
  - reflexivity.
Defined.

(** ** allocateJobToNode: when it succeeds *)

(** X2. [allocateJobToNode] returns [true] exactly when some node fits
    the job; when it returns [false] it has printed the failure line and
    changed nothing else: no node, no queue, and not the pending
    sequence. *)
Theorem allocateJobToNode_true_iff (s : Scheduler.t) (job : Job.t) :
  ((Scheduler.allocateJobToNode s job).1.1 = true
   <-> Exists (fun n => fits n job) (Scheduler.nodes s))
  /\ ((Scheduler.allocateJobToNode s job).1.1 = false ->
      (Scheduler.allocateJobToNode s job).2
        = Scheduler.print (NotAllocated (Job.id job)) s).
Proof.
  destruct (first_fit_cases (Scheduler.nodes s) job) as [(i & n & Hi & Hf & Hb) | Hnone].
  - rewrite (allocateJobToNode_fit s job i n Hi Hf Hb). simpl. split; [| discriminate].
    split; [| done]. intros _. apply Exists_exists. exists n. split; [| done].
    by eapply list_elem_of_lookup_2.
  - rewrite (allocateJobToNode_no_fit s job Hnone). simpl. split; [| done].
    split; [discriminate |]. intros Hex. exfalso.
    apply Exists_exists in Hex as (n & Hn & Hf). rewrite Forall_forall in Hnone.
    by apply (Hnone n Hn).
Qed.

(** ** The node pool under runs *)

(** What never changes in a node: its id and its two totals. *)
Definition node_frame (n : WorkerNode.t) : Z * Z * Z :=
  (WorkerNode.id n, WorkerNode.totalCores n, WorkerNode.totalMemory n).

Lemma place_or_defer_frame s job :
  node_frame <$> Scheduler.nodes (Scheduler.place_or_defer s job)
  = node_frame <$> Scheduler.nodes s.
Proof.
  destruct (place_or_defer_cases s job) as [(i & n & Hi & _ & _ & ->) | [_ ->]]; simpl;
    [| done].
  rewrite list_fmap_insert. apply list_insert_id. rewrite list_lookup_fmap, Hi. simpl.
  destruct (apply_op_totals n (AllocateJob job)) as (Ec & Em & Ei). simpl in Ec, Em, Ei.
  unfold node_frame. by rewrite Ec, Em, Ei.
Qed.

Lemma settle_frame q s :
  node_frame <$> Scheduler.nodes (settle q s) = node_frame <$> Scheduler.nodes s.
Proof.
  revert s. induction q as [| job q IH]; intros s; [done |].
  unfold settle. simpl. fold (settle q (Scheduler.place_or_defer s job)).
  by rewrite IH, place_or_defer_frame.
Qed.

Lemma schedule_nodes p s :
  Scheduler.nodes (schedule p s) = Scheduler.nodes (settle (served p s) s).
Proof. rewrite schedule_settle. by destruct p. Qed.

Lemma addJobToQueue_nodes p s job :
  Scheduler.nodes (addJobToQueue p s job) = Scheduler.nodes s.
Proof. by destruct p. Qed.

Lemma act_frame s a :
  node_frame <$> Scheduler.nodes (act s a) = node_frame <$> Scheduler.nodes s.
Proof.
  destruct a as [p job | p]; simpl.
  - by rewrite addJobToQueue_nodes.
  - by rewrite schedule_nodes, settle_frame.
Qed.

Lemma run_actions_nodes_frame acts s :
  node_frame <$> Scheduler.nodes (run_actions acts s) = node_frame <$> Scheduler.nodes s.
Proof.
  revert s. induction acts as [| a acts IH]; intros s; [done |].
  simpl. fold (run_actions acts (act s a)). by rewrite IH, act_frame.
Qed.

Lemma run_actions_nodes_length acts s :
  length (Scheduler.nodes (run_actions acts s)) = length (Scheduler.nodes s).
Proof.
  pose proof (f_equal length (run_actions_nodes_frame acts s)) as H.
  by rewrite !length_fmap in H.
Qed.

(** X3. No run of enqueues and drains resizes or reorders the node pool or
    touches a node's id or totals: the ids, [totalCores] and [totalMemory]
    of the nodes, position by position, are after the run what they were
    before. *)
Theorem run_actions_frame (acts : list Action) (s : Scheduler.t) :
  node_frame <$> Scheduler.nodes (run_actions acts s) = node_frame <$> Scheduler.nodes s
  /\ length (Scheduler.nodes (run_actions acts s)) = length (Scheduler.nodes s).
Proof.
  split; [apply run_actions_nodes_frame | apply run_actions_nodes_length].
Qed.

Lemma make_nodes (numNodes : Z) :
  node_frame <$> Scheduler.nodes (Scheduler.make numNodes)
  = (fun i : nat => (Z.of_nat i, 24, 64)) <$> seq 0 (Z.to_nat numNodes).
Proof.
  unfold Scheduler.make. simpl.
  change (map (fun i : nat => WorkerNode.make (Z.of_nat i)))
    with (fmap (M := list) (fun i : nat => WorkerNode.make (Z.of_nat i))).
  by rewrite <- list_fmap_compose.
Qed.

(** X4. The report of a scheduler built by [Scheduler(numNodes)] has,
    after any run of enqueues and drains, one row per node, and the row at
    position [k] carries the id [k]: the ids read 0, 1, ..., numNodes - 1
    in this order.  A [numNodes] that is not positive gives an empty
    report. *)
Theorem report_rows (numNodes : Z) (acts : list Action) :
  let rows :=
    Scheduler.generateUtilizationReport (run_actions acts (Scheduler.make numNodes)) in
  length rows = Z.to_nat numNodes
  /\ (fun row => row.1.1) <$> rows = Z.of_nat <$> seq 0 (Z.to_nat numNodes).
Proof.
  intros rows. subst rows. unfold Scheduler.generateUtilizationReport.
  pose proof (run_actions_nodes_frame acts (Scheduler.make numNodes)) as Hframe.
  pose proof (run_actions_nodes_length acts (Scheduler.make numNodes)) as Hlen.
  split.
  - rewrite length_map, Hlen. unfold Scheduler.make. simpl.
    by rewrite length_map, length_seq.
  - apply (f_equal (fmap (fun f : Z * Z * Z => f.1.1))) in Hframe.
    rewrite make_nodes, <- !list_fmap_compose in Hframe.
    change (map ?f ?l) with (f <$> l). rewrite <- list_fmap_compose. exact Hframe.
Qed.

(** ** What runs with non-negative requirements keep *)

(** Node by node, [ns'] has no more available than [ns]. *)
Definition no_more_available (ns' ns : list WorkerNode.t) : Prop :=
  Forall2 (fun n' n =>
             WorkerNode.availableCores n' <= WorkerNode.availableCores n
             /\ WorkerNode.availableMemory n' <= WorkerNode.availableMemory n) ns' ns.

Lemma no_more_available_refl ns : no_more_available ns ns.
Proof. apply Forall_Forall2_diag, Forall_forall. intros; lia. Qed.

Lemma no_more_available_trans ns1 ns2 ns3 :
  no_more_available ns1 ns2 -> no_more_available ns2 ns3 -> no_more_available ns1 ns3.
Proof.
  unfold no_more_available. intros H12 H23.
  eapply Forall2_trans; [| exact H12 | exact H23]. simpl. intros; lia.
Qed.

Lemma allocateJob_no_more n job :
  node_inv n -> node_typed n -> job_nonneg job ->
  WorkerNode.availableCores (WorkerNode.allocateJob n job).2 <= WorkerNode.availableCores n
  /\ WorkerNode.availableMemory (WorkerNode.allocateJob n job).2
     <= WorkerNode.availableMemory n.
Proof.
  intros [Hic Him] [Htc Htm] [Hc Hm].
  destruct (decide (fits n job)) as [Hf | Hf].
  - rewrite (allocateJob_true _ _ Hf). destruct Hf as [Hfc Hfm]. simpl.
    unfold int_sub, int_range, INT_MIN, INT_MAX in *.
    rewrite !wrap_id by (unfold int_range, INT_MIN, INT_MAX; lia). lia.
  - rewrite (allocateJob_false _ _ Hf). simpl. lia.
Qed.

Lemma place_or_defer_no_more s job :
  nodes_ok (Scheduler.nodes s) -> job_nonneg job ->
  no_more_available (Scheduler.nodes (Scheduler.place_or_defer s job)) (Scheduler.nodes s).
Proof.
  intros [Hinv Hty] Hjob.
  destruct (place_or_defer_cases s job) as [(i & n & Hi & _ & _ & ->) | [_ ->]]; simpl;
    [| apply no_more_available_refl].
  rewrite <- (list_insert_id (Scheduler.nodes s) i n Hi) at 2.
  apply Forall2_insert; [apply no_more_available_refl |].
  apply allocateJob_no_more; [| | done].
  - exact (Forall_lookup_1 _ _ _ _ Hinv Hi).
  - exact (Forall_lookup_1 _ _ _ _ Hty Hi).
Qed.

Lemma no_fit_no_more ns' ns job :
  no_more_available ns' ns ->
  Forall (fun n => ~ fits n job) ns -> Forall (fun n => ~ fits n job) ns'.
Proof.
  induction 1 as [| n' n ns' ns [Hc Hm] _ IH]; intros Hno; [constructor |].
  apply Forall_cons in Hno as [Hn Hno]. constructor; [| by apply IH].
  unfold fits in *. lia.
Qed.

(** What a drain does to the pool when no job asks for a negative amount:
    the nodes stay within their bounds and lose availability only, and
    every job it defers is one that no node fits at the end either. *)
Lemma settle_deferred q s :
  nodes_ok (Scheduler.nodes s) -> Forall job_nonneg q ->
  nodes_ok (Scheduler.nodes (settle q s))
  /\ no_more_available (Scheduler.nodes (settle q s)) (Scheduler.nodes s)
  /\ exists d,
       Scheduler.pendingJobs (settle q s) = Scheduler.pendingJobs s ++ d
       /\ Forall (fun job => Forall (fun n => ~ fits n job) (Scheduler.nodes (settle q s))) d.
Proof.
  revert s. induction q as [| job q IH]; intros s Hok Hq.
  - split; [done |]. split; [apply no_more_available_refl |].
    exists []. by rewrite app_nil_r.
  - apply Forall_cons in Hq as [Hjob Hq].
    unfold settle. simpl. fold (settle q (Scheduler.place_or_defer s job)).
    destruct (place_or_defer_nodes_ok s job Hok Hjob) as [Hok1 _].
    pose proof (place_or_defer_no_more s job Hok Hjob) as Hle1.
    destruct (IH (Scheduler.place_or_defer s job) Hok1 Hq) as (Hok2 & Hle2 & d & Ed & Hd).
    split; [done |]. split; [by eapply no_more_available_trans |].
    rewrite Ed.
    destruct (place_or_defer_cases s job) as [(i & n & _ & _ & _ & E) | [Hnone E]].
    + exists d. split; [| done]. by rewrite E.
    + exists (job :: d). split.
      * rewrite E. simpl. by rewrite <- app_assoc.
      * constructor; [| done]. apply (no_fit_no_more _ _ _ Hle2).
        by rewrite E.
Qed.

(** The queues hold no job with a negative requirement. *)
Definition queues_nonneg (s : Scheduler.t) : Prop :=
  forall p, Forall job_nonneg (queue_of p s).

Lemma act_ok s a :
  nodes_ok (Scheduler.nodes s) -> queues_nonneg s ->
  Forall job_nonneg (enqueued [a]) ->
  nodes_ok (Scheduler.nodes (act s a))
  /\ queues_nonneg (act s a)
  /\ no_more_available (Scheduler.nodes (act s a)) (Scheduler.nodes s).
Proof.
  intros Hok Hq Ha. destruct a as [p job | p]; simpl.
  - rewrite addJobToQueue_nodes. split; [done |]. split; [| apply no_more_available_refl].
    simpl in Ha. apply Forall_cons in Ha as [Hjob _].
    intros p'. specialize (Hq p').
    destruct p, p'; simpl in *; try done.
    + apply Forall_app. split; [done | by constructor].
    + rewrite (push_perm SmallestJobFirst job (Scheduler.jobQueueSmallest s)).
      by constructor.
    + rewrite (push_perm ShortestDurationFirst job (Scheduler.jobQueueShortest s)).
      by constructor.
  - rewrite schedule_nodes.
    pose proof (Hq p) as Hqp. rewrite <- (served_perm p s) in Hqp.
    destruct (settle_deferred (served p s) s Hok Hqp) as (Hok' & Hle & _).
    split; [done |]. split; [| done].
    intros p'. rewrite schedule_settle.
    destruct (decide (p' = p)) as [-> | Hne].
    + rewrite queue_of_set_queue. constructor.
    + rewrite queue_of_set_queue_ne, queue_of_settle by done. apply Hq.
Qed.

Lemma enqueued_cons a acts : enqueued (a :: acts) = enqueued [a] ++ enqueued acts.
Proof. unfold enqueued. simpl. by destruct a. Qed.

Lemma run_actions_ok acts s :
  nodes_ok (Scheduler.nodes s) -> queues_nonneg s ->
  Forall job_nonneg (enqueued acts) ->
  nodes_ok (Scheduler.nodes (run_actions acts s))
  /\ queues_nonneg (run_actions acts s)
  /\ no_more_available (Scheduler.nodes (run_actions acts s)) (Scheduler.nodes s).
Proof.
  revert s. induction acts as [| a acts IH]; intros s Hok Hq Hacts.
  - split; [done |]. split; [done | apply no_more_available_refl].
  - rewrite enqueued_cons in Hacts. apply Forall_app in Hacts as [Ha Hacts].
    destruct (act_ok s a Hok Hq Ha) as (Hok1 & Hq1 & Hle1).
    simpl. fold (run_actions acts (act s a)).
    destruct (IH (act s a) Hok1 Hq1 Hacts) as (Hok2 & Hq2 & Hle2).
    split; [done |]. split; [done |]. by eapply no_more_available_trans.
Qed.

(** X5. A run of enqueues and drains that starts from nodes within their
    bounds and handles no job with a negative requirement only consumes
    capacity: node by node, the available cores and the available memory
    after the run are at most what they were before, and they are still
    between zero and the totals. *)
Theorem run_actions_consumes (acts : list Action) (s : Scheduler.t) :
  Forall node_inv (Scheduler.nodes s) ->
  Forall node_typed (Scheduler.nodes s) ->
  Forall job_nonneg
    (Scheduler.jobQueueFCFS s ++ Scheduler.jobQueueSmallest s ++ Scheduler.jobQueueShortest s) ->
  Forall job_nonneg (enqueued acts) ->
  no_more_available (Scheduler.nodes (run_actions acts s)) (Scheduler.nodes s)
  /\ Forall node_inv (Scheduler.nodes (run_actions acts s)).
Proof.
  intros Hinv Hty Hq Hacts.
  assert (Hq' : queues_nonneg s).
  { rewrite !Forall_app in Hq. destruct Hq as (? & ? & ?). by intros []. }
  destruct (run_actions_ok acts s (conj Hinv Hty) Hq' Hacts) as ((Hinv' & _) & _ & Hle).
  by split.
Qed.

Lemma make_nodes_ok numNodes : nodes_ok (Scheduler.nodes (Scheduler.make numNodes)).
Proof.
  unfold Scheduler.make. simpl. split; apply Forall_forall; intros n Hn;
    apply list_elem_of_In, in_map_iff in Hn as (i & <- & _).
  - unfold node_inv. simpl. lia.
  - unfold node_typed, int_range, INT_MIN, INT_MAX. simpl. lia.
Qed.

(** X6. Every row of the report of a scheduler built by
    [Scheduler(numNodes)] carries two percentages between 0 and 100, after
    any run of enqueues and drains in which no enqueued job has a negative
    requirement. *)
Theorem report_rows_percent (numNodes : Z) (acts : list Action) :
  Forall job_nonneg (enqueued acts) ->
  Forall (fun row => percent row.1.2 /\ percent row.2)
    (Scheduler.generateUtilizationReport (run_actions acts (Scheduler.make numNodes))).
Proof.
  intros Hacts. unfold Scheduler.generateUtilizationReport.
  destruct (run_actions_ok acts (Scheduler.make numNodes) (make_nodes_ok numNodes)
              ltac:(by intros []) Hacts) as ((Hinv & Hty) & _ & _).
  pose proof (run_actions_nodes_frame acts (Scheduler.make numNodes)) as Hframe.
  rewrite make_nodes in Hframe.
  set (ns := Scheduler.nodes (run_actions acts (Scheduler.make numNodes))) in *.
  assert (Htot : Forall (fun n => WorkerNode.totalCores n = 24
                                  /\ WorkerNode.totalMemory n = 64) ns).
  { apply (Forall_fmap node_frame (fun f => f.1.2 = 24 /\ f.2 = 64)).
    rewrite Hframe. by apply Forall_fmap, Forall_forall. }
  apply Forall_forall. intros row Hrow.
  apply list_elem_of_In, in_map_iff in Hrow as (n & <- & Hn). apply list_elem_of_In in Hn.
  rewrite Forall_forall in Hinv, Hty, Htot.
  destruct (Hinv n Hn) as [Hc Hm], (Hty n Hn) as [Htc Htm], (Htot n Hn) as [Ec Em].
  assert (Hint : forall z, int_range z -> z < 2 ^ 31).
  { unfold int_range, INT_MAX. intros z [_ H]. lia. }
  simpl. unfold WorkerNode.getCpuUtilization, WorkerNode.getMemoryUtilization.
  split; apply used_percent_range; auto; lia.
Qed.

Lemma report_rows_percent_witness :
  Forall (fun row => percent row.1.2 /\ percent row.2)
    (Scheduler.generateUtilizationReport
       (run_actions [Enqueue FCFS (Job.make 1 1 10 32 5); Drain FCFS] (Scheduler.make 2))).
Proof.
  apply (report_rows_percent 2 [Enqueue FCFS (Job.make 1 1 10 32 5); Drain FCFS]).
  apply (bool_decide_unpack _). by vm_compute.
Defined.

Lemma run_actions_consumes_witness :
  no_more_available
    (Scheduler.nodes
       (run_actions [Enqueue FCFS (Job.make 1 1 10 32 5); Drain FCFS] (Scheduler.make 2)))
    (Scheduler.nodes (Scheduler.make 2)).
Proof.
  refine (proj1 (run_actions_consumes
                   [Enqueue FCFS (Job.make 1 1 10 32 5); Drain FCFS] (Scheduler.make 2)
                   _ _ _ _)).
  - apply (bool_decide_unpack _). by vm_compute.
  - apply (bool_decide_unpack _). by vm_compute.
  - apply (bool_decide_unpack _). by vm_compute.
  - apply (bool_decide_unpack _). by vm_compute.
Defined.

(** X7. Retrying is futile while nothing is freed: when the nodes are
    within their bounds and the drained queue holds no job with a negative
    requirement, no node of the scheduler as the drain leaves it fits any
    of the jobs that the drain appended to the pending sequence. *)
Theorem deferred_jobs_still_do_not_fit (p : Policy) (s : Scheduler.t) (d : list Job.t) :
  Forall node_inv (Scheduler.nodes s) ->
  Forall node_typed (Scheduler.nodes s) ->
  Forall job_nonneg (queue_of p s) ->
  Scheduler.pendingJobs (schedule p s) = Scheduler.pendingJobs s ++ d ->
  Forall (fun job => Forall (fun n => ~ fits n job) (Scheduler.nodes (schedule p s))) d.
Proof.
  intros Hinv Hty Hq Hd.
  rewrite <- (served_perm p s) in Hq.
  destruct (settle_deferred (served p s) s (conj Hinv Hty) Hq) as (_ & _ & d' & Ed & Hd').
  rewrite schedule_nodes.
  assert (Ep : Scheduler.pendingJobs (schedule p s)
               = Scheduler.pendingJobs (settle (served p s) s)).
  { rewrite schedule_settle. by destruct p. }
  rewrite Ep, Ed in Hd. apply app_inv_head in Hd as <-. exact Hd'.
Qed.

Lemma deferred_jobs_still_do_not_fit_witness :
  let s :=
    Scheduler.addJobToQueueFCFS
      (Scheduler.addJobToQueueFCFS (Scheduler.make 1) (Job.make 1 0 20 10 1))
      (Job.make 2 0 10 10 1) in
  Forall (fun job => Forall (fun n => ~ fits n job) (Scheduler.nodes (schedule FCFS s)))
    [Job.make 2 0 10 10 1].
Proof.
  intros s.
  apply (deferred_jobs_still_do_not_fit FCFS s [Job.make 2 0 10 10 1]).
  - apply (bool_decide_unpack _). by vm_compute.
  - apply (bool_decide_unpack _). by vm_compute.
  - apply (bool_decide_unpack _). by vm_compute.
  - by vm_compute.
Defined.

(** ** Order of service *)

Lemma enqueue_fcfs jobs s :
  Scheduler.jobQueueFCFS (foldl Scheduler.addJobToQueueFCFS s jobs)
    = Scheduler.jobQueueFCFS s ++ jobs
  /\ pool_of (foldl Scheduler.addJobToQueueFCFS s jobs) = pool_of s.
Proof.
  revert s. induction jobs as [| job jobs IH]; intros s; [by rewrite app_nil_r |].
  simpl. destruct (IH (Scheduler.addJobToQueueFCFS s job)) as [-> ->]. simpl.
  by rewrite <- app_assoc.
Qed.

(** X8. The FCFS queue is first in, first out: [scheduleJobsFCFS] offers
    the jobs that were already queued and then the jobs enqueued since, each
    group in the order of its [addJobToQueueFCFS] calls, one output line per
    job, every job placed by first fit or deferred. *)
Theorem fcfs_first_in_first_out (s0 : Scheduler.t) (jobs : list Job.t) :
  let s := foldl Scheduler.addJobToQueueFCFS s0 jobs in
  event_job <$> Scheduler.cout (Scheduler.scheduleJobsFCFS s)
    = (event_job <$> Scheduler.cout s0) ++ (Job.id <$> (Scheduler.jobQueueFCFS s0 ++ jobs))
  /\ settles (pool_of s0) (Scheduler.jobQueueFCFS s0 ++ jobs)
       (pool_of (Scheduler.scheduleJobsFCFS s)).
Proof.
  intros s. subst s. destruct (enqueue_fcfs jobs s0) as [Eq Ep].
  rewrite scheduleJobsFCFS_settle, Eq. split.
  - simpl. rewrite settle_cout. f_equal.
    by apply (f_equal (fun p : pool => event_job <$> p.2)) in Ep.
  - rewrite <- Ep.
    apply (settle_settles (Scheduler.jobQueueFCFS s0 ++ jobs)
             (foldl Scheduler.addJobToQueueFCFS s0 jobs)).
Qed.

(** X9. Whatever jobs are pushed, ties and overflowing products included,
    each priority queue hands out exactly the jobs that were pushed, in
    non-decreasing order of the key its comparator computes (the [int]
    product for the smallest-first queue, [execTime] for the
    shortest-first queue), and its drain offers them in that order. *)
Theorem priority_queues_pop_sorted (s0 : Scheduler.t) (jobs : list Job.t) :
  Scheduler.jobQueueSmallest s0 = [] ->
  Scheduler.jobQueueShortest s0 = [] ->
  (let s := foldl Scheduler.addJobToQueueSmallest s0 jobs in
   let popped := priority_queue.pop_all SmallestJobFirst (Scheduler.jobQueueSmallest s) in
   popped ≡ₚ jobs
   /\ StronglySorted (fun a b => gross_value a <= gross_value b) popped
   /\ event_job <$> Scheduler.cout (Scheduler.scheduleJobsSmallest s)
      = (event_job <$> Scheduler.cout s0) ++ (Job.id <$> popped))
  /\ (let s := foldl Scheduler.addJobToQueueShortest s0 jobs in
      let popped := priority_queue.pop_all ShortestDurationFirst (Scheduler.jobQueueShortest s) in
      popped ≡ₚ jobs
      /\ StronglySorted (fun a b => Job.execTime a <= Job.execTime b) popped
      /\ event_job <$> Scheduler.cout (Scheduler.scheduleJobsShortest s)
         = (event_job <$> Scheduler.cout s0) ++ (Job.id <$> popped)).
Proof.
  intros Hsm Hsh. split; intros s popped; subst s popped.
  - destruct (enqueue_smallest jobs s0) as [Hq Hout]. rewrite Hq, Hsm.
    destruct (pop_sorted gross_value jobs) as [Hperm Hsorted].
    split; [exact Hperm |]. split; [exact Hsorted |].
    rewrite scheduleJobsSmallest_settle. simpl. by rewrite settle_cout, Hout, Hq, Hsm.
  - destruct (enqueue_shortest jobs s0) as [Hq Hout]. rewrite Hq, Hsh.
    destruct (pop_sorted Job.execTime jobs) as [Hperm Hsorted].
    split; [exact Hperm |]. split; [exact Hsorted |].
    rewrite scheduleJobsShortest_settle. simpl. by rewrite settle_cout, Hout, Hq, Hsh.
Qed.

Lemma priority_queues_pop_sorted_witness :
  let tie1 := Job.make 1 0 2 3 4 in
  let tie2 := Job.make 2 0 3 2 4 in
  let small := Job.make 3 0 1 1 1 in
  let s := foldl Scheduler.addJobToQueueSmallest (Scheduler.make 1) [tie1; small; tie2] in
  StronglySorted (fun a b => gross_value a <= gross_value b)
    (priority_queue.pop_all SmallestJobFirst (Scheduler.jobQueueSmallest s)).
Proof.
  intros tie1 tie2 small s.
  refine (proj1 (proj2 (proj1 (priority_queues_pop_sorted (Scheduler.make 1)
                                 [tie1; small; tie2] _ _)))).
  - reflexivity.
  - reflexivity.
Defined.

(** ** Drains compose *)

Lemma set_queue_settle p q0 q s :
  settle q (set_queue p q0 s) = set_queue p q0 (settle q s).
Proof. destruct p; simpl; auto using settle_set_FCFS, settle_set_Smallest, settle_set_Shortest. Qed.

Lemma served_nil p s : queue_of p s = [] -> served p s = [].
Proof. destruct p; simpl; intros ->; [done | apply pop_all_nil | apply pop_all_nil]. Qed.

Lemma served_addJobToQueue p p' s job :
  p <> p' -> served p' (addJobToQueue p s job) = served p' s.
Proof. by destruct p, p'. Qed.

Lemma addJobToQueue_settle p q s job :
  settle q (addJobToQueue p s job) = addJobToQueue p (settle q s) job.
Proof.
  destruct (settle_queues q s) as (E1 & E2 & E3).
  destruct p; simpl;
    unfold Scheduler.addJobToQueueFCFS, Scheduler.addJobToQueueSmallest,
      Scheduler.addJobToQueueShortest;
    rewrite ?settle_set_FCFS, ?settle_set_Smallest, ?settle_set_Shortest, ?E1, ?E2, ?E3;
    reflexivity.
Qed.

Lemma addJobToQueue_set_queue p p' q s job :
  p <> p' ->
  addJobToQueue p (set_queue p' q s) job = set_queue p' q (addJobToQueue p s job).
Proof. by destruct p, p'. Qed.

(** X10. A drain leaves nothing for a second call: draining the same
    policy again right away changes nothing, neither the nodes nor the
    pending sequence nor the output.  In particular a drain of an empty
    queue is the identity. *)
Theorem schedule_twice (p : Policy) (s : Scheduler.t) :
  schedule p (schedule p s) = schedule p s
  /\ (queue_of p s = [] -> schedule p s = s).
Proof.
  assert (Hempty : forall s', queue_of p s' = [] -> schedule p s' = s').
  { intros s' E. rewrite schedule_settle, (served_nil p s' E). simpl.
    destruct p, s'; simpl in *; by rewrite E. }
  split; [| apply Hempty]. apply Hempty.
  rewrite schedule_settle. apply queue_of_set_queue.
Qed.

(** X11. The queues are independent: enqueueing a job for one policy and
    draining another policy commute, so a job waits untouched in its queue
    while other policies are drained. *)
Theorem enqueue_drain_commute (p p' : Policy) (s : Scheduler.t) (job : Job.t) :
  p <> p' ->
  schedule p' (addJobToQueue p s job) = addJobToQueue p (schedule p' s) job.
Proof.
  intros Hne. rewrite !schedule_settle.
  rewrite (served_addJobToQueue p p' s job Hne), addJobToQueue_settle.
  symmetry. by apply addJobToQueue_set_queue.
Qed.

Lemma enqueue_drain_commute_witness :
  let s := Scheduler.addJobToQueueFCFS (Scheduler.make 1) (Job.make 1 1 10 32 5) in
  schedule FCFS (addJobToQueue Shortest s (Job.make 3 3 20 48 2))
  = addJobToQueue Shortest (schedule FCFS s) (Job.make 3 3 20 48 2).
Proof.
  intros s.
  apply (enqueue_drain_commute Shortest FCFS s (Job.make 3 3 20 48 2)).
  discriminate.
Defined.

(** ** Accounting *)

Definition allocated_lines (out : list Event) : nat :=
  sum_list_with (fun e => match e with Allocated _ _ => 1 | NotAllocated _ => 0 end)%nat out.

Definition refused_lines (out : list Event) : nat :=
  sum_list_with (fun e => match e with Allocated _ _ => 0 | NotAllocated _ => 1 end)%nat out.

Lemma settle_lines q s :
  (allocated_lines (Scheduler.cout (settle q s)) + length (Scheduler.pendingJobs (settle q s))
   = allocated_lines (Scheduler.cout s) + length (Scheduler.pendingJobs s) + length q)%nat
  /\ (refused_lines (Scheduler.cout (settle q s)) + length (Scheduler.pendingJobs s)
      = refused_lines (Scheduler.cout s) + length (Scheduler.pendingJobs (settle q s)))%nat.
Proof.
  revert s. induction q as [| job q IH]; intros s; [simpl; lia |].
  unfold settle. simpl. fold (settle q (Scheduler.place_or_defer s job)).
  destruct (IH (Scheduler.place_or_defer s job)) as [H1 H2].
  set (s1 := Scheduler.place_or_defer s job) in *.
  assert (E : (allocated_lines (Scheduler.cout s1) + length (Scheduler.pendingJobs s1)
               = allocated_lines (Scheduler.cout s) + length (Scheduler.pendingJobs s) + 1
               /\ refused_lines (Scheduler.cout s1) + length (Scheduler.pendingJobs s)
                  = refused_lines (Scheduler.cout s) + length (Scheduler.pendingJobs s1))%nat).
  { subst s1.
    destruct (place_or_defer_cases s job) as [(i & n & _ & _ & _ & ->) | [_ ->]]; simpl;
      unfold allocated_lines, refused_lines;
      rewrite ?sum_list_with_app, ?length_app; simpl; lia. }
  lia.
Qed.

(** X12. No job is lost or served twice by a drain: the drain writes one
    line per job of its queue; the success lines and the jobs appended to
    the pending sequence add up to the jobs that were queued; and the
    failure lines are as many as the jobs appended. *)
Theorem drain_accounts_for_every_job (p : Policy) (s : Scheduler.t) :
  let s' := schedule p s in
  (allocated_lines (Scheduler.cout s') + length (Scheduler.pendingJobs s')
   = allocated_lines (Scheduler.cout s) + length (Scheduler.pendingJobs s)
     + length (queue_of p s))%nat
  /\ (refused_lines (Scheduler.cout s') + length (Scheduler.pendingJobs s)
      = refused_lines (Scheduler.cout s) + length (Scheduler.pendingJobs s'))%nat
  /\ length (Scheduler.cout s')
     = (length (Scheduler.cout s) + length (queue_of p s))%nat.
Proof.
  intros s'. subst s'. rewrite schedule_settle.
  destruct (settle_lines (served p s) s) as [H1 H2].
  pose proof (f_equal length (settle_cout (served p s) s)) as H3.
  rewrite length_app, !length_fmap in H3.
  rewrite (Permutation_length (served_perm p s)) in H1, H3.
  pose proof (set_queue_pool p [] (settle (served p s) s)) as Hpool.
  by injection Hpool as _ -> ->.
Qed.

(** The capacity left in a pool, for one of the two resources. *)
Definition capacity_left (f : WorkerNode.t -> Z) (ns : list WorkerNode.t) : Z :=
  foldr (fun n acc => f n + acc) 0 ns.

Lemma capacity_left_insert f (ns : list WorkerNode.t) (i : nat) n x :
  ns !! i = Some n ->
  capacity_left f (<[i := x]> ns) = capacity_left f ns - f n + f x.
Proof.
  revert i. induction ns as [| m ns IH]; intros i Hi; [done |].
  destruct i as [| i]; simpl in *.
  - injection Hi as ->. lia.
  - rewrite (IH i Hi). lia.
Qed.

Lemma total_of_app f l k : total_of f (l ++ k) = total_of f l + total_of f k.
Proof. induction l as [| x l IH]; simpl; lia. Qed.

Lemma settle_capacity q s :
  nodes_ok (Scheduler.nodes s) -> Forall job_nonneg q ->
  capacity_left WorkerNode.availableCores (Scheduler.nodes (settle q s))
    + total_of Job.coresRequired q + total_of Job.coresRequired (Scheduler.pendingJobs s)
  = capacity_left WorkerNode.availableCores (Scheduler.nodes s)
    + total_of Job.coresRequired (Scheduler.pendingJobs (settle q s))
  /\ capacity_left WorkerNode.availableMemory (Scheduler.nodes (settle q s))
    + total_of Job.memoryRequired q + total_of Job.memoryRequired (Scheduler.pendingJobs s)
  = capacity_left WorkerNode.availableMemory (Scheduler.nodes s)
    + total_of Job.memoryRequired (Scheduler.pendingJobs (settle q s)).
Proof.
  revert s. induction q as [| job q IH]; intros s Hok Hq; [simpl; lia |].
  apply Forall_cons in Hq as [Hjob Hq].
  unfold settle. simpl. fold (settle q (Scheduler.place_or_defer s job)).
  destruct (place_or_defer_nodes_ok s job Hok Hjob) as [Hok1 _].
  destruct (IH (Scheduler.place_or_defer s job) Hok1 Hq) as [Hc Hm].
  set (s1 := Scheduler.place_or_defer s job) in *.
  assert (E : capacity_left WorkerNode.availableCores (Scheduler.nodes s1)
                + Job.coresRequired job + total_of Job.coresRequired (Scheduler.pendingJobs s)
              = capacity_left WorkerNode.availableCores (Scheduler.nodes s)
                + total_of Job.coresRequired (Scheduler.pendingJobs s1)
              /\ capacity_left WorkerNode.availableMemory (Scheduler.nodes s1)
                + Job.memoryRequired job
                + total_of Job.memoryRequired (Scheduler.pendingJobs s)
              = capacity_left WorkerNode.availableMemory (Scheduler.nodes s)
                + total_of Job.memoryRequired (Scheduler.pendingJobs s1)).
  { subst s1.
    destruct (place_or_defer_cases s job) as [(i & n & Hi & Hf & _ & ->) | [_ ->]]; simpl.
    - rewrite !(capacity_left_insert _ _ _ _ _ Hi).
      destruct Hok as [Hinv Hty].
      destruct (Forall_lookup_1 _ _ _ _ Hinv Hi) as [Hic Him].
      destruct (Forall_lookup_1 _ _ _ _ Hty Hi) as [Htc Htm].
      destruct Hjob as [Hjc Hjm].
      rewrite (allocateJob_true _ _ Hf). destruct Hf as [Hfc Hfm]. simpl.
      unfold int_sub, int_range, INT_MIN, INT_MAX in *.
      rewrite !wrap_id by (unfold int_range, INT_MIN, INT_MAX; lia).
      lia.
    - rewrite !total_of_app. simpl. lia. }
  lia.
Qed.

(** X13. A drain conserves resources: when the nodes are within their
    bounds and no queued job has a negative requirement, the cores (and
    likewise the memory) that the drain takes from the nodes are exactly
    the cores asked for by the queued jobs that it did not append to the
    pending sequence. *)
Theorem drain_conserves_resources (p : Policy) (s : Scheduler.t) :
  Forall node_inv (Scheduler.nodes s) ->
  Forall node_typed (Scheduler.nodes s) ->
  Forall job_nonneg (queue_of p s) ->
  let s' := schedule p s in
  capacity_left WorkerNode.availableCores (Scheduler.nodes s')
    + total_of Job.coresRequired (queue_of p s)
    + total_of Job.coresRequired (Scheduler.pendingJobs s)
  = capacity_left WorkerNode.availableCores (Scheduler.nodes s)
    + total_of Job.coresRequired (Scheduler.pendingJobs s')
  /\ capacity_left WorkerNode.availableMemory (Scheduler.nodes s')
    + total_of Job.memoryRequired (queue_of p s)
    + total_of Job.memoryRequired (Scheduler.pendingJobs s)
  = capacity_left WorkerNode.availableMemory (Scheduler.nodes s)
    + total_of Job.memoryRequired (Scheduler.pendingJobs s').
Proof.
  intros Hinv Hty Hq s'. subst s'.
  rewrite <- (served_perm p s) in Hq.
  destruct (settle_capacity (served p s) s (conj Hinv Hty) Hq) as [Hc Hm].
  rewrite (total_of_perm _ _ _ (served_perm p s)) in Hc.
  rewrite (total_of_perm _ _ _ (served_perm p s)) in Hm.
  rewrite schedule_settle.
  pose proof (set_queue_pool p [] (settle (served p s) s)) as Hpool.
  by injection Hpool as -> -> _.
Qed.

Lemma drain_conserves_resources_witness :
  let s :=
    Scheduler.addJobToQueueFCFS
      (Scheduler.addJobToQueueFCFS (Scheduler.make 1) (Job.make 1 0 20 10 1))
      (Job.make 2 0 10 10 1) in
  capacity_left WorkerNode.availableCores (Scheduler.nodes (schedule FCFS s))
    + total_of Job.coresRequired (queue_of FCFS s)
    + total_of Job.coresRequired (Scheduler.pendingJobs s)
  = capacity_left WorkerNode.availableCores (Scheduler.nodes s)
    + total_of Job.coresRequired (Scheduler.pendingJobs (schedule FCFS s)).
Proof.
  intros s.
  refine (proj1 (drain_conserves_resources FCFS s _ _ _)).
  - apply (bool_decide_unpack _). by vm_compute.
  - apply (bool_decide_unpack _). by vm_compute.
  - apply (bool_decide_unpack _). by vm_compute.
Defined.

(** ** Utilization at the edges *)

Lemma used_percent_empty (t : Z) : 0 < t < 2 ^ 31 -> used_percent 0 t = 100%float.
Proof.
  intros Ht. apply Prim2SF_inj. unfold used_percent.
  rewrite mul_spec, sub_spec, div_spec. unfold SF64mul, SF64sub, SF64div.
  destruct (Prim2SF_double_of_int t Ht) as (m & e & -> & _).
  change (Prim2SF (double_of_int 0)) with (S754_zero false). by vm_compute.
Qed.

(** X14. A node with nothing left reports exactly 100: when a counter is
    0 and its total is a positive [int], the utilization of that resource
    is the double 100. *)
Theorem utilization_full (n : WorkerNode.t) :
  node_typed n ->
  (0 < WorkerNode.totalCores n -> WorkerNode.availableCores n = 0 ->
   WorkerNode.getCpuUtilization n = 100%float)
  /\ (0 < WorkerNode.totalMemory n -> WorkerNode.availableMemory n = 0 ->
      WorkerNode.getMemoryUtilization n = 100%float).
Proof.
  intros [Htc Htm].
  assert (Hint : forall z, int_range z -> z < 2 ^ 31).
  { unfold int_range, INT_MAX. intros z [_ H]. lia. }
  unfold WorkerNode.getCpuUtilization, WorkerNode.getMemoryUtilization.
  split; intros Hpos ->; apply used_percent_empty; auto.
Qed.

Lemma utilization_full_witness :
  WorkerNode.getCpuUtilization
    (WorkerNode.allocateJob (WorkerNode.make 0) (Job.make 1 0 24 8 1)).2 = 100%float.
Proof.
  refine (proj1 (utilization_full
                   (WorkerNode.allocateJob (WorkerNode.make 0) (Job.make 1 0 24 8 1)).2 _)
            _ _).
  - unfold node_typed, int_range, INT_MIN, INT_MAX. simpl. lia.
  - simpl. lia.
  - reflexivity.
Defined.

Lemma double_of_int_finite (a : Z) :
  a <> 0 -> int_range a ->
  exists m e, Prim2SF (double_of_int a) = S754_finite (a <? 0) m e.
Proof.
  intros Hne [Hlo Hhi]. unfold INT_MIN, INT_MAX in *. unfold double_of_int.
  assert (Hpos : forall z, 0 < z <= 2 ^ 31 ->
            exists m e, Prim2SF (of_uint63 (Uint63.of_Z z)) = S754_finite false m e).
  { intros z Hz. rewrite of_uint63_spec, Uint63.of_Z_spec.
    rewrite Z.mod_small by (change wB with (2 ^ 63); lia).
    destruct z as [| pz | pz]; [lia | | lia]. simpl binary_normalize.
    destruct (binary_round_exact pz 0 (-53)) as (m & e & E & _); try lia.
    by exists m, e. }
  destruct (Z.ltb_spec a 0) as [Hneg | Hnn].
  - destruct (Hpos (- a) ltac:(lia)) as (m & e & E).
    exists m, e. by rewrite opp_spec, E.
  - apply Hpos. lia.
Qed.

Lemma used_percent_zero_total (a : Z) : int_range a -> ~ percent (used_percent a 0).
Proof.
  intros Ha [H1 H2]. unfold used_percent in H1, H2.
  rewrite leb_spec, mul_spec, sub_spec, div_spec in H1, H2.
  unfold SF64mul, SF64sub, SF64div in H1, H2.
  change (Prim2SF (double_of_int 0)) with (S754_zero false) in H1, H2.
  destruct (Z.eq_dec a 0) as [-> | Hne].
  - change (Prim2SF (double_of_int 0)) with (S754_zero false) in H1. by vm_compute in H1.
  - destruct (double_of_int_finite a Hne Ha) as (m & e & E). rewrite E in H1, H2.
    destruct (a <? 0); [by vm_compute in H2 | by vm_compute in H1].
Qed.

(** X15. Division by a zero total is not guarded: on a node whose
    [totalCores] is 0 the CPU utilization is no percentage (it is NaN or
    an infinity, so at least one of the comparisons with 0 and 100 fails),
    whatever [int] the available counter holds; likewise for memory. *)
Theorem utilization_zero_total (n : WorkerNode.t) :
  (WorkerNode.totalCores n = 0 -> int_range (WorkerNode.availableCores n) ->
   ~ percent (WorkerNode.getCpuUtilization n))
  /\ (WorkerNode.totalMemory n = 0 -> int_range (WorkerNode.availableMemory n) ->
      ~ percent (WorkerNode.getMemoryUtilization n)).
Proof.
  unfold WorkerNode.getCpuUtilization, WorkerNode.getMemoryUtilization.
  split; intros -> Ha; by apply used_percent_zero_total.
Qed.

Lemma utilization_zero_total_witness :
  ~ percent (WorkerNode.getCpuUtilization (node_with 0 0 64)).
Proof.
  refine (proj1 (utilization_zero_total (node_with 0 0 64)) _ _).
  - reflexivity.
  - unfold int_range, INT_MIN, INT_MAX. simpl. lia.
Defined.
